(** * The PostGIS input plugin's [Connection] (plugins/input/postgis/connection.hpp)

    A [Connection] owns one libpq handle.  The class is modelled by explicit
    state passing: every method takes the object ([Connection], the C++
    [this]) and the state of the foreign library ([libpq]) and returns the
    new ones together with its result.  libpq, [select] and the clock are
    not part of the program: their answers are read from tapes held in the
    [libpq] record, so that a theorem quantified over that record speaks
    about every finite behaviour of the server.  Every foreign call that
    matters for resource ownership is appended to the [calls] log.

    What the model fixes about the foreign world: a tape is finite, and
    once it has run out the server has gone away (no result object, input
    cannot be consumed, not busy, nothing to read); the status and the
    error text of the handle stay what they are during a scenario; time
    passes only inside [select] and between two looks at the clock. *)

From Stdlib Require Import ZArith Lia.
From stdpp Require Import base tactics option list strings pretty.

Local Open Scope string_scope.
Local Open Scope list_scope.
Local Open Scope Z_scope.

(** ** Machine integers and text *)

(** A C++ [int] is 32 bits wide; [to_int] is the wrap-around of a
    mathematical integer into that range. *)
Definition int_min : Z := - 2 ^ 31.
Definition int_max : Z := 2 ^ 31 - 1.
Definition to_int (z : Z) : Z := (z + 2 ^ 31) mod 2 ^ 32 - 2 ^ 31.

(** The newline character of the C++ string literals. *)
Definition nl : string := String (Ascii.ascii_of_nat 10) EmptyString.

(** [contains s sub]: [sub] occurs in [s] as a contiguous substring. *)
Fixpoint contains (s sub : string) : bool :=
  String.prefix sub s ||
  match s with
  | EmptyString => false
  | String _ s' => contains s' sub
  end.

(** ** libpq-fe.h: the types the class uses *)

Inductive ConnStatusType : Set :=
| CONNECTION_OK
| CONNECTION_BAD
| CONNECTION_STARTED
| CONNECTION_MADE
| CONNECTION_AWAITING_RESPONSE
| CONNECTION_AUTH_OK
| CONNECTION_SETENV
| CONNECTION_SSL_STARTUP
| CONNECTION_NEEDED.

Inductive ExecStatusType : Set :=
| PGRES_EMPTY_QUERY
| PGRES_COMMAND_OK
| PGRES_TUPLES_OK
| PGRES_COPY_OUT
| PGRES_COPY_IN
| PGRES_BAD_RESPONSE
| PGRES_NONFATAL_ERROR
| PGRES_FATAL_ERROR.

Global Instance ConnStatusType_eq_dec : EqDecision ConnStatusType.
Proof. solve_decision. Defined.
Global Instance ExecStatusType_eq_dec : EqDecision ExecStatusType.
Proof. solve_decision. Defined.

(** A result object: its address and the status [PQresultStatus] reports.
    A [PGresult*] is an [option PGresult], [None] being the null pointer. *)
Record PGresult : Set := { res_addr : nat; res_status : ExecStatusType }.

Global Instance PGresult_eq_dec : EqDecision PGresult.
Proof. solve_decision. Defined.

(** A [PGconn*]: [None] is the null pointer.  One [libpq] record describes
    one handle, so the pointer carries no address. *)
Definition PGconn_ptr : Set := option unit.

(** What the socket does while [select] waits on it (times in
    microseconds from the moment of the call). *)
Inductive readiness : Set :=
| Readable (after : N)
| Silent
| Failing (after : N) (errnum : Z).

(** The foreign calls that are logged. *)
Inductive call : Set :=
| PQconnectdb_ (conninfo : string)
| PQfinish_
| PQsendQuery_ (sql : string)
| PQsendQueryParams_ (sql : string)
| PQconsumeInput_ (ret : Z)
| PQgetResult_ (res : option PGresult)
| PQclear_ (res : PGresult)
| select_ (at_us tv_usec ret waited : Z).

Global Instance call_eq_dec : EqDecision call.
Proof. solve_decision. Defined.

(** ** The state of the foreign world *)

Record libpq : Type := {
  connectdb_handle : bool;         (* PQconnectdb returns a handle, not NULL *)
  conn_status : ConnStatusType;    (* what PQstatus reports for the handle *)
  error_message : string;          (* what PQerrorMessage reports *)
  socket : Z;                      (* what PQsocket reports *)
  encoding : string;               (* the client_encoding parameter *)
  send_tape : list Z;              (* answers of PQsendQuery[Params] *)
  consume_tape : list Z;           (* answers of PQconsumeInput *)
  busy_tape : list bool;           (* answers of PQisBusy *)
  result_tape : list (option PGresult);  (* answers of PQgetResult *)
  select_tape : list readiness;    (* the socket during each select *)
  time_tape : list N;              (* time that passes before each clock reading *)
  now : Z;                         (* wall clock, microseconds *)
  errno : Z;
  calls : list call                (* oldest first *)
}.

Definition set_send_tape (t : list Z) (w : libpq) : libpq :=
  {| connectdb_handle := connectdb_handle w; conn_status := conn_status w;
     error_message := error_message w; socket := socket w;
     encoding := encoding w; send_tape := t;
     consume_tape := consume_tape w; busy_tape := busy_tape w;
     result_tape := result_tape w; select_tape := select_tape w;
     time_tape := time_tape w; now := now w; errno := errno w;
     calls := calls w |}.

Definition set_consume_tape (t : list Z) (w : libpq) : libpq :=
  {| connectdb_handle := connectdb_handle w; conn_status := conn_status w;
     error_message := error_message w; socket := socket w;
     encoding := encoding w; send_tape := send_tape w;
     consume_tape := t; busy_tape := busy_tape w;
     result_tape := result_tape w; select_tape := select_tape w;
     time_tape := time_tape w; now := now w; errno := errno w;
     calls := calls w |}.

Definition set_busy_tape (t : list bool) (w : libpq) : libpq :=
  {| connectdb_handle := connectdb_handle w; conn_status := conn_status w;
     error_message := error_message w; socket := socket w;
     encoding := encoding w; send_tape := send_tape w;
     consume_tape := consume_tape w; busy_tape := t;
     result_tape := result_tape w; select_tape := select_tape w;
     time_tape := time_tape w; now := now w; errno := errno w;
     calls := calls w |}.

Definition set_result_tape (t : list (option PGresult)) (w : libpq) : libpq :=
  {| connectdb_handle := connectdb_handle w; conn_status := conn_status w;
     error_message := error_message w; socket := socket w;
     encoding := encoding w; send_tape := send_tape w;
     consume_tape := consume_tape w; busy_tape := busy_tape w;
     result_tape := t; select_tape := select_tape w;
     time_tape := time_tape w; now := now w; errno := errno w;
     calls := calls w |}.

Definition set_select_tape (t : list readiness) (w : libpq) : libpq :=
  {| connectdb_handle := connectdb_handle w; conn_status := conn_status w;
     error_message := error_message w; socket := socket w;
     encoding := encoding w; send_tape := send_tape w;
     consume_tape := consume_tape w; busy_tape := busy_tape w;
     result_tape := result_tape w; select_tape := t;
     time_tape := time_tape w; now := now w; errno := errno w;
     calls := calls w |}.

Definition set_time_tape (t : list N) (w : libpq) : libpq :=
  {| connectdb_handle := connectdb_handle w; conn_status := conn_status w;
     error_message := error_message w; socket := socket w;
     encoding := encoding w; send_tape := send_tape w;
     consume_tape := consume_tape w; busy_tape := busy_tape w;
     result_tape := result_tape w; select_tape := select_tape w;
     time_tape := t; now := now w; errno := errno w;
     calls := calls w |}.

Definition set_now (t : Z) (w : libpq) : libpq :=
  {| connectdb_handle := connectdb_handle w; conn_status := conn_status w;
     error_message := error_message w; socket := socket w;
     encoding := encoding w; send_tape := send_tape w;
     consume_tape := consume_tape w; busy_tape := busy_tape w;
     result_tape := result_tape w; select_tape := select_tape w;
     time_tape := time_tape w; now := t; errno := errno w;
     calls := calls w |}.

Definition set_errno (e : Z) (w : libpq) : libpq :=
  {| connectdb_handle := connectdb_handle w; conn_status := conn_status w;
     error_message := error_message w; socket := socket w;
     encoding := encoding w; send_tape := send_tape w;
     consume_tape := consume_tape w; busy_tape := busy_tape w;
     result_tape := result_tape w; select_tape := select_tape w;
     time_tape := time_tape w; now := now w; errno := e;
     calls := calls w |}.

(** Append a foreign call to the log. *)
Definition log (c : call) (w : libpq) : libpq :=
  {| connectdb_handle := connectdb_handle w; conn_status := conn_status w;
     error_message := error_message w; socket := socket w;
     encoding := encoding w; send_tape := send_tape w;
     consume_tape := consume_tape w; busy_tape := busy_tape w;
     result_tape := result_tape w; select_tape := select_tape w;
     time_tape := time_tape w; now := now w; errno := errno w;
     calls := calls w ++ [c] |}.

(** Read the next answer of a tape; [d] is the answer of a tape that ran out. *)
Definition pop {A : Type} (d : A) (t : list A) : A * list A :=
  match t with
  | [] => (d, [])
  | a :: t' => (a, t')
  end.

(** ** The foreign functions

    Each follows the documented behaviour of libpq on a null handle and
    otherwise reads its tape.  A tape that ran out answers like a server
    that went away: no more results, input cannot be consumed, not busy. *)

Definition PQconnectdb (conninfo : string) (w : libpq) : PGconn_ptr * libpq :=
  (if connectdb_handle w then Some tt else None, log (PQconnectdb_ conninfo) w).

Definition PQfinish (conn : PGconn_ptr) (w : libpq) : libpq := log PQfinish_ w.

Definition PQstatus (conn : PGconn_ptr) (w : libpq) : ConnStatusType :=
  match conn with
  | None => CONNECTION_BAD
  | Some _ => conn_status w
  end.

Definition PQerrorMessage (conn : PGconn_ptr) (w : libpq) : string :=
  match conn with
  | None => "connection pointer is NULL" +:+ nl
  | Some _ => error_message w
  end.

Definition PQsocket (conn : PGconn_ptr) (w : libpq) : Z :=
  match conn with
  | None => -1
  | Some _ => socket w
  end.

Definition PQparameterStatus (conn : PGconn_ptr) (name : string) (w : libpq) : string :=
  encoding w.

Definition PQsendQuery (conn : PGconn_ptr) (sql : string) (w : libpq) : Z * libpq :=
  match conn with
  | None => (0, log (PQsendQuery_ sql) w)
  | Some _ =>
      let '(r, t) := pop 0 (send_tape w) in
      (r, log (PQsendQuery_ sql) (set_send_tape t w))
  end.

Definition PQsendQueryParams (conn : PGconn_ptr) (sql : string) (w : libpq) : Z * libpq :=
  match conn with
  | None => (0, log (PQsendQueryParams_ sql) w)
  | Some _ =>
      let '(r, t) := pop 0 (send_tape w) in
      (r, log (PQsendQueryParams_ sql) (set_send_tape t w))
  end.

Definition PQconsumeInput (conn : PGconn_ptr) (w : libpq) : Z * libpq :=
  match conn with
  | None => (0, log (PQconsumeInput_ 0) w)
  | Some _ =>
      let '(r, t) := pop 0 (consume_tape w) in
      (r, log (PQconsumeInput_ r) (set_consume_tape t w))
  end.

Definition PQisBusy (conn : PGconn_ptr) (w : libpq) : bool * libpq :=
  match conn with
  | None => (false, w)
  | Some _ =>
      let '(b, t) := pop false (busy_tape w) in
      (b, set_busy_tape t w)
  end.

Definition PQgetResult (conn : PGconn_ptr) (w : libpq) : option PGresult * libpq :=
  match conn with
  | None => (None, log (PQgetResult_ None) w)
  | Some _ =>
      let '(r, t) := pop None (result_tape w) in
      (r, log (PQgetResult_ r) (set_result_tape t w))
  end.

Definition PQresultStatus (res : PGresult) : ExecStatusType := res_status res.

Definition PQclear (res : PGresult) (w : libpq) : libpq := log (PQclear_ res) w.

Definition EINVAL : Z := 22.

(** [select] on the one socket with [tv_sec = 0] and the given [tv_usec].
    A negative timeout is refused with EINVAL at once; a [tv_usec] of a
    second or more is taken as it is, as Linux does.  Otherwise the call
    blocks until the socket's next event or until the budget is used up,
    whichever is first, and the clock advances by the time spent. *)
Definition select (nfds : Z) (tv_usec : Z) (w : libpq) : Z * libpq :=
  let '(ev, t) := pop Silent (select_tape w) in
  let w := set_select_tape t w in
  let '(ret, waited, w) :=
    if tv_usec <? 0 then (-1, 0, set_errno EINVAL w)
    else
      match ev with
      | Readable d =>
          if Z.of_N d <=? tv_usec then (1, Z.of_N d, w) else (0, tv_usec, w)
      | Silent => (0, tv_usec, w)
      | Failing d e =>
          if Z.of_N d <=? tv_usec then (-1, Z.of_N d, set_errno e w)
          else (0, tv_usec, w)
      end in
  (ret, log (select_ (now w) tv_usec ret waited) (set_now (now w + waited) w)).

(** [strerror], for the error numbers [select] can set. *)
Definition strerror (e : Z) : string :=
  if e =? 4 then "Interrupted system call"
  else if e =? 9 then "Bad file descriptor"
  else if e =? 12 then "Cannot allocate memory"
  else if e =? 22 then "Invalid argument"
  else "Unknown error " +:+ pretty e.

(** ** mapnik types the class uses *)

(** Modelled from the spec: [mapnik::datasource_exception]
    (mapnik/datasource.hpp is not among the sources), the only exception
    the class throws.  The spec's error kinds are all this one type; what
    an error carries is its text. *)
Record datasource_exception : Set := { what : string }.

(** The end of a call that may throw. *)
Inductive outcome (A : Type) : Type :=
| Return (a : A)
| Throw (e : datasource_exception).
Arguments Return {A} a.
Arguments Throw {A} e.

(** Modelled from the spec: [ResultSet] (resultset.hpp is not among the
    sources), which "wraps a raw result payload": it is built from the raw
    result pointer and owns it from then on. *)
Record ResultSet : Set := { res_ : option PGresult }.

(** Modelled from the spec: [mapnik::timer] (mapnik/timer.hpp is not among
    the sources).  The spec has the readiness loop "bounded by a timer
    started at submission time" and the budget computed from "elapsed_ms":
    the timer remembers the wall clock at its construction and
    [wall_clock_elapsed] reports the time gone by since then.  The value is
    given here in microseconds, that is the C++ [double] of milliseconds
    times 1000, so that no fraction is lost.  Time that passed since the
    last look at the clock is read from [time_tape]. *)
Record timer : Set := { wall_clock_start_ : Z }.

Definition timer_new (w : libpq) : timer := {| wall_clock_start_ := now w |}.

Definition wall_clock_elapsed (t : timer) (w : libpq) : Z * libpq :=
  let '(d, tape) := pop 0%N (time_tape w) in
  let w := set_now (now w + Z.of_N d) (set_time_tape tape w) in
  (now w - wall_clock_start_ t, w).

(** ** class Connection *)

Record Connection : Set := {
  conn_ : PGconn_ptr;
  cursorId : Z;
  closed_ : bool;
  pending_ : bool;
  statement_timeout_ : Z
}.

Definition set_cursorId (n : Z) (c : Connection) : Connection :=
  {| conn_ := conn_ c; cursorId := n; closed_ := closed_ c;
     pending_ := pending_ c; statement_timeout_ := statement_timeout_ c |}.

Definition set_closed (b : bool) (c : Connection) : Connection :=
  {| conn_ := conn_ c; cursorId := cursorId c; closed_ := b;
     pending_ := pending_ c; statement_timeout_ := statement_timeout_ c |}.

Definition set_pending (b : bool) (c : Connection) : Connection :=
  {| conn_ := conn_ c; cursorId := cursorId c; closed_ := closed_ c;
     pending_ := b; statement_timeout_ := statement_timeout_ c |}.

Definition isOK (c : Connection) (w : libpq) : bool :=
  negb (closed_ c) && bool_decide (PQstatus (conn_ c) w ≠ CONNECTION_BAD).

Definition isPending (c : Connection) : bool := pending_ c.

Definition status (c : Connection) (w : libpq) : string :=
  match conn_ c with
  | Some _ =>
      if isOK c w then PQerrorMessage (conn_ c) w else "Bad connection"
  | None => "Uninitialized connection"
  end.

Definition client_encoding (c : Connection) (w : libpq) : string :=
  PQparameterStatus (conn_ c) "client_encoding" w.

Definition close (c : Connection) (w : libpq) : Connection * libpq :=
  if negb (closed_ c) then
    let w := PQfinish (conn_ c) w in
    (set_closed true c, w)
  else (c, w).

(** The destructor [~Connection]. *)
Definition Connection_dtor (c : Connection) (w : libpq) : Connection * libpq :=
  if negb (closed_ c) then
    let w := PQfinish (conn_ c) w in
    (set_closed true c, w)
  else (c, w).

Definition is_empty (s : string) : bool :=
  match s with
  | EmptyString => true
  | String _ _ => false
  end.

(** The constructor.  A constructor that throws leaves no object behind:
    only the foreign world is returned with the exception. *)
Definition Connection_ctor (connection_str : string) (password : option string)
    (w : libpq) : outcome Connection * libpq :=
  let connect_with_pass :=
    match password with
    | Some p =>
        if negb (is_empty p) then connection_str +:+ (" password=" +:+ p)
        else connection_str
    | None => connection_str
    end in
  let '(conn, w) := PQconnectdb connect_with_pass w in
  let this := {| conn_ := conn; cursorId := 0; closed_ := false;
                 pending_ := false; statement_timeout_ := 4000 |} in
  if bool_decide (PQstatus (conn_ this) w ≠ CONNECTION_OK) then
    let err_msg := "Postgis Plugin: " in
    let err_msg := err_msg +:+ status this w in
    let err_msg := err_msg +:+ (nl +:+ "Connection string: '") in
    let err_msg := err_msg +:+ connection_str in
    let err_msg := err_msg +:+ ("'" +:+ nl) in
    let '(this, w) := close this w in
    (Throw {| what := err_msg |}, w)
  else (Return this, w).

(** [execute]: the loop [while (PGresult *result = PQgetResult(conn_))]. *)
Fixpoint execute_loop (fuel : nat) (conn : PGconn_ptr) (ok : bool) (w : libpq)
    : option (bool * libpq) :=
  match fuel with
  | O => None
  | S fuel =>
      let '(result, w) := PQgetResult conn w in
      match result with
      | None => Some (ok, w)
      | Some r =>
          let ok := bool_decide (PQresultStatus r = PGRES_COMMAND_OK) in
          let w := PQclear r w in
          execute_loop fuel conn ok w
      end
  end.

(** The loop is run with more fuel than it can use (lemma
    [execute_loop_fuel]); the [default] is never taken. *)
Definition execute (sql : string) (c : Connection) (w : libpq) : bool * libpq :=
  let '(sent, w) := PQsendQuery (conn_ c) sql w in
  if sent =? 0 then (false, w)
  else
    let ok := false in
    default (ok, w) (execute_loop (S (length (result_tape w))) (conn_ c) ok w).

(** The exception text of [executeQuery], shared by its three throws. *)
Definition query_error (diag sql : string) : string :=
  "Postgis Plugin: " +:+ diag +:+ nl +:+
  "in executeQuery Full sql was: '" +:+ sql +:+ "'" +:+ nl.

(** How the inner [do ... while (PQisBusy(conn_))] loop ends: it falls
    through or breaks with the last [success], or it throws. *)
Inductive poll_exit : Set :=
| poll_done (success : Z)
| poll_throw (e : datasource_exception).

Fixpoint poll (fuel : nat) (sql : string) (sock : Z) (timeout : timer)
    (c : Connection) (w : libpq) : option (poll_exit * Connection * libpq) :=
  match fuel with
  | O => None
  | S fuel =>
      let '(success, w) := PQconsumeInput (conn_ c) w in
      if success =? 0 then Some (poll_done success, c, w)
      else
        let '(busy, w) := PQisBusy (conn_ c) w in
        let '(thrown, c, w) :=
          if busy : bool then
            let '(elapsed, w) := wall_clock_elapsed timeout w in
            let msleft :=
              to_int (Z.quot (statement_timeout_ c * 1000 - elapsed) 1000) in
            let tv_usec := to_int (msleft * 1000) in
            let '(ret, w) := select (sock + 1) tv_usec w in
            if ret <? 1 then
              let ss :=
                query_error
                  (if ret =? 0 then "timeout "
                   else "select: " +:+ strerror (errno w)) sql in
              let '(c, w) := close c w in
              (Some {| what := ss |}, c, w)
            else (None, c, w)
          else (None, c, w) in
        match thrown with
        | Some e => Some (poll_throw e, c, w)
        | None =>
            let '(busy, w) := PQisBusy (conn_ c) w in
            if busy : bool then poll fuel sql sock timeout c w
            else Some (poll_done success, c, w)
        end
  end.

(** How the outer [while ( true )] loop ends: by a [break], with the
    recorded [ok] and the held result, or by the throw of the inner loop. *)
Inductive loop_exit : Set :=
| loop_done (ok : bool) (result : option PGresult)
| loop_throw (e : datasource_exception).

Fixpoint query_loop (fuel : nat) (sql : string) (sock : Z) (timeout : timer)
    (ok : bool) (result : option PGresult) (c : Connection) (w : libpq)
    : option (loop_exit * Connection * libpq) :=
  match fuel with
  | O => None
  | S fuel =>
      match poll (S (length (consume_tape w))) sql sock timeout c w with
      | None => None
      | Some (poll_throw e, c, w) => Some (loop_throw e, c, w)
      | Some (poll_done success, c, w) =>
          if success =? 0 then Some (loop_done false result, c, w)
          else
            let '(tmp, w) := PQgetResult (conn_ c) w in
            match tmp with
            | None => Some (loop_done ok result, c, w)
            | Some t =>
                let ok := bool_decide (PQresultStatus t = PGRES_TUPLES_OK) in
                let w := match result with
                         | Some r => PQclear r w
                         | None => w
                         end in
                query_loop fuel sql sock timeout ok (Some t) c w
            end
      end
  end.

(** Both loops are run with more fuel than they can use (lemmas
    [poll_fuel] and [query_loop_fuel]); the [default] is never taken. *)
Definition executeQuery (sql : string) (type : Z) (c : Connection) (w : libpq)
    : outcome ResultSet * Connection * libpq :=
  let timeout := timer_new w in
  let result : option PGresult := None in
  let '(success, w) :=
    if type =? 1 then PQsendQueryParams (conn_ c) sql w
    else PQsendQuery (conn_ c) sql w in
  let sock := PQsocket (conn_ c) w in
  let success := if sock <? 0 then 0 else success in
  if success =? 0 then
    (Throw {| what := query_error (status c w) sql |}, c, w)
  else
    let ok := false in
    let '(exit, c, w) :=
      default (loop_done ok result, c, w)
        (query_loop (S (length (result_tape w))) sql sock timeout ok result c w) in
    match exit with
    | loop_throw e => (Throw e, c, w)
    | loop_done ok result =>
        if negb ok then
          let err_msg := query_error (status c w) sql in
          let w := match result with
                   | Some r => PQclear r w
                   | None => w
                   end in
          (Throw {| what := err_msg |}, c, w)
        else (Return {| res_ := result |}, c, w)
    end.

(** [clearAsyncResult]: the loop [while (result)]. *)
Fixpoint clear_loop (fuel : nat) (conn : PGconn_ptr) (result : option PGresult)
    (w : libpq) : option libpq :=
  match fuel with
  | O => None
  | S fuel =>
      match result with
      | None => Some w
      | Some r =>
          let w := PQclear r w in
          let '(result, w) := PQgetResult conn w in
          clear_loop fuel conn result w
      end
  end.

(** The loop is run with more fuel than it can use (lemma
    [clear_loop_fuel]); the [default] is never taken. *)
Definition clearAsyncResult (result : option PGresult) (c : Connection)
    (w : libpq) : Connection * libpq :=
  let w :=
    default w (clear_loop (S (S (length (result_tape w)))) (conn_ c) result w) in
  (set_pending false c, w).

Definition executeAsyncQuery (sql : string) (type : Z) (c : Connection)
    (w : libpq) : outcome bool * Connection * libpq :=
  let '(result, w) :=
    if type =? 1 then PQsendQueryParams (conn_ c) sql w
    else PQsendQuery (conn_ c) sql w in
  if negb (result =? 1) then
    let err_msg := "Postgis Plugin: " in
    let err_msg := err_msg +:+ status c w in
    let err_msg := err_msg +:+ (nl +:+ "in executeAsyncQuery Full sql was: '") in
    let err_msg := err_msg +:+ sql in
    let err_msg := err_msg +:+ ("'" +:+ nl) in
    let '(queued, w) := PQgetResult (conn_ c) w in
    let '(c, w) := clearAsyncResult queued c w in
    let '(c, w) := close c w in
    (Throw {| what := err_msg |}, c, w)
  else
    let c := set_pending true c in
    (Return (negb (result =? 0)), c, w).

Definition getNextAsyncResult (c : Connection) (w : libpq)
    : outcome ResultSet * Connection * libpq :=
  let '(result, w) := PQgetResult (conn_ c) w in
  match result with
  | Some r =>
      if bool_decide (PQresultStatus r ≠ PGRES_TUPLES_OK) then
        let err_msg := "Postgis Plugin: " in
        let err_msg := err_msg +:+ status c w in
        let err_msg := err_msg +:+ (nl +:+ "in getNextAsyncResult") in
        let '(c, w) := clearAsyncResult result c w in
        let '(c, w) := close c w in
        (Throw {| what := err_msg |}, c, w)
      else (Return {| res_ := result |}, c, w)
  | None => (Return {| res_ := result |}, c, w)
  end.

Definition getAsyncResult (c : Connection) (w : libpq)
    : outcome ResultSet * Connection * libpq :=
  let '(result, w) := PQgetResult (conn_ c) w in
  if match result with
     | None => true
     | Some r => bool_decide (PQresultStatus r ≠ PGRES_TUPLES_OK)
     end
  then
    let err_msg := "Postgis Plugin: " in
    let err_msg := err_msg +:+ status c w in
    let err_msg := err_msg +:+ (nl +:+ "in getAsyncResult") in
    let '(c, w) := clearAsyncResult result c w in
    let '(c, w) := close c w in
    (Throw {| what := err_msg |}, c, w)
  else (Return {| res_ := result |}, c, w).

(** [s << "mapnik_" << (cursorId++)]: the name is made from the value
    before the increment; the increment is the one of a 32-bit [int]. *)
Definition new_cursor_name (c : Connection) : string * Connection :=
  let s := "mapnik_" +:+ pretty (cursorId c) in
  (s, set_cursorId (to_int (cursorId c + 1)) c).

(** ** The second variant of the header (src/unnamed/part_000)

    This variant has no asynchronous protocol and no [pending_] field.  Its
    constructor throws without calling [close]; its [executeQuery] has the
    loops of the first variant and other exception texts. *)
Module Part000.

Record Connection : Set := {
  conn_ : PGconn_ptr;
  cursorId : Z;
  closed_ : bool;
  statement_timeout_ : Z
}.

Definition isOK (c : Connection) (w : libpq) : bool :=
  negb (closed_ c) && bool_decide (PQstatus (conn_ c) w ≠ CONNECTION_BAD).

Definition status (c : Connection) (w : libpq) : string :=
  match conn_ c with
  | Some _ =>
      if isOK c w then PQerrorMessage (conn_ c) w else "Bad connection"
  | None => "Uninitialized connection"
  end.

Definition Connection_ctor (connection_str : string) (password : option string)
    (w : libpq) : outcome Connection * libpq :=
  let connect_with_pass :=
    match password with
    | Some p =>
        if negb (is_empty p) then connection_str +:+ (" password=" +:+ p)
        else connection_str
    | None => connection_str
    end in
  let '(conn, w) := PQconnectdb connect_with_pass w in
  let this := {| conn_ := conn; cursorId := 0; closed_ := false;
                 statement_timeout_ := 4000 |} in
  if bool_decide (PQstatus (conn_ this) w ≠ CONNECTION_OK) then
    let err_msg := "Postgis Plugin: " in
    let err_msg := err_msg +:+ status this w in
    let err_msg := err_msg +:+ (nl +:+ "Connection string: '") in
    let err_msg := err_msg +:+ connection_str in
    let err_msg := err_msg +:+ ("'" +:+ nl) in
    (Throw {| what := err_msg |}, w)
  else (Return this, w).

Definition set_cursorId (n : Z) (c : Connection) : Connection :=
  {| conn_ := conn_ c; cursorId := n; closed_ := closed_ c;
     statement_timeout_ := statement_timeout_ c |}.

Definition set_closed (b : bool) (c : Connection) : Connection :=
  {| conn_ := conn_ c; cursorId := cursorId c; closed_ := b;
     statement_timeout_ := statement_timeout_ c |}.

Definition close (c : Connection) (w : libpq) : Connection * libpq :=
  if negb (closed_ c) then
    let w := PQfinish (conn_ c) w in
    (set_closed true c, w)
  else (c, w).

Definition Connection_dtor (c : Connection) (w : libpq) : Connection * libpq :=
  if negb (closed_ c) then
    let w := PQfinish (conn_ c) w in
    (set_closed true c, w)
  else (c, w).

Definition execute (sql : string) (c : Connection) (w : libpq) : bool * libpq :=
  let '(sent, w) := PQsendQuery (conn_ c) sql w in
  if sent =? 0 then (false, w)
  else
    let ok := false in
    default (ok, w) (execute_loop (S (length (result_tape w))) (conn_ c) ok w).

(** The two exception texts of this variant's [executeQuery]: the one of a
    refused submission, and the one of the other two throws. *)
Definition send_error (diag sql : string) : string :=
  "Postgis Plugin: " +:+ diag +:+ nl +:+
  "in sendQuery Full sql was: '" +:+ sql +:+ "'" +:+ nl.

Definition query_error (diag sql : string) : string :=
  "Postgis Plugin: " +:+ diag +:+ nl +:+
  "Full sql was: '" +:+ sql +:+ "'" +:+ nl.

Fixpoint poll (fuel : nat) (sql : string) (sock : Z) (timeout : timer)
    (c : Connection) (w : libpq) : option (poll_exit * Connection * libpq) :=
  match fuel with
  | O => None
  | S fuel =>
      let '(success, w) := PQconsumeInput (conn_ c) w in
      if success =? 0 then Some (poll_done success, c, w)
      else
        let '(busy, w) := PQisBusy (conn_ c) w in
        let '(thrown, c, w) :=
          if busy : bool then
            let '(elapsed, w) := wall_clock_elapsed timeout w in
            let msleft :=
              to_int (Z.quot (statement_timeout_ c * 1000 - elapsed) 1000) in
            let tv_usec := to_int (msleft * 1000) in
            let '(ret, w) := select (sock + 1) tv_usec w in
            if ret <? 1 then
              let ss :=
                query_error
                  (if ret =? 0 then "timeout "
                   else "select: " +:+ strerror (errno w)) sql in
              let '(c, w) := close c w in
              (Some {| what := ss |}, c, w)
            else (None, c, w)
          else (None, c, w) in
        match thrown with
        | Some e => Some (poll_throw e, c, w)
        | None =>
            let '(busy, w) := PQisBusy (conn_ c) w in
            if busy : bool then poll fuel sql sock timeout c w
            else Some (poll_done success, c, w)
        end
  end.

Fixpoint query_loop (fuel : nat) (sql : string) (sock : Z) (timeout : timer)
    (ok : bool) (result : option PGresult) (c : Connection) (w : libpq)
    : option (loop_exit * Connection * libpq) :=
  match fuel with
  | O => None
  | S fuel =>
      match poll (S (length (consume_tape w))) sql sock timeout c w with
      | None => None
      | Some (poll_throw e, c, w) => Some (loop_throw e, c, w)
      | Some (poll_done success, c, w) =>
          if success =? 0 then Some (loop_done false result, c, w)
          else
            let '(tmp, w) := PQgetResult (conn_ c) w in
            match tmp with
            | None => Some (loop_done ok result, c, w)
            | Some t =>
                let ok := bool_decide (PQresultStatus t = PGRES_TUPLES_OK) in
                let w := match result with
                         | Some r => PQclear r w
                         | None => w
                         end in
                query_loop fuel sql sock timeout ok (Some t) c w
            end
      end
  end.

Definition executeQuery (sql : string) (type : Z) (c : Connection) (w : libpq)
    : outcome ResultSet * Connection * libpq :=
  let timeout := timer_new w in
  let result : option PGresult := None in
  let '(success, w) :=
    if type =? 1 then PQsendQueryParams (conn_ c) sql w
    else PQsendQuery (conn_ c) sql w in
  let sock := PQsocket (conn_ c) w in
  let success := if sock <? 0 then 0 else success in
  if success =? 0 then
    (Throw {| what := send_error (status c w) sql |}, c, w)
  else
    let ok := false in
    let '(exit, c, w) :=
      default (loop_done ok result, c, w)
        (query_loop (S (length (result_tape w))) sql sock timeout ok result c w) in
    match exit with
    | loop_throw e => (Throw e, c, w)
    | loop_done ok result =>
        if negb ok then
          let err_msg := query_error (status c w) sql in
          let w := match result with
                   | Some r => PQclear r w
                   | None => w
                   end in
          (Throw {| what := err_msg |}, c, w)
        else (Return {| res_ := result |}, c, w)
    end.

Definition client_encoding (c : Connection) (w : libpq) : string :=
  PQparameterStatus (conn_ c) "client_encoding" w.

Definition new_cursor_name (c : Connection) : string * Connection :=
  let s := "mapnik_" +:+ pretty (cursorId c) in
  (s, set_cursorId (to_int (cursorId c + 1)) c).

End Part000.

(** A connection of the first variant seen as one of the second: the
    [pending_] field is dropped. *)
Definition without_pending (c : Connection) : Part000.Connection :=
  {| Part000.conn_ := conn_ c; Part000.cursorId := cursorId c;
     Part000.closed_ := closed_ c;
     Part000.statement_timeout_ := statement_timeout_ c |}.

(** ** Scenarios

    A server that answers nothing yet, and a freshly built connection. *)
Definition quiet : libpq :=
  {| connectdb_handle := true; conn_status := CONNECTION_OK;
     error_message := EmptyString; socket := 5; encoding := "UTF8";
     send_tape := []; consume_tape := []; busy_tape := [];
     result_tape := []; select_tape := []; time_tape := [];
     now := 0; errno := 0; calls := [] |}.

Definition fresh : Connection :=
  {| conn_ := Some tt; cursorId := 0; closed_ := false; pending_ := false;
     statement_timeout_ := 4000 |}.

Definition rows (a : nat) : PGresult :=
  {| res_addr := a; res_status := PGRES_TUPLES_OK |}.
Definition command (a : nat) : PGresult :=
  {| res_addr := a; res_status := PGRES_COMMAND_OK |}.
Definition fatal (a : nat) : PGresult :=
  {| res_addr := a; res_status := PGRES_FATAL_ERROR |}.

(** A server that refuses the connection, with its reason. *)
Definition refusing : libpq :=
  {| connectdb_handle := true; conn_status := CONNECTION_BAD;
     error_message := "FATAL:  database gis does not exist";
     socket := -1; encoding := EmptyString;
     send_tape := []; consume_tape := []; busy_tape := [];
     result_tape := []; select_tape := []; time_tape := [];
     now := 0; errno := 0; calls := [] |}.

(** A server that answers a query with two result objects, the first
    after the client has waited 10 microseconds for it. *)
Definition two_results : libpq :=
  {| connectdb_handle := true; conn_status := CONNECTION_OK;
     error_message := EmptyString; socket := 5; encoding := "UTF8";
     send_tape := [1]; consume_tape := [1; 1; 1]; busy_tape := [true; false];
     result_tape := [Some (command 1); Some (rows 2)];
     select_tape := [Readable 10]; time_tape := [5%N];
     now := 0; errno := 0; calls := [] |}.

(** A server that accepts a query and then stays silent. *)
Definition silent_server : libpq :=
  {| connectdb_handle := true; conn_status := CONNECTION_OK;
     error_message := EmptyString; socket := 5; encoding := "UTF8";
     send_tape := [1]; consume_tape := [1]; busy_tape := [true];
     result_tape := []; select_tape := [Silent]; time_tape := [5%N];
     now := 0; errno := 0; calls := [] |}.

(** ** Construction, spelled out *)

(** The string given to [PQconnectdb]. *)
Definition conninfo (connection_str : string) (password : option string) : string :=
  match password with
  | Some p => if is_empty p then connection_str
              else connection_str +:+ " password=" +:+ p
  | None => connection_str
  end.

(** The text [status()] yields inside the constructor, where [closed_] is
    still false. *)
Definition diagnostic (w : libpq) : string :=
  if connectdb_handle w then
    if bool_decide (conn_status w = CONNECTION_BAD) then "Bad connection"
    else error_message w
  else "Uninitialized connection".

Definition connect_error (connection_str : string) (w : libpq) : string :=
  "Postgis Plugin: " +:+ diagnostic w +:+ nl +:+
  "Connection string: '" +:+ connection_str +:+ "'" +:+ nl.

(** ** Reading the log *)

(** The calls made since the world was [w]. *)
Definition calls_since (w w' : libpq) : list call :=
  drop (length (calls w)) (calls w').

(** The result objects handed out by [PQgetResult], in order. *)
Definition obtained (l : list call) : list PGresult :=
  omap (λ e, match e with PQgetResult_ (Some r) => Some r | _ => None end) l.

(** The result objects given to [PQclear], in order. *)
Definition released (l : list call) : list PGresult :=
  omap (λ e, match e with PQclear_ r => Some r | _ => None end) l.

(** How often the handle was given to [PQfinish]. *)
Definition finishes (l : list call) : nat :=
  length (filter (λ e, e = PQfinish_) l).

(** Append several foreign calls to the log. *)
Definition logs (l : list call) (w : libpq) : libpq :=
  {| connectdb_handle := connectdb_handle w; conn_status := conn_status w;
     error_message := error_message w; socket := socket w;
     encoding := encoding w; send_tape := send_tape w;
     consume_tape := consume_tape w; busy_tape := busy_tape w;
     result_tape := result_tape w; select_tape := select_tape w;
     time_tape := time_tape w; now := now w; errno := errno w;
     calls := calls w ++ l |}.

(** ** The queue of result objects

    The result objects [PQgetResult] hands out before it first answers
    NULL, and what is left of the tape after that NULL. *)
Fixpoint queued (t : list (option PGresult)) : list PGresult :=
  match t with
  | Some r :: t' => r :: queued t'
  | _ => []
  end.

Fixpoint after_null (t : list (option PGresult)) : list (option PGresult) :=
  match t with
  | Some _ :: t' => after_null t'
  | None :: t' => t'
  | [] => []
  end.

Definition queue (conn : PGconn_ptr) (w : libpq) : list PGresult :=
  match conn with
  | None => []
  | Some _ => queued (result_tape w)
  end.

Definition drained (conn : PGconn_ptr) (w : libpq) : libpq :=
  match conn with
  | None => w
  | Some _ => set_result_tape (after_null (result_tape w)) w
  end.

(** The calls of a drain: every queued result object is fetched and
    released at once, then [PQgetResult] answers NULL. *)
Definition drain_calls (rs : list PGresult) : list call :=
  flat_map (λ r, [PQgetResult_ (Some r); PQclear_ r]) rs ++ [PQgetResult_ None].

(** ** Repeated calls *)

(** [close()] called [n] times in a row. *)
Fixpoint close_n (n : nat) (s : Connection * libpq) : Connection * libpq :=
  match n with
  | O => s
  | S n => close_n n (close s.1 s.2)
  end.

(** [new_cursor_name()] called [n] times in a row: the names returned, in
    order, and the object afterwards. *)
Fixpoint cursor_names (n : nat) (c : Connection) : list string * Connection :=
  match n with
  | O => ([], c)
  | S n =>
      let '(s, c) := new_cursor_name c in
      let '(l, c) := cursor_names n c in
      (s :: l, c)
  end.

(** The counter after [k] calls of [new_cursor_name()]. *)
Definition cursor_after (k : nat) (c : Connection) : Z :=
  cursorId (cursor_names k c).2.

(** The status a loop records: [ok] is overwritten at every result object
    fetched, so after fetching [rs] it tells whether the last of them has
    status [s], and keeps its initial value when nothing was fetched. *)
Definition last_status (s : ExecStatusType) (ok : bool) (rs : list PGresult) : bool :=
  match last rs with
  | Some r => bool_decide (PQresultStatus r = s)
  | None => ok
  end.

(** The submission shared by [executeQuery] and [executeAsyncQuery]. *)
Definition submit (sql : string) (type : Z) (c : Connection) (w : libpq)
    : Z * libpq :=
  if type =? 1 then PQsendQueryParams (conn_ c) sql w
  else PQsendQuery (conn_ c) sql w.

(** What every failure path of the asynchronous protocol does after the
    exception text is built: drain the queue, clear [pending_], close. *)
Definition cleanup (c : Connection) (w : libpq) : Connection * libpq :=
  close (set_pending false c)
        (logs (drain_calls (queue (conn_ c) w)) (drained (conn_ c) w)).

(** The state in which an asynchronous call that failed leaves the object
    and the foreign world, [w] being the world when the drain began. *)
Definition failed_clean {A : Type} (c : Connection) (w : libpq)
    (r : outcome A) (c' : Connection) (w' : libpq) : Prop :=
  (∃ e, r = Throw e) ∧
  calls w' = calls w ++ drain_calls (queue (conn_ c) w)
                     ++ (if closed_ c then [] else [PQfinish_]) ∧
  obtained (calls_since w w') = queue (conn_ c) w ∧
  released (calls_since w w') = queue (conn_ c) w ∧
  result_tape w' = result_tape (drained (conn_ c) w) ∧
  pending_ c' = false ∧
  closed_ c' = true ∧
  isOK c' w' = false.

(** ** Reading the log of [executeQuery] *)

(** No [select] in the log timed out or failed. *)
Definition quiet_waits (l : list call) : Prop :=
  Forall (λ e, match e with select_ _ _ ret _ => 1 ≤ ret | _ => True end) l.

(** [PQconsumeInput] reported failure. *)
Definition input_lost (l : list call) : Prop := PQconsumeInput_ 0 ∈ l.

(** The exception text after a readiness wait that returned [ret < 1]. *)
Definition wait_error (ret : Z) (errnum : Z) (sql : string) : string :=
  query_error (if ret =? 0 then "timeout "
               else "select: " +:+ strerror errnum) sql.

(** How the polling loop leaves through its throw: the calls [l] end with
    the [select] that returned less than 1 and, unless the connection was
    closed already, the [PQfinish] of [close()]; then [e] is thrown. *)
Definition wait_failure (c : Connection) (sql : string) (l : list call)
    (e : datasource_exception) (c' : Connection) (w' : libpq) : Prop :=
  ∃ l0 at_us tv_usec ret waited,
    l = l0 ++ select_ at_us tv_usec ret waited
           :: (if closed_ c then [] else [PQfinish_]) ∧
    quiet_waits l0 ∧
    obtained l = obtained l0 ∧
    released l = released l0 ∧
    ret < 1 ∧
    e = {| what := wait_error ret (errno w') sql |} ∧
    closed_ c' = true.

(** What the calls of the polling loop leave untouched. *)
Definition polls (w w' : libpq) (l : list call) : Prop :=
  calls w' = calls w ++ l ∧
  conn_status w' = conn_status w ∧
  error_message w' = error_message w ∧
  result_tape w' = result_tape w ∧
  (length (consume_tape w') ≤ length (consume_tape w))%nat.

(** Calls that fetch and release nothing, report no lost input, no
    failed wait, and do not close. *)
Definition benign (l : list call) : Prop :=
  quiet_waits l ∧ obtained l = [] ∧ released l = [] ∧
  finishes l = O ∧ ¬ input_lost l.

(** What the polling loop has done when it leaves with [exit], having
    made the calls [l]. *)
Definition poll_post (c : Connection) (sql : string) (exit : poll_exit)
    (c' : Connection) (w' : libpq) (l : list call) : Prop :=
  obtained l = [] ∧ released l = [] ∧
  match exit with
  | poll_done s =>
      c' = c ∧ quiet_waits l ∧ finishes l = O ∧ (s = 0 ↔ input_lost l)
  | poll_throw e => wait_failure c sql l e c' w'
  end.

(** The calls of a log that fetch a result object or release one. *)
Definition is_result_call (e : call) : bool :=
  match e with
  | PQgetResult_ (Some _) | PQclear_ _ => true
  | _ => false
  end.

Definition result_calls (l : list call) : list call :=
  filter (λ e, is_result_call e = true) l.

(** Fetching the result objects [rs] one after the other while holding
    [held]: each one fetched replaces the one held, which is released right
    after the fetch. *)
Fixpoint replacing (held : option PGresult) (rs : list PGresult) : list call :=
  match rs with
  | [] => []
  | r :: rs' =>
      PQgetResult_ (Some r) :: (PQclear_ <$> option_list held)
        ++ replacing (Some r) rs'
  end.

(** What no call of [executeQuery] touches. *)
Definition steps (w w' : libpq) (l : list call) : Prop :=
  calls w' = calls w ++ l ∧
  conn_status w' = conn_status w ∧
  error_message w' = error_message w.

(** What the outer loop has done when it leaves with [exit], having been
    entered with the recorded status [ok] and the held result [result] and
    having made the calls [l]: every result object fetched, and the one
    held at entry, has been released, except the one held at the end, which
    is the last one fetched. *)
Definition loop_post (c : Connection) (sql : string) (ok : bool)
    (result : option PGresult) (exit : loop_exit) (c' : Connection)
    (w' : libpq) (l : list call) : Prop :=
  match exit with
  | loop_done ok' result' =>
      c' = c ∧ quiet_waits l ∧ finishes l = O ∧
      option_list result ++ obtained l = released l ++ option_list result' ∧
      result' = last (option_list result ++ obtained l) ∧
      result_calls l = replacing result (obtained l) ∧
      (input_lost l → ok' = false) ∧
      (¬ input_lost l → ok' = last_status PGRES_TUPLES_OK ok (obtained l))
  | loop_throw e => wait_failure c sql l e c' w'
  end.

(** [executeQuery] got past its first throw: the query was accepted and
    the connection has a socket. *)
Definition submitted (sql : string) (type : Z) (c : Connection) (w : libpq)
    : bool :=
  negb (PQsocket (conn_ c) (submit sql type c w).2 <? 0) &&
  negb ((submit sql type c w).1 =? 0).

(** The status recorded when the outer loop of [executeQuery] ends without
    a throw: "rows ok" when input was never lost and the last result object
    fetched has status [PGRES_TUPLES_OK]. *)
Definition rows_ok (l : list call) : Prop :=
  ¬ input_lost l ∧ last_status PGRES_TUPLES_OK false (obtained l) = true.

Global Instance rows_ok_dec (l : list call) : Decision (rows_ok l).
Proof. unfold rows_ok, input_lost. apply _. Defined.

(** The three ways [executeQuery] ends once the query is submitted, [l]
    being the calls made after the submission: it returns the result
    object held last, or it throws after the loop, or it throws from the
    readiness wait. *)
Definition query_post (c : Connection) (sql : string) (w : libpq)
    (r : outcome ResultSet) (c' : Connection) (w' : libpq) (l : list call)
    : Prop :=
  (∃ held, r = Return {| res_ := Some held |} ∧ c' = c ∧ quiet_waits l ∧
           rows_ok l ∧ last (obtained l) = Some held ∧
           obtained l = released l ++ [held] ∧
           result_calls l = replacing None (obtained l) ∧ finishes l = O) ∨
  (r = Throw {| what := query_error (status c w) sql |} ∧ c' = c ∧
   quiet_waits l ∧ ¬ rows_ok l ∧ released l = obtained l ∧
   result_calls l = replacing None (obtained l)
                      ++ (PQclear_ <$> option_list (last (obtained l))) ∧
   finishes l = O) ∨
  (∃ e, r = Throw e ∧ wait_failure c sql l e c' w').

(** ** Time *)

(** The time, in microseconds, that the tape lets pass outside [select]. *)
Fixpoint total (t : list N) : Z :=
  match t with
  | [] => 0
  | d :: t' => Z.of_N d + total t'
  end.

(** The time spent blocked in the [select] calls of a log. *)
Fixpoint waits (l : list call) : Z :=
  match l with
  | [] => 0
  | select_ _ _ _ waited :: l' => waited + waits l'
  | _ :: l' => waits l'
  end.

(** The budget of a wait that starts [elapsed] microseconds after the
    timer: the whole milliseconds of [T] milliseconds minus the elapsed
    time, as microseconds. *)
Definition budget (T elapsed : Z) : Z := 1000 * Z.quot (T * 1000 - elapsed) 1000.

(** Every [select] of the log was given the budget that is left at the
    moment it is called, and blocked no longer than that. *)
Definition budgeted (T t0 : Z) (l : list call) : Prop :=
  Forall (λ e, match e with
               | select_ at_us tv_usec _ waited =>
                   tv_usec = budget T (at_us - t0) ∧
                   0 ≤ waited ≤ Z.max 0 tv_usec
               | _ => True
               end) l.

(** As long as less than [2^31] microseconds pass outside [select], the
    [int] arithmetic of the budget does not overflow. *)
Definition horizon : Z := 2 ^ 31.

Definition in_time (T t0 : Z) (w : libpq) : Prop :=
  t0 ≤ now w ∧
  (now w - t0) + total (time_tape w) ≤ T * 1000 + horizon ∧
  total (time_tape w) ≤ horizon.

(** What is left of the timeout window. *)
Definition slack (T t0 : Z) (w : libpq) : Z := Z.max 0 (T * 1000 - (now w - t0)).

(** The calls [l] lead from [w] to [w'], every wait among them within
    budget, and the waiting is paid for by the slack. *)
Definition elapses (T t0 : Z) (w w' : libpq) (l : list call) : Prop :=
  calls w' = calls w ++ l ∧
  (in_time T t0 w →
   in_time T t0 w' ∧ budgeted T t0 l ∧
   waits l ≤ slack T t0 w - slack T t0 w').

(** ** Sessions

    The methods that change the object or the foreign world, and a
    session: methods called one after the other on one connection.  A
    session yields the cursor names handed out, the object and the world. *)
Inductive method : Set :=
| call_execute (sql : string)
| call_executeQuery (sql : string) (type : Z)
| call_executeAsyncQuery (sql : string) (type : Z)
| call_getNextAsyncResult
| call_getAsyncResult
| call_close
| call_new_cursor_name.

Definition invoke (m : method) (c : Connection) (w : libpq)
    : list string * Connection * libpq :=
  match m with
  | call_execute sql => ([], c, (execute sql c w).2)
  | call_executeQuery sql type =>
      let '(_, c, w) := executeQuery sql type c w in ([], c, w)
  | call_executeAsyncQuery sql type =>
      let '(_, c, w) := executeAsyncQuery sql type c w in ([], c, w)
  | call_getNextAsyncResult =>
      let '(_, c, w) := getNextAsyncResult c w in ([], c, w)
  | call_getAsyncResult =>
      let '(_, c, w) := getAsyncResult c w in ([], c, w)
  | call_close => let '(c, w) := close c w in ([], c, w)
  | call_new_cursor_name => let '(s, c) := new_cursor_name c in ([s], c, w)
  end.

Fixpoint session (ms : list method) (c : Connection) (w : libpq)
    : list string * Connection * libpq :=
  match ms with
  | [] => ([], c, w)
  | m :: ms' =>
      let '(names, c, w) := invoke m c w in
      let '(names', c, w) := session ms' c w in
      (names ++ names', c, w)
  end.

(** How a method may change the handle's ownership: it keeps the pointer
    and the timeout, never reopens a closed connection, and gives the
    handle to [PQfinish] exactly when it closes an open connection. *)
Definition object_step (c : Connection) (w : libpq) (c' : Connection)
    (w' : libpq) : Prop :=
  conn_ c' = conn_ c ∧
  statement_timeout_ c' = statement_timeout_ c ∧
  (closed_ c = true → closed_ c' = true) ∧
  finishes (calls w') =
    (finishes (calls w)
     + (if closed_ c then 0 else if closed_ c' then 1 else 0))%nat.

(** The calls the polling loop can make; a [select] given a negative
    timeout has returned -1. *)
Definition poll_call (e : call) : Prop :=
  match e with
  | PQconsumeInput_ _ | PQfinish_ => True
  | select_ _ tv_usec ret _ => tv_usec < 0 → ret = -1
  | _ => False
  end.

(** The calls [executeQuery] can make after the submission. *)
Definition query_call (e : call) : Prop :=
  match e with
  | PQconnectdb_ _ | PQsendQuery_ _ | PQsendQueryParams_ _ => False
  | select_ _ tv_usec ret _ => tv_usec < 0 → ret = -1
  | _ => True
  end.

(** The throw of the polling loop, seen from the log [l] and the world
    [w'] it leaves: input was never lost, one [select] returned less than
    1, and the exception text is made from its return value and [errno]. *)
Definition failed_wait (sql : string) (l : list call)
    (e : datasource_exception) (w' : libpq) : Prop :=
  ¬ input_lost l ∧
  ∃ at_us tv_usec ret waited,
    select_ at_us tv_usec ret waited ∈ l ∧ ret < 1 ∧
    e = {| what := wait_error ret (errno w') sql |} ∧
    (tv_usec < 0 → ret = -1 ∧ errno w' = EINVAL).

(** Two ends of a polling loop, one of each variant of the header, that
    differ in the wording of the exception only. *)
Definition poll_exits_agree (sql : string) (x x' : poll_exit) : Prop :=
  match x, x' with
  | poll_done s, poll_done s' => s = s'
  | poll_throw e, poll_throw e' =>
      ∃ diag, e = {| what := query_error diag sql |} ∧
              e' = {| what := Part000.query_error diag sql |}
  | _, _ => False
  end.

Definition loop_exits_agree (sql : string) (x x' : loop_exit) : Prop :=
  match x, x' with
  | loop_done ok result, loop_done ok' result' => ok = ok' ∧ result = result'
  | loop_throw e, loop_throw e' =>
      ∃ diag, e = {| what := query_error diag sql |} ∧
              e' = {| what := Part000.query_error diag sql |}
  | _, _ => False
  end.

(** Two outcomes of [executeQuery], one of each variant, that differ in
    the wording of the exception only: the same value is returned, or both
    throw, with the same diagnostic text and SQL. *)
Definition outcomes_agree (sql : string) (r r' : outcome ResultSet) : Prop :=
  match r, r' with
  | Return rs, Return rs' => rs = rs'
  | Throw e, Throw e' =>
      ∃ diag, e = {| what := query_error diag sql |} ∧
              (e' = {| what := Part000.send_error diag sql |} ∨
               e' = {| what := Part000.query_error diag sql |})
  | _, _ => False
  end.

(** How many of the methods hand out a cursor name. *)
Fixpoint cursor_calls (ms : list method) : nat :=
  match ms with
  | [] => O
  | call_new_cursor_name :: ms' => S (cursor_calls ms')
  | _ :: ms' => cursor_calls ms'
  end.

(** [getNextAsyncResult()] called [n] times in a row: what the calls
    yield, in order, the object and the world afterwards. *)
Fixpoint next_results (n : nat) (c : Connection) (w : libpq)
    : list (outcome ResultSet) * Connection * libpq :=
  match n with
  | O => ([], c, w)
  | S n' =>
      let '(r, c, w) := getNextAsyncResult c w in
      let '(rs, c, w) := next_results n' c w in
      (r :: rs, c, w)
  end.

(** A server that sends one result object at once and then nothing. *)
Definition stalling_server : libpq :=
  {| connectdb_handle := true; conn_status := CONNECTION_OK;
     error_message := EmptyString; socket := 5; encoding := "UTF8";
     send_tape := [1]; consume_tape := [1; 1];
     busy_tape := [false; false; true];
     result_tape := [Some (rows 1)];
     select_tape := [Silent]; time_tape := [5%N];
     now := 0; errno := 0; calls := [] |}.

(** A server that keeps the client busy, and a clock on which 4.002
    seconds pass before the client first looks at it. *)
Definition late_server : libpq :=
  {| connectdb_handle := true; conn_status := CONNECTION_OK;
     error_message := EmptyString; socket := 5; encoding := "UTF8";
     send_tape := [1]; consume_tape := [1]; busy_tape := [true];
     result_tape := []; select_tape := [Readable 0]; time_tape := [4002000%N];
     now := 0; errno := 0; calls := [] |}.

(** A server whose connection breaks after one result object. *)
Definition breaking_server : libpq :=
  {| connectdb_handle := true; conn_status := CONNECTION_OK;
     error_message := "server closed the connection unexpectedly";
     socket := 5; encoding := "UTF8";
     send_tape := [1]; consume_tape := [1; 0]; busy_tape := [];
     result_tape := [Some (rows 1)];
     select_tape := []; time_tape := [];
     now := 0; errno := 0; calls := [] |}.

(** The life of one object: construction, the methods called on it, and
    the destructor.  A constructor that throws leaves no object, so no
    destructor runs. *)
Definition lifetime (connection_str : string) (password : option string)
    (ms : list method) (w : libpq) : libpq :=
  let '(r, w) := Connection_ctor connection_str password w in
  match r with
  | Return c =>
      let '(_, c, w) := session ms c w in
      (Connection_dtor c w).2
  | Throw _ => w
  end.

(** The same for the variant in part_000, with [close] called any number
    of times in between. *)
Definition lifetime_part000 (connection_str : string)
    (password : option string) (closes : nat) (w : libpq) : libpq :=
  let '(r, w) := Part000.Connection_ctor connection_str password w in
  match r with
  | Return c =>
      let '(c, w) :=
        Nat.iter closes (λ cw, Part000.close cw.1 cw.2) (c, w) in
      (Part000.Connection_dtor c w).2
  | Throw _ => w
  end.

(** The methods that submit a query and read its results in one call, and
    those that touch no query at all; the other three are the asynchronous
    interface. *)
Definition synchronous (m : method) : bool :=
  match m with
  | call_executeAsyncQuery _ _ | call_getNextAsyncResult
  | call_getAsyncResult => false
  | _ => true
  end.

(** The result objects a method hands to its caller: the one inside the
    [ResultSet] it returns, if it returns one that is not empty. *)
Definition given (r : outcome ResultSet) : list PGresult :=
  match r with
  | Return rs => option_list (res_ rs)
  | Throw _ => []
  end.

Definition handed (m : method) (c : Connection) (w : libpq) : list PGresult :=
  match m with
  | call_executeQuery sql type => given (executeQuery sql type c w).1.1
  | call_getNextAsyncResult => given (getNextAsyncResult c w).1.1
  | call_getAsyncResult => given (getAsyncResult c w).1.1
  | _ => []
  end.

Fixpoint session_handed (ms : list method) (c : Connection) (w : libpq)
    : list PGresult :=
  match ms with
  | [] => []
  | m :: ms' =>
      handed m c w ++ session_handed ms' (invoke m c w).1.2 (invoke m c w).2
  end.

(** * Properties *)

(** ** Text and machine integers *)

Lemma append_assoc (a b c : string) : (a +:+ b) +:+ c = a +:+ (b +:+ c).
Proof.
  induction a as [|x a IH]; [done|].
  change (String x ((a +:+ b) +:+ c) = String x (a +:+ (b +:+ c))).
  by rewrite IH.
Qed.

Lemma prefix_app (sub b : string) : String.prefix sub (sub +:+ b) = true.
Proof.
  induction sub as [|a sub IH]; simpl.
  - by destruct b.
  - destruct (Ascii.ascii_dec a a); [done | congruence].
Qed.

Lemma contains_app (a sub b : string) : contains (a +:+ sub +:+ b) sub = true.
Proof.
  induction a as [|x a IH].
  - change (EmptyString +:+ sub +:+ b) with (sub +:+ b).
    replace (contains (sub +:+ b) sub)
      with (String.prefix sub (sub +:+ b) ||
            match sub +:+ b with
            | EmptyString => false
            | String _ s' => contains s' sub
            end) by (by destruct (sub +:+ b)).
    by rewrite prefix_app.
  - change (contains (String x (a +:+ sub +:+ b)) sub = true).
    cbn [contains]. rewrite IH. apply orb_true_r.
Qed.

(** Arithmetic on wrapped integers: the powers of two are made literal so
    that [lia] can reason about the remainder. *)
Ltac int_lia :=
  unfold to_int, int_min, int_max in *;
  change (2 ^ 31) with 2147483648 in *;
  change (2 ^ 32) with 4294967296 in *;
  Z.to_euclidean_division_equations; lia.

Lemma to_int_range (z : Z) : int_min ≤ to_int z ≤ int_max.
Proof. int_lia. Qed.

Lemma to_int_id (z : Z) : int_min ≤ z ≤ int_max → to_int z = z.
Proof. int_lia. Qed.

Lemma to_int_succ (z : Z) : to_int (to_int z + 1) = to_int (z + 1).
Proof. int_lia. Qed.

Lemma to_int_inj (a : Z) (i j : Z) :
  0 ≤ i < 2 ^ 32 → 0 ≤ j < 2 ^ 32 → to_int (a + i) = to_int (a + j) → i = j.
Proof. int_lia. Qed.

(** ** Closing *)

Lemma finishes_app (l1 l2 : list call) :
  finishes (l1 ++ l2) = (finishes l1 + finishes l2)%nat.
Proof. unfold finishes. by rewrite filter_app, length_app. Qed.

Lemma close_closed (c : Connection) (w : libpq) :
  closed_ c = true → close c w = (c, w).
Proof. unfold close. by intros ->. Qed.

Lemma close_open (c : Connection) (w : libpq) :
  closed_ c = false → close c w = (set_closed true c, log PQfinish_ w).
Proof. unfold close. by intros ->. Qed.

Lemma closed_after_close (c : Connection) (w : libpq) :
  closed_ (close c w).1 = true.
Proof. unfold close. by destruct (closed_ c) eqn:E. Qed.

Lemma close_n_closed (n : nat) (c : Connection) (w : libpq) :
  closed_ c = true → close_n n (c, w) = (c, w).
Proof.
  intros Hc. induction n as [|n IH]; [done|].
  cbn [close_n fst snd]. by rewrite close_closed.
Qed.

(** C7. [close()] is idempotent.  On a connection that was never closed,
    the first [close()], and in the same way the destructor, gives the
    handle to [PQfinish] exactly once and sets [closed_]; after that any
    number of further [close()] calls, and the destructor, change neither
    the object nor the foreign world, so the handle is never released a
    second time. *)
Theorem close_idempotent (c : Connection) (w : libpq) (n : nat) :
  closed_ c = false →
  let s1 := close c w in
  closed_ s1.1 = true ∧
  calls s1.2 = calls w ++ [PQfinish_] ∧
  finishes (calls s1.2) = S (finishes (calls w)) ∧
  Connection_dtor c w = s1 ∧
  close_n n s1 = s1 ∧
  Connection_dtor s1.1 s1.2 = s1 ∧
  finishes (calls (close_n n s1).2) = S (finishes (calls w)).
Proof.
  intros Hc s1. subst s1. rewrite (close_open _ _ Hc). cbn [fst snd].
  assert (Hn : close_n n (set_closed true c, log PQfinish_ w)
               = (set_closed true c, log PQfinish_ w))
    by (by apply close_n_closed).
  rewrite Hn. cbn [fst snd calls log set_closed closed_].
  rewrite finishes_app. change (finishes [PQfinish_]) with 1%nat.
  repeat split; try done; try lia.
  unfold Connection_dtor. by rewrite Hc.
Qed.

Lemma close_idempotent_witness :
  close_n 3 (close fresh quiet) = close fresh quiet ∧
  finishes (calls (close_n 3 (close fresh quiet)).2) = 1%nat.
Proof.
  pose proof (close_idempotent fresh quiet 3 eq_refl) as H.
  cbv zeta in H. destruct H as (_ & _ & _ & _ & H5 & _ & H7).
  split; [exact H5 | exact H7].
Defined.

(** ** Cursor names *)

Lemma cursor_names_S (n : nat) (c : Connection) :
  cursor_names (S n) c =
  (("mapnik_" +:+ pretty (cursorId c)) :: (cursor_names n (new_cursor_name c).2).1,
   (cursor_names n (new_cursor_name c).2).2).
Proof.
  cbn [cursor_names]. unfold new_cursor_name at 1. cbn [fst snd].
  change (set_cursorId (to_int (cursorId c + 1)) c) with (new_cursor_name c).2.
  by destruct (cursor_names n (new_cursor_name c).2).
Qed.

Lemma cursor_names_length (n : nat) (c : Connection) :
  length (cursor_names n c).1 = n.
Proof.
  revert c. induction n as [|n IH]; intros c; [done|].
  rewrite cursor_names_S. cbn. by rewrite IH.
Qed.

(** [n + 1] calls are one call followed by [n] calls, and also [n] calls
    followed by one. *)
Lemma cursor_after_S (k : nat) (c : Connection) :
  cursor_after (S k) c = cursor_after k (new_cursor_name c).2.
Proof. unfold cursor_after. by rewrite cursor_names_S. Qed.

Lemma cursor_after_wrap (k : nat) (c : Connection) :
  cursor_after (S k) c = to_int (cursorId c + Z.of_nat (S k)).
Proof.
  revert c. induction k as [|k IH]; intros c.
  - cbn. f_equal.
  - rewrite cursor_after_S, IH. cbn [new_cursor_name snd set_cursorId cursorId].
    rewrite (Nat2Z.inj_succ (S k)). generalize (Z.of_nat (S k)) (cursorId c).
    clear. intros m a. int_lia.
Qed.

Lemma cursor_names_lookup (n k : nat) (c : Connection) :
  (k < n)%nat →
  (cursor_names n c).1 !! k = Some ("mapnik_" +:+ pretty (cursor_after k c)).
Proof.
  revert k c. induction n as [|n IH]; intros k c Hk; [lia|].
  rewrite cursor_names_S. cbn [fst]. destruct k as [|k].
  - done.
  - rewrite cursor_after_S. cbn [lookup list_lookup].
    apply IH. lia.
Qed.

Lemma cursor_after_step (k : nat) (c : Connection) :
  cursor_after (S k) c = to_int (cursor_after k c + 1).
Proof.
  destruct k as [|k].
  - rewrite cursor_after_wrap. cbn. f_equal.
  - rewrite !cursor_after_wrap, to_int_succ. f_equal. lia.
Qed.

Lemma cursor_after_mod (k : nat) (c : Connection) :
  to_int (cursor_after k c) = to_int (cursorId c + Z.of_nat k).
Proof.
  destruct k as [|k].
  - change (cursor_after 0 c) with (cursorId c). change (Z.of_nat 0) with 0.
    by rewrite Z.add_0_r.
  - rewrite cursor_after_wrap. generalize (cursorId c + Z.of_nat (S k)).
    intros z. int_lia.
Qed.

Lemma cursor_after_inj (i j : nat) (c : Connection) :
  Z.of_nat i < 2 ^ 32 → Z.of_nat j < 2 ^ 32 →
  cursor_after i c = cursor_after j c → i = j.
Proof.
  intros Hi Hj E.
  assert (E' : to_int (cursorId c + Z.of_nat i) = to_int (cursorId c + Z.of_nat j))
    by (by rewrite <- !cursor_after_mod, E).
  apply to_int_inj in E'; lia.
Qed.

Lemma mapnik_prefix_inj (x y : string) :
  "mapnik_" +:+ x = "mapnik_" +:+ y → x = y.
Proof. cbn. intros E. by simplify_eq. Qed.

(** C9, as amended.  For every [n] up to [2^32], [n] consecutive calls of
    [new_cursor_name()] on one connection return [n] pairwise distinct
    strings; the [k]-th of them is ["mapnik_"] followed by the decimal
    text of the counter at that moment, and each call increments the
    counter as a 32-bit [int] does. *)
Theorem new_cursor_name_distinct (n : nat) (c : Connection) :
  Z.of_nat n ≤ 2 ^ 32 →
  let names := (cursor_names n c).1 in
  NoDup names ∧
  length names = n ∧
  ∀ k : nat, (k < n)%nat →
    names !! k = Some ("mapnik_" +:+ pretty (cursor_after k c)) ∧
    cursor_after (S k) c = to_int (cursor_after k c + 1).
Proof.
  intros Hn names. subst names. split; [|split].
  - apply NoDup_alt. intros i j s Hi Hj.
    pose proof (lookup_lt_Some _ _ _ Hi) as Li.
    pose proof (lookup_lt_Some _ _ _ Hj) as Lj.
    rewrite cursor_names_length in Li, Lj.
    rewrite cursor_names_lookup in Hi by done.
    rewrite cursor_names_lookup in Hj by done.
    assert (E : "mapnik_" +:+ pretty (cursor_after i c)
                = "mapnik_" +:+ pretty (cursor_after j c)) by congruence.
    apply mapnik_prefix_inj, (inj pretty) in E.
    apply (cursor_after_inj i j c); [lia | lia | done].
  - apply cursor_names_length.
  - intros k Hk. split; [by apply cursor_names_lookup | apply cursor_after_step].
Qed.

Lemma new_cursor_name_distinct_witness :
  (cursor_names 3 fresh).1 = ["mapnik_0"; "mapnik_1"; "mapnik_2"] ∧
  NoDup (cursor_names 3 fresh).1.
Proof.
  split; [reflexivity|].
  apply (new_cursor_name_distinct 3 fresh). vm_compute. discriminate.
Defined.

(** Once the counter has gone round, names come back. *)
Lemma cursor_names_wrap (n : nat) (c : Connection) :
  int_min ≤ cursorId c ≤ int_max →
  2 ^ 32 < Z.of_nat n →
  ¬ NoDup (cursor_names n c).1.
Proof.
  intros Hc Hn Hnd.
  assert (Hk : ∃ k, (S k < n)%nat ∧ Z.of_nat (S k) = 2 ^ 32).
  { exists (Z.to_nat (2 ^ 32 - 1)). split; [| rewrite Nat2Z.inj_succ]; int_lia. }
  destruct Hk as (k & Hk & Ek).
  assert (E : cursor_after (S k) c = cursor_after 0 c).
  { rewrite cursor_after_wrap, Ek. change (cursor_after 0 c) with (cursorId c).
    clear - Hc. int_lia. }
  pose proof (proj1 (NoDup_alt _) Hnd (S k) O
                ("mapnik_" +:+ pretty (cursorId c))) as H.
  rewrite !cursor_names_lookup in H by lia.
  rewrite E in H. specialize (H eq_refl eq_refl). discriminate.
Qed.

(** The claim C9 as written fails: [2^32 + 1] consecutive calls on a
    freshly built connection do not return pairwise distinct names. *)
Lemma new_cursor_name_repeats :
  ¬ NoDup (cursor_names (Z.to_nat (2 ^ 32 + 1)) fresh).1.
Proof.
  apply cursor_names_wrap.
  - vm_compute. split; discriminate.
  - change (2 ^ 32) with 4294967296. lia.
Qed.

(** ** The log and the result queue *)

(** Unfold the record updates of the foreign world, and nothing else. *)
Ltac world_simpl :=
  cbn [PQclear PQfinish log logs set_send_tape set_consume_tape set_busy_tape
       set_result_tape set_select_tape set_time_tape set_now set_errno
       connectdb_handle conn_status error_message socket encoding send_tape
       consume_tape busy_tape result_tape select_tape time_tape now errno
       calls] in *.

(** Two worlds built from the same one by record updates are equal when
    their logs are, up to the bracketing of [++]. *)
Ltac world_eq :=
  unfold PQclear, PQfinish, log, logs, set_send_tape, set_consume_tape,
    set_busy_tape, set_result_tape, set_select_tape, set_time_tape, set_now,
    set_errno;
  world_simpl; rewrite <- ?app_assoc; cbn [app]; reflexivity.

Lemma log_logs (e : call) (w : libpq) : log e w = logs [e] w.
Proof. done. Qed.

Lemma logs_logs (l1 l2 : list call) (w : libpq) :
  logs l2 (logs l1 w) = logs (l1 ++ l2) w.
Proof. unfold logs. cbn. by rewrite app_assoc. Qed.

Lemma calls_logs (l : list call) (w : libpq) : calls (logs l w) = calls w ++ l.
Proof. done. Qed.

Lemma calls_since_logs (l : list call) (w w0 : libpq) :
  calls w0 = calls w → calls_since w (logs l w0) = l.
Proof.
  intros E. unfold calls_since. rewrite calls_logs, E.
  by rewrite drop_app_length.
Qed.

Lemma obtained_app (l1 l2 : list call) :
  obtained (l1 ++ l2) = obtained l1 ++ obtained l2.
Proof. apply omap_app. Qed.

Lemma released_app (l1 l2 : list call) :
  released (l1 ++ l2) = released l1 ++ released l2.
Proof. apply omap_app. Qed.

Lemma drain_calls_cons (r : PGresult) (rs : list PGresult) :
  drain_calls (r :: rs) = PQgetResult_ (Some r) :: PQclear_ r :: drain_calls rs.
Proof. done. Qed.

Lemma obtained_drain_calls (rs : list PGresult) : obtained (drain_calls rs) = rs.
Proof.
  induction rs as [|r rs IH]; [done|].
  change (obtained (drain_calls (r :: rs))) with (r :: obtained (drain_calls rs)).
  by rewrite IH.
Qed.

Lemma released_drain_calls (rs : list PGresult) : released (drain_calls rs) = rs.
Proof.
  induction rs as [|r rs IH]; [done|].
  change (released (drain_calls (r :: rs))) with (r :: released (drain_calls rs)).
  by rewrite IH.
Qed.

(** The three shapes of the result tape under a live handle. *)
Lemma PQgetResult_empty (u : unit) (w : libpq) :
  result_tape w = [] →
  PQgetResult (Some u) w = (None, logs [PQgetResult_ None] (drained (Some u) w)).
Proof. intros E. unfold PQgetResult, drained. by rewrite E. Qed.

Lemma PQgetResult_null (u : unit) (t : list (option PGresult)) (w : libpq) :
  result_tape w = None :: t →
  PQgetResult (Some u) w = (None, logs [PQgetResult_ None] (drained (Some u) w)).
Proof. intros E. unfold PQgetResult, drained. by rewrite E. Qed.

Lemma PQgetResult_some (u : unit) (r : PGresult) (t : list (option PGresult))
    (w : libpq) :
  result_tape w = Some r :: t →
  PQgetResult (Some u) w =
    (Some r, logs [PQgetResult_ (Some r)] (set_result_tape t w)).
Proof. intros E. unfold PQgetResult. by rewrite E. Qed.

(** What the first [PQgetResult] of a drain returns is the head of the
    queue. *)
Lemma PQgetResult_head (conn : PGconn_ptr) (w : libpq) :
  (PQgetResult conn w).1 = head (queue conn w).
Proof.
  destruct conn as [u|]; [|done].
  unfold PQgetResult, queue. by destruct (result_tape w) as [|[r|] t].
Qed.

Lemma last_status_cons (s : ExecStatusType) (ok : bool) (r : PGresult)
    (rs : list PGresult) :
  last_status s ok (r :: rs) =
  last_status s (bool_decide (PQresultStatus r = s)) rs.
Proof.
  unfold last_status. destruct rs as [|p rs]; [done|].
  change (last (r :: p :: rs)) with (last (p :: rs)).
  destruct (last (p :: rs)) eqn:E; [done | by apply last_None in E].
Qed.

Lemma execute_loop_fuel (fuel : nat) (conn : PGconn_ptr) (ok : bool) (w : libpq) :
  (length (queue conn w) < fuel)%nat →
  execute_loop fuel conn ok w =
    Some (last_status PGRES_COMMAND_OK ok (queue conn w),
          logs (drain_calls (queue conn w)) (drained conn w)).
Proof.
  revert ok w. induction fuel as [|fuel IH]; intros ok w Hf; [lia|].
  cbn [execute_loop]. destruct conn as [u|]; [|done].
  destruct (result_tape w) as [|[r|] t] eqn:E.
  - rewrite (PQgetResult_empty u w E). unfold queue. by rewrite E.
  - rewrite (PQgetResult_some u r t w E).
    unfold queue in Hf. rewrite E in Hf. cbn in Hf.
    rewrite IH by (cbn; lia).
    unfold queue, drained. rewrite E. cbn [queued after_null].
    rewrite last_status_cons, drain_calls_cons.
    do 2 f_equal. world_eq.
  - rewrite (PQgetResult_null u t w E). unfold queue. by rewrite E.
Qed.

Lemma queue_length (conn : PGconn_ptr) (w : libpq) :
  (length (queue conn w) ≤ length (result_tape w))%nat.
Proof.
  destruct conn; [|cbn; lia]. cbn.
  induction (result_tape w) as [|[r|] t IH]; cbn; lia.
Qed.

(** ** [execute] *)

(** Scenario C of the spec: a command that succeeds, and one the server
    answers with an error result. *)
Example execute_command_ok :
  (execute "CREATE TABLE t ()" fresh
     (set_result_tape [Some (command 1)] (set_send_tape [1] quiet))).1 = true.
Proof. reflexivity. Qed.

Example execute_bogus_sql :
  (execute "bogus sql" fresh
     (set_result_tape [Some (fatal 1)] (set_send_tape [1] quiet))).1 = false.
Proof. reflexivity. Qed.

Lemma last_status_true (s : ExecStatusType) (rs : list PGresult) :
  last_status s false rs = true ↔ ∃ r, last rs = Some r ∧ PQresultStatus r = s.
Proof.
  unfold last_status. destruct (last rs) as [r|].
  - rewrite bool_decide_eq_true. split; [by exists r | by intros (? & [= <-] & ?)].
  - split; [done | by intros (? & ? & ?)].
Qed.

(** C6.  [execute(sql)] returns false, having fetched nothing, when
    [PQsendQuery] refuses the command; it cannot throw (its result type
    has no exception).  Otherwise it fetches every result object of the
    queue, releases each one right after fetching it, stops at the first
    NULL, and returns true exactly when the last result object fetched
    reports [PGRES_COMMAND_OK]. *)
Theorem execute_drains (sql : string) (c : Connection) (w : libpq) :
  let sent := (PQsendQuery (conn_ c) sql w).1 in
  let w0 := (PQsendQuery (conn_ c) sql w).2 in
  let rs := queue (conn_ c) w0 in
  execute sql c w =
    (if sent =? 0 then (false, w0)
     else (last_status PGRES_COMMAND_OK false rs,
           logs (drain_calls rs) (drained (conn_ c) w0))) ∧
  obtained (drain_calls rs) = rs ∧
  released (drain_calls rs) = rs ∧
  (last_status PGRES_COMMAND_OK false rs = true ↔
   ∃ r, last rs = Some r ∧ PQresultStatus r = PGRES_COMMAND_OK).
Proof.
  intros sent w0 rs. subst sent w0 rs. split; [|split; [|split]].
  - unfold execute. destruct (PQsendQuery (conn_ c) sql w) as [sent w0].
    cbn [fst snd]. destruct (sent =? 0); [done|].
    rewrite execute_loop_fuel; [done|].
    pose proof (queue_length (conn_ c) w0). lia.
  - apply obtained_drain_calls.
  - apply released_drain_calls.
  - apply last_status_true.
Qed.

(** ** The asynchronous protocol *)

Lemma clear_loop_fuel (fuel : nat) (conn : PGconn_ptr) (r : PGresult)
    (w : libpq) :
  (S (length (queue conn w)) < fuel)%nat →
  clear_loop fuel conn (Some r) w =
    Some (logs (PQclear_ r :: drain_calls (queue conn w)) (drained conn w)).
Proof.
  revert r w. induction fuel as [|fuel IH]; intros r w Hf; [lia|].
  cbn [clear_loop]. destruct conn as [u|].
  - destruct (result_tape w) as [|[r'|] t] eqn:E.
    + change (result_tape w) with (result_tape (PQclear r w)) in E.
      rewrite (PQgetResult_empty u _ E). destruct fuel; [cbn in Hf; lia|].
      cbn [clear_loop]. unfold queue, drained. world_simpl. rewrite E.
      cbn [queued after_null]. change (drain_calls []) with [PQgetResult_ None].
      f_equal. world_eq.
    + change (result_tape w) with (result_tape (PQclear r w)) in E.
      rewrite (PQgetResult_some u r' t _ E).
      unfold queue in Hf. world_simpl. rewrite E in Hf. cbn in Hf.
      rewrite IH by (cbn; lia).
      unfold queue, drained. world_simpl. rewrite E. cbn [queued after_null].
      rewrite drain_calls_cons. f_equal. world_eq.
    + change (result_tape w) with (result_tape (PQclear r w)) in E.
      rewrite (PQgetResult_null u t _ E). destruct fuel; [cbn in Hf; lia|].
      cbn [clear_loop]. unfold queue, drained. world_simpl. rewrite E.
      cbn [queued after_null]. change (drain_calls []) with [PQgetResult_ None].
      f_equal. world_eq.
  - cbn [PQgetResult]. destruct fuel; [cbn in Hf; lia|].
    cbn [clear_loop queue drained]. change (drain_calls []) with [PQgetResult_ None].
    f_equal. world_eq.
Qed.

(** [clearAsyncResult(result)]: a null argument only clears [pending_];
    otherwise the argument is released and the queue drained. *)
Lemma clearAsyncResult_eq (result : option PGresult) (c : Connection) (w : libpq) :
  clearAsyncResult result c w =
    (set_pending false c,
     match result with
     | None => w
     | Some r => logs (PQclear_ r :: drain_calls (queue (conn_ c) w))
                      (drained (conn_ c) w)
     end).
Proof.
  unfold clearAsyncResult. destruct result as [r|]; [|done].
  rewrite clear_loop_fuel; [done|].
  pose proof (queue_length (conn_ c) w). lia.
Qed.

(** Fetching the head of the queue and then clearing from it is one drain
    of the whole queue. *)
Lemma fetch_and_clear (c : Connection) (w : libpq) :
  clearAsyncResult (PQgetResult (conn_ c) w).1 c (PQgetResult (conn_ c) w).2 =
    (set_pending false c,
     logs (drain_calls (queue (conn_ c) w)) (drained (conn_ c) w)).
Proof.
  rewrite clearAsyncResult_eq. f_equal.
  destruct (conn_ c) as [u|]; [|done].
  destruct (result_tape w) as [|[r|] t] eqn:E.
  - rewrite (PQgetResult_empty u w E). unfold queue. by rewrite E.
  - rewrite (PQgetResult_some u r t w E). cbn [fst snd].
    unfold queue, drained. world_simpl. rewrite E. cbn [queued after_null].
    rewrite drain_calls_cons. world_eq.
  - rewrite (PQgetResult_null u t w E). unfold queue. by rewrite E.
Qed.

Lemma cleanup_eq (c : Connection) (w : libpq) :
  cleanup c w =
    (set_closed true (set_pending false c),
     logs (drain_calls (queue (conn_ c) w) ++ (if closed_ c then [] else [PQfinish_]))
          (drained (conn_ c) w)).
Proof.
  unfold cleanup, close. cbn [closed_ set_pending].
  destruct (closed_ c) eqn:E; cbn [negb].
  - rewrite app_nil_r. f_equal. destruct c; cbn in *. by subst.
  - f_equal. world_eq.
Qed.

Lemma cleanup_failed_clean {A : Type} (c : Connection) (w : libpq)
    (e : datasource_exception) :
  failed_clean (A := A) c w (Throw e) (cleanup c w).1 (cleanup c w).2.
Proof.
  rewrite cleanup_eq. cbn [fst snd]. unfold failed_clean.
  rewrite calls_since_logs, obtained_app, released_app by (by destruct (conn_ c)).
  rewrite obtained_drain_calls, released_drain_calls.
  repeat split.
  - by exists e.
  - rewrite calls_logs. by destruct (conn_ c).
  - destruct (closed_ c); cbn; by rewrite app_nil_r.
  - destruct (closed_ c); cbn; by rewrite app_nil_r.
Qed.

Lemma executeAsyncQuery_eq (sql : string) (type : Z) (c : Connection) (w : libpq) :
  executeAsyncQuery sql type c w =
    let w0 := (submit sql type c w).2 in
    if (submit sql type c w).1 =? 1 then (Return true, set_pending true c, w0)
    else
      (Throw {| what := "Postgis Plugin: " +:+ status c w0 +:+
                        (nl +:+ "in executeAsyncQuery Full sql was: '") +:+
                        sql +:+ ("'" +:+ nl) |},
       (cleanup c w0).1, (cleanup c w0).2).
Proof.
  unfold executeAsyncQuery. fold (submit sql type c w).
  destruct (submit sql type c w) as [result w0]. cbn [fst snd].
  destruct (result =? 1) eqn:E; cbn [negb].
  - apply Z.eqb_eq in E. by subst.
  - pose proof (fetch_and_clear c w0) as H.
    destruct (PQgetResult (conn_ c) w0) as [queued' w1]. cbn [fst snd] in H.
    rewrite H. fold (cleanup c w0). destruct (cleanup c w0) as [c' w'].
    cbn [fst snd]. by rewrite ?append_assoc.
Qed.

Lemma getNextAsyncResult_eq (c : Connection) (w : libpq) :
  getNextAsyncResult c w =
    let w1 := (PQgetResult (conn_ c) w).2 in
    match head (queue (conn_ c) w) with
    | Some r =>
        if bool_decide (PQresultStatus r = PGRES_TUPLES_OK)
        then (Return {| res_ := Some r |}, c, w1)
        else (Throw {| what := "Postgis Plugin: " +:+ status c w1 +:+
                               (nl +:+ "in getNextAsyncResult") |},
              (cleanup c w).1, (cleanup c w).2)
    | None => (Return {| res_ := None |}, c, w1)
    end.
Proof.
  unfold getNextAsyncResult. rewrite <- PQgetResult_head.
  pose proof (fetch_and_clear c w) as H.
  destruct (PQgetResult (conn_ c) w) as [[r|] w1]; cbn [fst snd] in *; [|done].
  destruct (decide (PQresultStatus r = PGRES_TUPLES_OK)) as [E|E].
  - rewrite (bool_decide_eq_false_2 _) by (by intros ?).
    by rewrite (bool_decide_eq_true_2 _ E).
  - rewrite (bool_decide_eq_true_2 _ E), (bool_decide_eq_false_2 _ E).
    rewrite H. fold (cleanup c w). destruct (cleanup c w) as [c' w'].
    cbn [fst snd]. by rewrite ?append_assoc.
Qed.

Lemma getAsyncResult_eq (c : Connection) (w : libpq) :
  getAsyncResult c w =
    let w1 := (PQgetResult (conn_ c) w).2 in
    let failure :=
      (Throw {| what := "Postgis Plugin: " +:+ status c w1 +:+
                        (nl +:+ "in getAsyncResult") |},
       (cleanup c w).1, (cleanup c w).2) in
    match head (queue (conn_ c) w) with
    | Some r =>
        if bool_decide (PQresultStatus r = PGRES_TUPLES_OK)
        then (Return {| res_ := Some r |}, c, w1)
        else failure
    | None => failure
    end.
Proof.
  unfold getAsyncResult. rewrite <- PQgetResult_head.
  pose proof (fetch_and_clear c w) as H.
  destruct (PQgetResult (conn_ c) w) as [[r|] w1]; cbn [fst snd] in *.
  - destruct (decide (PQresultStatus r = PGRES_TUPLES_OK)) as [E|E].
    + rewrite (bool_decide_eq_false_2 _) by (by intros ?).
      by rewrite (bool_decide_eq_true_2 _ E).
    + rewrite (bool_decide_eq_true_2 _ E), (bool_decide_eq_false_2 _ E).
      rewrite H. fold (cleanup c w). destruct (cleanup c w) as [c' w'].
      cbn [fst snd]. by rewrite ?append_assoc.
  - rewrite H. fold (cleanup c w). destruct (cleanup c w) as [c' w'].
    cbn [fst snd]. by rewrite ?append_assoc.
Qed.

(** An error result in the middle of the stream: it and what is queued
    behind it are released, then the connection is closed. *)
Example getNextAsyncResult_error_result :
  let w := set_result_tape [Some (fatal 1); Some (rows 2)] quiet in
  let '(r, c', w') := getNextAsyncResult (set_pending true fresh) w in
  calls w' = [PQgetResult_ (Some (fatal 1)); PQclear_ (fatal 1);
              PQgetResult_ (Some (rows 2)); PQclear_ (rows 2);
              PQgetResult_ None; PQfinish_] ∧
  isPending c' = false ∧ closed_ c' = true.
Proof. vm_compute. by repeat split. Qed.

(** C5.  On every failure path of the asynchronous protocol, that is when
    [executeAsyncQuery]'s submission does not answer 1, when
    [getNextAsyncResult] fetches a result object whose status is not
    [PGRES_TUPLES_OK], and when [getAsyncResult] fetches such a one or none
    at all, the call throws only after this: every result object fetched
    during the call has been released, the queue has been drained up to
    its NULL, [pending_] is false and the connection is closed (with
    [PQfinish] called unless it was closed already).  On the other paths
    the call returns. *)
Theorem async_failure_cleanup (sql : string) (type : Z) (c : Connection)
    (w : libpq) :
  (let w0 := (submit sql type c w).2 in
   let '(r, c', w') := executeAsyncQuery sql type c w in
   if (submit sql type c w).1 =? 1 then r = Return true
   else failed_clean c w0 r c' w') ∧
  (let '(r, c', w') := getNextAsyncResult c w in
   match (PQgetResult (conn_ c) w).1 with
   | Some res =>
       if bool_decide (PQresultStatus res = PGRES_TUPLES_OK)
       then r = Return {| res_ := Some res |}
       else failed_clean c w r c' w'
   | None => r = Return {| res_ := None |}
   end) ∧
  (let '(r, c', w') := getAsyncResult c w in
   match (PQgetResult (conn_ c) w).1 with
   | Some res =>
       if bool_decide (PQresultStatus res = PGRES_TUPLES_OK)
       then r = Return {| res_ := Some res |}
       else failed_clean c w r c' w'
   | None => failed_clean c w r c' w'
   end).
Proof.
  split; [|split].
  - rewrite executeAsyncQuery_eq. cbv zeta.
    destruct (_ =? 1); [done|]. apply cleanup_failed_clean.
  - rewrite getNextAsyncResult_eq, PQgetResult_head. cbv zeta.
    destruct (head _) as [res|]; [|done].
    destruct (bool_decide _); [done|]. apply cleanup_failed_clean.
  - rewrite getAsyncResult_eq, PQgetResult_head. cbv zeta.
    destruct (head _) as [res|]; [|apply cleanup_failed_clean].
    destruct (bool_decide _); [done|]. apply cleanup_failed_clean.
Qed.

(** C2, as amended.  After [executeAsyncQuery] returns, [isPending()] is
    true; after any of the three asynchronous calls throws, [isPending()]
    is false; a [getNextAsyncResult()] or [getAsyncResult()] that returns
    leaves [isPending()] as it was. *)
Theorem pending_after_async (sql : string) (type : Z) (c : Connection)
    (w : libpq) :
  (let '(r, c', _) := executeAsyncQuery sql type c w in
   isPending c' = match r with Return _ => true | Throw _ => false end) ∧
  (let '(r, c', _) := getNextAsyncResult c w in
   isPending c' = match r with Return _ => isPending c | Throw _ => false end) ∧
  (let '(r, c', _) := getAsyncResult c w in
   isPending c' = match r with Return _ => isPending c | Throw _ => false end).
Proof.
  split; [|split].
  - rewrite executeAsyncQuery_eq. cbv zeta.
    destruct (_ =? 1); [done|]. by rewrite cleanup_eq.
  - rewrite getNextAsyncResult_eq. cbv zeta.
    destruct (head _) as [res|]; [|done].
    destruct (bool_decide _); [done|]. by rewrite cleanup_eq.
  - rewrite getAsyncResult_eq. cbv zeta.
    destruct (head _) as [res|]; [|by rewrite cleanup_eq].
    destruct (bool_decide _); [done|]. by rewrite cleanup_eq.
Qed.

(** The claim C2 as written fails: a query is submitted, its one result
    object is fetched by [getAsyncResult()], which returns it, and
    [isPending()] is still true. *)
Lemma pending_survives_getAsyncResult :
  let w := set_result_tape [Some (rows 1)] (set_send_tape [1] quiet) in
  let '(r1, c1, w1) := executeAsyncQuery "SELECT 1" 0 fresh w in
  let '(r2, c2, w2) := getAsyncResult c1 w1 in
  r1 = Return true ∧
  r2 = Return {| res_ := Some (rows 1) |} ∧
  isPending c2 = true ∧
  isPending c2 ≠ false.
Proof. vm_compute. by repeat split. Qed.

(** C10.  When [PQgetResult] has no result object to hand out,
    [getNextAsyncResult()] returns a [ResultSet] built from the null
    pointer and leaves the object, [pending_] included, as it was, while
    [getAsyncResult()] throws after its cleanup: [pending_] cleared, the
    connection closed, nothing but the NULL fetched. *)
Theorem exhausted_queue (c : Connection) (w : libpq) :
  (PQgetResult (conn_ c) w).1 = None →
  let w1 := (PQgetResult (conn_ c) w).2 in
  getNextAsyncResult c w = (Return {| res_ := None |}, c, w1) ∧
  isPending (getNextAsyncResult c w).1.2 = isPending c ∧
  (let '(r, c', w') := getAsyncResult c w in
   r = Throw {| what := "Postgis Plugin: " +:+ status c w1 +:+
                        (nl +:+ "in getAsyncResult") |} ∧
   failed_clean c w r c' w' ∧
   calls w' = calls w ++ [PQgetResult_ None]
                      ++ (if closed_ c then [] else [PQfinish_])).
Proof.
  intros H w1. subst w1. rewrite getNextAsyncResult_eq, getAsyncResult_eq.
  rewrite PQgetResult_head in H. cbv zeta. rewrite H. cbn [fst snd].
  split; [done|]. split; [done|]. split; [done|].
  split; [apply cleanup_failed_clean|].
  rewrite cleanup_eq. cbn [snd]. rewrite calls_logs.
  assert (Q : queue (conn_ c) w = []) by (by destruct (queue (conn_ c) w)).
  rewrite Q. by destruct (conn_ c).
Qed.

Lemma exhausted_queue_witness :
  getNextAsyncResult (set_pending true fresh) quiet =
    (Return {| res_ := None |}, set_pending true fresh,
     (PQgetResult (conn_ (set_pending true fresh)) quiet).2) ∧
  isPending (getAsyncResult (set_pending true fresh) quiet).1.2 = false.
Proof.
  split; [|reflexivity].
  exact (proj1 (exhausted_queue (set_pending true fresh) quiet eq_refl)).
Defined.

(** ** Construction *)

Lemma connect_error_contains (connection_str : string) (w : libpq) :
  contains (connect_error connection_str w) "Connection string:" = true ∧
  contains (connect_error connection_str w) connection_str = true.
Proof.
  unfold connect_error. split.
  - replace ("Postgis Plugin: " +:+ diagnostic w +:+ nl +:+
             "Connection string: '" +:+ connection_str +:+ "'" +:+ nl)
      with (("Postgis Plugin: " +:+ diagnostic w +:+ nl) +:+
            "Connection string:" +:+ (" '" +:+ connection_str +:+ "'" +:+ nl))
      by (by rewrite !append_assoc).
    apply contains_app.
  - replace ("Postgis Plugin: " +:+ diagnostic w +:+ nl +:+
             "Connection string: '" +:+ connection_str +:+ "'" +:+ nl)
      with (("Postgis Plugin: " +:+ diagnostic w +:+ nl +:+
             "Connection string: '") +:+ connection_str +:+ ("'" +:+ nl))
      by (by rewrite !append_assoc).
    apply contains_app.
Qed.

(** C4, as amended.  Construction gives [PQconnectdb] the connection
    string, with [" password="] and the credential appended only when a
    non-empty credential is supplied.  When the status of the handle is not
    [CONNECTION_OK], construction fails with an exception whose text is
    ["Postgis Plugin: "], then what [status()] yields, then
    ["\nConnection string: '"], the connection string as given and
    ["'\n"]; what [status()] yields is the server's error text only when
    the handle is not null and does not report [CONNECTION_BAD], and is the
    literal ["Bad connection"] (["Uninitialized connection"] for a null
    handle) otherwise.  In connection.hpp the handle is given to
    [PQfinish] before the exception is thrown.  (For the variant in
    part_000 only the call of [PQconnectdb] and the exception are stated.) *)
Theorem construction (connection_str : string) (password : option string)
    (w : libpq) :
  let conn : PGconn_ptr := if connectdb_handle w then Some tt else None in
  let ok := bool_decide (PQstatus conn w = CONNECTION_OK) in
  let failure : datasource_exception :=
    {| what := connect_error connection_str w |} in
  Connection_ctor connection_str password w =
    (if ok then
       (Return {| conn_ := conn; cursorId := 0; closed_ := false;
                  pending_ := false; statement_timeout_ := 4000 |},
        logs [PQconnectdb_ (conninfo connection_str password)] w)
     else
       (Throw failure,
        logs [PQconnectdb_ (conninfo connection_str password); PQfinish_] w)) ∧
  (Part000.Connection_ctor connection_str password w).1 =
    (if ok then
       Return {| Part000.conn_ := conn; Part000.cursorId := 0;
                 Part000.closed_ := false;
                 Part000.statement_timeout_ := 4000 |}
     else Throw failure) ∧
  calls_since w (Part000.Connection_ctor connection_str password w).2 !! O =
    Some (PQconnectdb_ (conninfo connection_str password)) ∧
  contains (what failure) "Connection string:" = true ∧
  contains (what failure) connection_str = true.
Proof.
  intros conn ok failure. subst conn ok failure.
  assert (Hinfo :
    match password with
    | Some p => if negb (is_empty p) then connection_str +:+ (" password=" +:+ p)
                else connection_str
    | None => connection_str
    end = conninfo connection_str password).
  { unfold conninfo. destruct password as [p|]; [|done]. by destruct (is_empty p). }
  split; [|split; [|split; [|apply connect_error_contains]]].
  - unfold Connection_ctor. rewrite Hinfo. unfold PQconnectdb, connect_error, diagnostic.
    destruct (connectdb_handle w) eqn:Hh; cbn [PQstatus conn_]; world_simpl.
    + destruct (decide (conn_status w = CONNECTION_OK)) as [E|E].
      * rewrite (bool_decide_eq_true_2 _ E), (bool_decide_eq_false_2 _) by tauto.
        done.
      * rewrite (bool_decide_eq_false_2 _ E), (bool_decide_eq_true_2 _ E).
        unfold status, isOK, close. cbn [conn_ closed_ negb andb PQstatus].
        world_simpl.
        destruct (decide (conn_status w = CONNECTION_BAD)) as [B|B].
        -- rewrite (bool_decide_eq_true_2 _ B), (bool_decide_eq_false_2 _) by tauto.
           f_equal; first [world_eq | by rewrite ?append_assoc].
        -- rewrite (bool_decide_eq_false_2 _ B), (bool_decide_eq_true_2 _ B).
           unfold PQerrorMessage. f_equal; first [world_eq | by rewrite ?append_assoc].
    + rewrite (bool_decide_eq_true_2 (CONNECTION_BAD ≠ CONNECTION_OK)) by done.
      rewrite (bool_decide_eq_false_2 (CONNECTION_BAD = CONNECTION_OK)) by done.
      unfold status, close. cbn [conn_ closed_ negb].
      f_equal; first [world_eq | by rewrite ?append_assoc].
  - unfold Part000.Connection_ctor. rewrite Hinfo.
    unfold PQconnectdb, connect_error, diagnostic.
    destruct (connectdb_handle w) eqn:Hh; cbn [PQstatus Part000.conn_]; world_simpl.
    + destruct (decide (conn_status w = CONNECTION_OK)) as [E|E].
      * rewrite (bool_decide_eq_true_2 _ E), (bool_decide_eq_false_2 _) by tauto.
        done.
      * rewrite (bool_decide_eq_false_2 _ E), (bool_decide_eq_true_2 _ E).
        unfold Part000.status, Part000.isOK.
        cbn [Part000.conn_ Part000.closed_ negb andb PQstatus fst]. world_simpl.
        destruct (decide (conn_status w = CONNECTION_BAD)) as [B|B].
        -- rewrite (bool_decide_eq_true_2 _ B), (bool_decide_eq_false_2 _) by tauto.
           by rewrite ?append_assoc.
        -- rewrite (bool_decide_eq_false_2 _ B), (bool_decide_eq_true_2 _ B).
           unfold PQerrorMessage. by rewrite ?append_assoc.
    + rewrite (bool_decide_eq_true_2 (CONNECTION_BAD ≠ CONNECTION_OK)) by done.
      rewrite (bool_decide_eq_false_2 (CONNECTION_BAD = CONNECTION_OK)) by done.
      unfold Part000.status. cbn [Part000.conn_ fst]. by rewrite ?append_assoc.
  - unfold Part000.Connection_ctor. rewrite Hinfo. unfold PQconnectdb.
    destruct (bool_decide _); cbn [snd]; rewrite log_logs, calls_since_logs; done.
Qed.

(** The claim C4 as written fails.  A refused connection reports
    [CONNECTION_BAD], so the exception text says "Bad connection" and does
    not contain the server's diagnostic text; and the constructor of the
    variant in part_000 throws without having released the handle. *)
Lemma construction_failure_text :
  let '(r, w') := Connection_ctor "host=db dbname=gis" None refusing in
  r = Throw {| what := "Postgis Plugin: Bad connection" +:+ nl +:+
                       "Connection string: 'host=db dbname=gis'" +:+ nl |} ∧
  (∀ e, r = Throw e → contains (what e) (error_message refusing) = false) ∧
  calls w' = [PQconnectdb_ "host=db dbname=gis"; PQfinish_] ∧
  calls (Part000.Connection_ctor "host=db dbname=gis" None refusing).2
    = [PQconnectdb_ "host=db dbname=gis"].
Proof.
  vm_compute. repeat split. by intros e [= <-].
Qed.

(** ** [executeQuery]: the polling loop *)

Lemma polls_refl (w : libpq) : polls w w [].
Proof. unfold polls. by rewrite app_nil_r. Qed.

Lemma polls_trans (w1 w2 w3 : libpq) (l1 l2 : list call) :
  polls w1 w2 l1 → polls w2 w3 l2 → polls w1 w3 (l1 ++ l2).
Proof.
  intros (Hl1 & Hs1 & Hm1 & Hr1 & Hn1) (Hl2 & Hs2 & Hm2 & Hr2 & Hn2).
  unfold polls. rewrite Hl2, Hl1, Hs2, Hm2, Hr2, app_assoc.
  repeat split; try done. lia.
Qed.

Lemma PQconsumeInput_polls (conn : PGconn_ptr) (w : libpq) :
  polls w (PQconsumeInput conn w).2 [PQconsumeInput_ (PQconsumeInput conn w).1].
Proof.
  unfold polls, PQconsumeInput.
  destruct conn; [|done]. destruct (consume_tape w); cbn; repeat split; lia.
Qed.

Lemma PQconsumeInput_fuel (conn : PGconn_ptr) (w : libpq) :
  (PQconsumeInput conn w).1 ≠ 0 →
  (length (consume_tape (PQconsumeInput conn w).2) < length (consume_tape w))%nat.
Proof.
  unfold PQconsumeInput.
  destruct conn; [|done]. destruct (consume_tape w); cbn; [done | lia].
Qed.

Lemma PQisBusy_polls (conn : PGconn_ptr) (w : libpq) :
  polls w (PQisBusy conn w).2 [].
Proof.
  unfold polls, PQisBusy.
  destruct conn; [|by rewrite app_nil_r].
  destruct (busy_tape w); cbn; by rewrite app_nil_r.
Qed.

Lemma wall_clock_elapsed_polls (t : timer) (w : libpq) :
  polls w (wall_clock_elapsed t w).2 [].
Proof.
  unfold polls, wall_clock_elapsed.
  destruct (time_tape w); cbn; by rewrite app_nil_r.
Qed.

Lemma select_polls (nfds tv_usec : Z) (w : libpq) :
  ∃ waited,
    polls w (select nfds tv_usec w).2
      [select_ (now w) tv_usec (select nfds tv_usec w).1 waited].
Proof.
  unfold polls, select.
  destruct (select_tape w) as [|ev t]; cbn [pop].
  - destruct (tv_usec <? 0); eexists; cbn; repeat split; done.
  - destruct (tv_usec <? 0); [eexists; cbn; repeat split; done|].
    destruct ev as [d| |d e]; try destruct (Z.of_N d <=? tv_usec);
      eexists; cbn; repeat split; done.
Qed.

Lemma close_polls (c : Connection) (w : libpq) :
  polls w (close c w).2 (if closed_ c then [] else [PQfinish_]).
Proof.
  unfold close. destruct (closed_ c); cbn [negb snd].
  - apply polls_refl.
  - unfold polls. cbn. repeat split; done.
Qed.
Lemma quiet_waits_app (l1 l2 : list call) :
  quiet_waits (l1 ++ l2) ↔ quiet_waits l1 ∧ quiet_waits l2.
Proof. apply Forall_app. Qed.

Lemma input_lost_app (l1 l2 : list call) :
  input_lost (l1 ++ l2) ↔ input_lost l1 ∨ input_lost l2.
Proof. apply elem_of_app. Qed.

Lemma errno_close (c : Connection) (w : libpq) : errno (close c w).2 = errno w.
Proof. unfold close. by destruct (closed_ c). Qed.

Lemma benign_nil : benign [].
Proof.
  unfold benign, quiet_waits, input_lost. repeat split; try done.
  by intros ?%elem_of_nil.
Qed.

Lemma benign_consume (s : Z) : s ≠ 0 → benign [PQconsumeInput_ s].
Proof.
  intros Hs. unfold benign, quiet_waits, input_lost. repeat split; try done.
  - by repeat constructor.
  - intros E%list_elem_of_singleton. by simplify_eq.
Qed.

Lemma benign_select (a tv ret wt : Z) : 1 ≤ ret → benign [select_ a tv ret wt].
Proof.
  intros Hr. unfold benign, quiet_waits, input_lost. repeat split; try done.
  - by repeat constructor.
  - intros E%list_elem_of_singleton. by simplify_eq.
Qed.

Lemma benign_app (l1 l2 : list call) : benign l1 → benign l2 → benign (l1 ++ l2).
Proof.
  intros (Q1 & O1 & R1 & F1 & I1) (Q2 & O2 & R2 & F2 & I2). unfold benign.
  rewrite quiet_waits_app, obtained_app, released_app, finishes_app,
    input_lost_app, O1, O2, R1, R2, F1, F2.
  repeat split; try done. tauto.
Qed.

(** A polling loop entered after benign calls. *)
Lemma poll_post_app (c : Connection) (sql : string) (exit : poll_exit)
    (c' : Connection) (w' : libpq) (pre l : list call) :
  benign pre → poll_post c sql exit c' w' l →
  poll_post c sql exit c' w' (pre ++ l).
Proof.
  intros (Q1 & O1 & R1 & F1 & I1) (O2 & R2 & H). unfold poll_post.
  rewrite obtained_app, released_app, O1, O2, R1, R2.
  split; [done|]. split; [done|].
  destruct exit as [s|e].
  - destruct H as (-> & Q2 & F2 & I2).
    rewrite quiet_waits_app, finishes_app, input_lost_app, F1, F2.
    repeat split; try done; tauto.
  - destruct H as (l0 & a & tv & ret & wt & -> & Q0 & O0 & R0 & Hr & -> & Hc).
    exists (pre ++ l0), a, tv, ret, wt.
    rewrite (obtained_app pre (l0 ++ _)), (obtained_app pre l0), O0.
    rewrite (released_app pre (l0 ++ _)), (released_app pre l0), R0.
    rewrite quiet_waits_app, <- app_assoc.
    repeat split; done.
Qed.

Lemma poll_spec (fuel : nat) (sql : string) (sock : Z) (t : timer)
    (c : Connection) (w : libpq) (exit : poll_exit) (c' : Connection)
    (w' : libpq) :
  poll fuel sql sock t c w = Some (exit, c', w') →
  ∃ l, polls w w' l ∧ poll_post c sql exit c' w' l.
Proof.
  revert w. induction fuel as [|fuel IH]; intros w H; [done|].
  cbn [poll] in H.
  pose proof (PQconsumeInput_polls (conn_ c) w) as P1.
  destruct (PQconsumeInput (conn_ c) w) as [s w1]. cbn [fst snd] in P1.
  destruct (s =? 0) eqn:Es.
  { apply Z.eqb_eq in Es. subst s. simplify_eq.
    exists [PQconsumeInput_ 0]. split; [done|].
    unfold poll_post, quiet_waits, input_lost. repeat split; try done.
    - by repeat constructor.
    - intros _. by apply list_elem_of_singleton. }
  apply Z.eqb_neq in Es. apply benign_consume in Es.
  pose proof (PQisBusy_polls (conn_ c) w1) as P2.
  destruct (PQisBusy (conn_ c) w1) as [busy w2]. cbn [fst snd] in P2.
  (* the end of an iteration: the loop condition *)
  assert (Tail : ∀ pre w4,
    polls w w4 pre → benign pre →
    (let '(busy, w) := PQisBusy (conn_ c) w4 in
     if busy : bool then poll fuel sql sock t c w
     else Some (poll_done s, c, w)) = Some (exit, c', w') →
    ∃ l, polls w w' l ∧ poll_post c sql exit c' w' l).
  { intros pre w4 Ppre Bpre HT.
    pose proof (PQisBusy_polls (conn_ c) w4) as P6.
    destruct (PQisBusy (conn_ c) w4) as [busy2 w6]. cbn [fst snd] in P6.
    pose proof (polls_trans _ _ _ _ _ Ppre P6) as P. rewrite app_nil_r in P.
    destruct busy2.
    - apply IH in HT as (l & Pl & Hl). exists (pre ++ l).
      split; [by eapply polls_trans | by apply poll_post_app].
    - simplify_eq. exists pre. split; [done|].
      destruct Bpre as (Q & O & R & F & I). unfold poll_post.
      repeat split; try done.
      intros E. destruct Es as (_ & _ & _ & _ & Hs). destruct Hs.
      apply list_elem_of_singleton. by subst. }
  pose proof (polls_trans _ _ _ _ _ P1 P2) as P12.
  destruct busy.
  - pose proof (wall_clock_elapsed_polls t w2) as P3.
    destruct (wall_clock_elapsed t w2) as [elapsed w3]. cbn [fst snd] in P3.
    pose proof (polls_trans _ _ _ _ _ P12 P3) as P13.
    match type of H with context [select _ ?tv w3] =>
      set (tv0 := tv) in H; clearbody tv0 end.
    destruct (select_polls (sock + 1) tv0 w3) as [waited P4].
    destruct (select (sock + 1) tv0 w3) as [ret w4].
    cbn [fst snd] in P4.
    pose proof (polls_trans _ _ _ _ _ P13 P4) as P14. cbn [app] in P14.
    destruct (ret <? 1) eqn:Er.
    + apply Z.ltb_lt in Er.
      pose proof (close_polls c w4) as P5.
      pose proof (closed_after_close c w4) as Hclosed.
      pose proof (errno_close c w4) as E5.
      destruct (close c w4) as [c5 w5]. cbn [fst snd] in *. simplify_eq.
      eexists. split; [by eapply polls_trans|].
      unfold poll_post. cbn [app].
      assert (Hfin : ∀ f : list call → list PGresult,
                (f = obtained ∨ f = released) →
                f (PQconsumeInput_ s :: select_ (now w3) tv0 ret waited
                     :: (if closed_ c then [] else [PQfinish_])) = [])
        by (intros f [-> | ->]; by destruct (closed_ c)).
      split; [apply Hfin; tauto|]. split; [apply Hfin; tauto|].
      exists [PQconsumeInput_ s], (now w3). do 3 eexists.
      rewrite !Hfin by tauto. rewrite E5.
      split; [done|]. destruct Es as (Q & O & R & _).
      repeat split; done.
    + apply Z.ltb_ge in Er.
      eapply (Tail _ w4); [exact P14 | | exact H].
      apply (benign_app [_] [_]); [done | apply benign_select; lia].
  - eapply (Tail _ w2); [exact P12 | | exact H].
    by rewrite app_nil_r.
Qed.

Lemma poll_fuel (fuel : nat) (sql : string) (sock : Z) (t : timer)
    (c : Connection) (w : libpq) :
  (length (consume_tape w) < fuel)%nat →
  is_Some (poll fuel sql sock t c w).
Proof.
  revert w. induction fuel as [|fuel IH]; intros w Hf; [lia|].
  cbn [poll].
  pose proof (PQconsumeInput_fuel (conn_ c) w) as F1.
  destruct (PQconsumeInput (conn_ c) w) as [s w1]. cbn [fst snd] in F1.
  destruct (s =? 0) eqn:Es; [done|].
  apply Z.eqb_neq in Es. specialize (F1 Es).
  pose proof (PQisBusy_polls (conn_ c) w1) as (_ & _ & _ & _ & P2).
  destruct (PQisBusy (conn_ c) w1) as [busy w2]. cbn [fst snd] in P2.
  assert (Tail : ∀ w4, (length (consume_tape w4) ≤ length (consume_tape w2))%nat →
    is_Some (let '(busy, w) := PQisBusy (conn_ c) w4 in
             if busy : bool then poll fuel sql sock t c w
             else Some (poll_done s, c, w))).
  { intros w4 H4.
    pose proof (PQisBusy_polls (conn_ c) w4) as (_ & _ & _ & _ & P6).
    destruct (PQisBusy (conn_ c) w4) as [busy2 w6]. cbn [fst snd] in P6.
    destruct busy2; [apply IH; lia | done]. }
  destruct busy; [|by apply Tail].
  pose proof (wall_clock_elapsed_polls t w2) as (_ & _ & _ & _ & P3).
  destruct (wall_clock_elapsed t w2) as [elapsed w3]. cbn [fst snd] in P3.
  match goal with |- context [select _ ?tv w3] =>
    set (tv0 := tv); clearbody tv0 end.
  destruct (select_polls (sock + 1) tv0 w3) as [waited (_ & _ & _ & _ & P4)].
  destruct (select (sock + 1) tv0 w3) as [ret w4]. cbn [fst snd] in P4.
  destruct (ret <? 1).
  - by destruct (close c w4).
  - apply Tail. lia.
Qed.

(** ** [executeQuery]: the outer loop *)

Lemma polls_steps (w w' : libpq) (l : list call) : polls w w' l → steps w w' l.
Proof. intros (A & B & C & _). by repeat split. Qed.

Lemma steps_trans (w1 w2 w3 : libpq) (l1 l2 : list call) :
  steps w1 w2 l1 → steps w2 w3 l2 → steps w1 w3 (l1 ++ l2).
Proof.
  intros (Hl1 & Hs1 & Hm1) (Hl2 & Hs2 & Hm2).
  unfold steps. rewrite Hl2, Hl1, Hs2, Hm2, app_assoc. by repeat split.
Qed.

Lemma PQgetResult_steps (conn : PGconn_ptr) (w : libpq) :
  steps w (PQgetResult conn w).2 [PQgetResult_ (PQgetResult conn w).1].
Proof.
  unfold steps, PQgetResult.
  destruct conn; [|done]. destruct (result_tape w); cbn; by repeat split.
Qed.

Lemma PQgetResult_fuel (conn : PGconn_ptr) (w : libpq) :
  is_Some (PQgetResult conn w).1 →
  (length (result_tape (PQgetResult conn w).2) < length (result_tape w))%nat.
Proof.
  unfold PQgetResult.
  destruct conn; [|by intros [? ?]].
  destruct (result_tape w); cbn; [by intros [? ?] | lia].
Qed.

Lemma release_steps (result : option PGresult) (w : libpq) :
  steps w match result with Some r => PQclear r w | None => w end
        (PQclear_ <$> option_list result).
Proof.
  unfold steps. destruct result; cbn; [done|]. by rewrite app_nil_r.
Qed.

Lemma query_loop_fuel (fuel : nat) (sql : string) (sock : Z) (t : timer)
    (ok : bool) (result : option PGresult) (c : Connection) (w : libpq) :
  (length (result_tape w) < fuel)%nat →
  is_Some (query_loop fuel sql sock t ok result c w).
Proof.
  revert ok result w. induction fuel as [|fuel IH]; intros ok result w Hf; [lia|].
  cbn [query_loop].
  destruct (poll_fuel (S (length (consume_tape w))) sql sock t c w)
    as [[[exit c1] w1] Hp]; [lia|].
  rewrite Hp. apply poll_spec in Hp as (l & (_ & _ & _ & Rl & _) & Hl).
  destruct exit as [s|e]; [|done].
  destruct Hl as (_ & _ & -> & _).
  destruct (s =? 0); [done|].
  pose proof (PQgetResult_fuel (conn_ c) w1) as F.
  destruct (PQgetResult (conn_ c) w1) as [[tmp|] w2]; [|done].
  cbn [fst snd] in F. apply IH.
  assert (length (result_tape w2) < length (result_tape w1))%nat as F'
    by (by apply F).
  rewrite Rl in F'. destruct result; cbn; lia.
Qed.

Lemma wait_failure_app (c : Connection) (sql : string) (pre l : list call)
    (e : datasource_exception) (c' : Connection) (w' : libpq) :
  quiet_waits pre → wait_failure c sql l e c' w' →
  wait_failure c sql (pre ++ l) e c' w'.
Proof.
  intros Q1 (l0 & a & tv & ret & wt & -> & Q0 & O0 & R0 & Hr & -> & Hc).
  exists (pre ++ l0), a, tv, ret, wt.
  rewrite (obtained_app pre (l0 ++ _)), (obtained_app pre l0), O0.
  rewrite (released_app pre (l0 ++ _)), (released_app pre l0), R0.
  rewrite quiet_waits_app, <- app_assoc.
  repeat split; done.
Qed.

Lemma last_held (result : option PGresult) : last (option_list result) = result.
Proof. by destruct result. Qed.

Lemma result_calls_app (l1 l2 : list call) :
  result_calls (l1 ++ l2) = result_calls l1 ++ result_calls l2.
Proof. apply filter_app. Qed.

Lemma result_calls_none (l : list call) :
  obtained l = [] → released l = [] → result_calls l = [].
Proof.
  induction l as [|e l IH]; [done|]. intros O R.
  destruct e as [| | | | |[r|]|r|]; try done; by apply IH.
Qed.

(** One round of the outer loop: after the calls [pre], which fetched
    [tmp] and released the result held before, the loop goes on with [tmp]
    held. *)
Lemma loop_post_step (c : Connection) (sql : string) (ok : bool)
    (result : option PGresult) (tmp : PGresult) (exit : loop_exit)
    (c' : Connection) (w' : libpq) (pre l : list call) :
  quiet_waits pre → obtained pre = [tmp] → released pre = option_list result →
  result_calls pre = PQgetResult_ (Some tmp) :: (PQclear_ <$> option_list result) →
  finishes pre = O → ¬ input_lost pre →
  loop_post c sql (bool_decide (PQresultStatus tmp = PGRES_TUPLES_OK))
            (Some tmp) exit c' w' l →
  loop_post c sql ok result exit c' w' (pre ++ l).
Proof.
  intros Qp Op Rp Cp Fp Ip Hl. destruct exit as [ok' result'|e]; cbn in *.
  - destruct Hl as (-> & Ql & Fl & El & Ll & Cl & I1 & I2).
    rewrite obtained_app, released_app, finishes_app, result_calls_app,
      Op, Rp, Cp, Cl, Fp, Fl.
    split; [done|]. split; [by apply quiet_waits_app|]. split; [done|].
    split; [by rewrite <- app_assoc, <- El|].
    split.
    { rewrite last_app, Ll. cbn [app].
      destruct (last (tmp :: obtained l)) eqn:E; [done|].
      by apply last_None in E. }
    split; [done|].
    rewrite input_lost_app.
    split; [intros [?|?]; [done | by apply I1]|].
    intros I. rewrite I2 by tauto. cbn [app]. by rewrite last_status_cons.
  - by apply wait_failure_app.
Qed.

Lemma query_loop_spec (fuel : nat) (sql : string) (sock : Z) (t : timer)
    (ok : bool) (result : option PGresult) (c : Connection) (w : libpq)
    (exit : loop_exit) (c' : Connection) (w' : libpq) :
  query_loop fuel sql sock t ok result c w = Some (exit, c', w') →
  ∃ l, steps w w' l ∧ loop_post c sql ok result exit c' w' l.
Proof.
  revert ok result w. induction fuel as [|fuel IH]; intros ok result w H; [done|].
  cbn [query_loop] in H.
  destruct (poll _ sql sock t c w) as [[[pexit c1] w1]|] eqn:Hp; [|done].
  apply poll_spec in Hp as (lp & Pp & Op & Rp & Hp). apply polls_steps in Pp.
  destruct pexit as [s|e]; [|simplify_eq; by exists lp].
  destruct Hp as (-> & Qp & Fp & Ip).
  destruct (s =? 0) eqn:Es.
  { apply Z.eqb_eq in Es. subst s. simplify_eq. exists lp. split; [done|].
    unfold loop_post.
    rewrite (result_calls_none _ Op Rp), Op, Rp, app_nil_r, last_held.
    repeat split; try done. intros I. destruct I. by apply Ip. }
  apply Z.eqb_neq in Es.
  assert (Il : ¬ input_lost lp) by (intros I; by apply Es, Ip).
  pose proof (PQgetResult_steps (conn_ c) w1) as Pg.
  destruct (PQgetResult (conn_ c) w1) as [[tmp|] w2]; cbn [fst snd] in Pg.
  - pose proof (release_steps result w2) as Pr.
    apply IH in H as (l & Sl & Hl).
    exists ((lp ++ [PQgetResult_ (Some tmp)] ++ (PQclear_ <$> option_list result))
              ++ l).
    split.
    { eapply steps_trans; [|exact Sl].
      eapply steps_trans; [exact Pp|]. by eapply steps_trans. }
    apply (loop_post_step _ _ _ _ tmp); [| | | | | |done].
    + apply quiet_waits_app. split; [done|].
      destruct result; by repeat constructor.
    + rewrite obtained_app, Op. by destruct result.
    + rewrite released_app, Rp. by destruct result.
    + rewrite result_calls_app, (result_calls_none _ Op Rp). by destruct result.
    + rewrite finishes_app, Fp. by destruct result.
    + rewrite input_lost_app. intros [?|I]; [done|].
      unfold input_lost in I.
      destruct result; cbn in I;
        repeat (apply elem_of_cons in I as [I|I]; [done|]);
        by apply elem_of_nil in I.
  - simplify_eq. exists (lp ++ [PQgetResult_ None]).
    split; [by eapply steps_trans|].
    unfold loop_post.
    rewrite quiet_waits_app, obtained_app, released_app, finishes_app,
      result_calls_app, (result_calls_none _ Op Rp), Op, Rp, Fp.
    cbn [app]. change (obtained [PQgetResult_ None]) with (@nil PGresult).
    change (released [PQgetResult_ None]) with (@nil PGresult).
    change (result_calls [PQgetResult_ None]) with (@nil call).
    rewrite app_nil_r, last_held.
    repeat split; try done.
    + by repeat constructor.
    + intros [I|I%list_elem_of_singleton]%elem_of_app; done.
Qed.

(** ** [executeQuery] *)

Lemma status_steps (c : Connection) (w w' : libpq) (l : list call) :
  steps w w' l → status c w' = status c w.
Proof.
  intros (_ & Hs & Hm). unfold status, isOK, PQstatus, PQerrorMessage.
  destruct (conn_ c); [|done]. by rewrite Hs, Hm.
Qed.

Lemma submit_steps (sql : string) (type : Z) (c : Connection) (w : libpq) :
  ∃ e, steps w (submit sql type c w).2 [e] ∧
       (e = PQsendQuery_ sql ∨ e = PQsendQueryParams_ sql).
Proof.
  unfold submit, steps, PQsendQueryParams, PQsendQuery.
  destruct (type =? 1), (conn_ c), (send_tape w); cbn; eauto 10.
Qed.

Lemma last_status_false_nil (s : ExecStatusType) (rs : list PGresult) :
  last rs = None → last_status s false rs = false.
Proof. unfold last_status. by intros ->. Qed.

Lemma executeQuery_spec (sql : string) (type : Z) (c : Connection) (w : libpq) :
  let w0 := (submit sql type c w).2 in
  let '(r, c', w') := executeQuery sql type c w in
  if submitted sql type c w then
    ∃ l, steps w0 w' l ∧ query_post c sql w r c' w' l
  else
    r = Throw {| what := query_error (status c w) sql |} ∧ c' = c ∧ w' = w0.
Proof.
  unfold executeQuery, submitted. fold (submit sql type c w).
  destruct (submit_steps sql type c w) as (e0 & S0 & _).
  destruct (submit sql type c w) as [success w0]. cbn [fst snd] in *.
  destruct (PQsocket (conn_ c) w0 <? 0) eqn:Hs; cbn [negb andb].
  { cbn. by rewrite (status_steps _ _ _ _ S0). }
  destruct (success =? 0) eqn:H0; cbn [negb].
  { by rewrite (status_steps _ _ _ _ S0). }
  destruct (query_loop_fuel (S (length (result_tape w0))) sql
              (PQsocket (conn_ c) w0) (timer_new w) false None c w0)
    as [[[exit c1] w1] Hq]; [lia|].
  rewrite Hq. cbn [default].
  apply query_loop_spec in Hq as (l & Sl & Hl).
  destruct exit as [ok result|e].
  - destruct Hl as (-> & Ql & Fl & El & Ll & Cl & I1 & I2).
    change (option_list None ++ obtained l) with (obtained l) in El, Ll.
    destruct ok; cbn [negb].
    + assert (I : ¬ input_lost l) by (intros I; by specialize (I1 I)).
      specialize (I2 I). symmetry in I2.
      destruct result as [held|].
      * exists l. split; [done|]. left. exists held. cbn [option_list] in El.
        by repeat split.
      * symmetry in Ll. by rewrite (last_status_false_nil _ _ Ll) in I2.
    + pose proof (release_steps result w1) as Pr.
      exists (l ++ (PQclear_ <$> option_list result)).
      split; [by eapply steps_trans|]. right. left.
      rewrite (status_steps _ _ _ _ Sl), (status_steps _ _ _ _ S0).
      unfold rows_ok.
      rewrite quiet_waits_app, obtained_app, released_app, finishes_app,
        input_lost_app, result_calls_app, Cl, Fl.
      replace (obtained (PQclear_ <$> option_list result)) with (@nil PGresult)
        by (by destruct result).
      replace (result_calls (PQclear_ <$> option_list result))
        with (PQclear_ <$> option_list result) by (by destruct result).
      replace (released (PQclear_ <$> option_list result))
        with (option_list result) by (by destruct result).
      replace (finishes (PQclear_ <$> option_list result)) with O
        by (by destruct result).
      rewrite app_nil_r, <- Ll.
      repeat split; try done.
      * destruct result; by repeat constructor.
      * intros (I & E). rewrite <- I2 in E; [done|]. tauto.
  - exists l. split; [done|]. right. right. by exists e.
Qed.

Lemma query_error_contains (diag sql : string) :
  contains (query_error diag sql) sql = true.
Proof.
  unfold query_error.
  replace ("Postgis Plugin: " +:+ diag +:+ nl +:+
           "in executeQuery Full sql was: '" +:+ sql +:+ "'" +:+ nl)
    with (("Postgis Plugin: " +:+ diag +:+ nl +:+
           "in executeQuery Full sql was: '") +:+ sql +:+ ("'" +:+ nl))
    by (by rewrite !append_assoc).
  apply contains_app.
Qed.

(** The calls of a whole [executeQuery]: the submission, then the rest. *)
Lemma calls_since_submit (sql : string) (type : Z) (c : Connection)
    (w w' : libpq) (l : list call) :
  steps (submit sql type c w).2 w' l →
  ∃ e, calls_since w w' = e :: l ∧
       (e = PQsendQuery_ sql ∨ e = PQsendQueryParams_ sql).
Proof.
  intros (A & _). destruct (submit_steps sql type c w) as (e & (A0 & _) & He).
  exists e. split; [|done].
  unfold calls_since. rewrite A, A0, <- app_assoc. by rewrite drop_app_length.
Qed.

Lemma wait_failure_not_quiet (c : Connection) (sql : string) (l : list call)
    (e : datasource_exception) (c' : Connection) (w' : libpq) :
  wait_failure c sql l e c' w' → ¬ quiet_waits l.
Proof.
  intros (l0 & a & tv & ret & wt & -> & _ & _ & _ & Hr & _) Q.
  apply quiet_waits_app in Q as (_ & Q). apply Forall_cons in Q as (Q & _). lia.
Qed.

(** C3.  In an [executeQuery] whose submission was accepted and in which
    no readiness wait failed, every result object fetched replaces the one
    held, which is released right after the fetch.  After the loop, if the
    recorded status is "rows ok", the result object held, the last one
    fetched, is returned in a [ResultSet], all the others having been
    released; otherwise the result object held is released too, so that
    every result object fetched has been released, and the call throws
    with the text of [status()] and the SQL. *)
Theorem executeQuery_drain (sql : string) (type : Z) (c : Connection)
    (w : libpq) :
  let '(r, c', w') := executeQuery sql type c w in
  let l := calls_since w w' in
  submitted sql type c w = true →
  quiet_waits l →
  if bool_decide (rows_ok l) then
    ∃ held,
      r = Return {| res_ := Some held |} ∧
      last (obtained l) = Some held ∧
      obtained l = released l ++ [held] ∧
      result_calls l = replacing None (obtained l)
  else
    r = Throw {| what := query_error (status c w) sql |} ∧
    contains (query_error (status c w) sql) sql = true ∧
    released l = obtained l ∧
    result_calls l = replacing None (obtained l)
                       ++ (PQclear_ <$> option_list (last (obtained l))).
Proof.
  pose proof (executeQuery_spec sql type c w) as H.
  destruct (executeQuery sql type c w) as [[r c'] w'].
  cbv zeta in *. intros Hs Q. rewrite Hs in H. destruct H as (l & Sl & H).
  destruct (calls_since_submit _ _ _ _ _ _ Sl) as (e0 & El & He0).
  rewrite El in *.
  assert (Eo : obtained (e0 :: l) = obtained l) by (by destruct He0 as [-> | ->]).
  assert (Er : released (e0 :: l) = released l) by (by destruct He0 as [-> | ->]).
  assert (Ec : result_calls (e0 :: l) = result_calls l)
    by (by destruct He0 as [-> | ->]).
  assert (Ek : rows_ok (e0 :: l) ↔ rows_ok l).
  { unfold rows_ok, input_lost. rewrite Eo, elem_of_cons.
    destruct He0 as [-> | ->]; split; intros (I & E); split; try done.
    all: try (intros [?|?]; done). all: tauto. }
  apply Forall_cons in Q as (_ & Q).
  rewrite Eo, Er, Ec.
  destruct H as [(held & -> & -> & _ & K & L & O & C & _)
                | [(-> & -> & _ & K & R & C & _) | (e & -> & F)]].
  - rewrite bool_decide_eq_true_2 by (by apply Ek). by exists held.
  - rewrite bool_decide_eq_false_2 by (by rewrite Ek).
    split; [done|]. split; [apply query_error_contains | done].
  - by apply wait_failure_not_quiet in F.
Qed.

Lemma executeQuery_drain_witness :
  (executeQuery "SELECT 1" 0 fresh two_results).1.1
    = Return {| res_ := Some (rows 2) |} ∧
  released (calls_since two_results
              (executeQuery "SELECT 1" 0 fresh two_results).2) = [command 1].
Proof.
  pose proof (executeQuery_drain "SELECT 1" 0 fresh two_results) as H.
  destruct (executeQuery "SELECT 1" 0 fresh two_results) as [[r c'] w'] eqn:E.
  vm_compute in E. injection E as <- <- <-.
  cbv zeta in H. specialize (H eq_refl).
  assert (Q : quiet_waits (calls_since two_results
    {| connectdb_handle := true; conn_status := CONNECTION_OK;
       error_message := EmptyString; socket := 5; encoding := "UTF8";
       send_tape := []; consume_tape := []; busy_tape := [];
       result_tape := []; select_tape := []; time_tape := [];
       now := 15; errno := 0;
       calls := [PQsendQuery_ "SELECT 1"; PQconsumeInput_ 1;
                 select_ 5 3999000 1 10; PQgetResult_ (Some (command 1));
                 PQconsumeInput_ 1; PQgetResult_ (Some (rows 2));
                 PQclear_ (command 1); PQconsumeInput_ 1;
                 PQgetResult_ None] |})).
  { vm_compute. repeat constructor. discriminate. }
  specialize (H Q). clear Q.
  rewrite bool_decide_eq_true_2 in H.
  - destruct H as (held & Hr & Hl & Ho & _).
    vm_compute in Hl. injection Hl as <-.
    split; [exact Hr | reflexivity].
  - split; [|reflexivity]. unfold input_lost. vm_compute.
    intros I. repeat (apply elem_of_cons in I as [I|I]; [discriminate|]).
    by apply elem_of_nil in I.
Defined.

(** C1.  If a readiness wait of [executeQuery] returns less than 1, that
    is 0 when the budget ran out and a negative number when [select]
    failed, then that [select] is the last foreign call of [executeQuery]
    but for the [PQfinish] of [close()] (which is skipped only when the
    connection was closed already), the call throws, the exception text
    saying "timeout " in the first case and "select: " with the error text
    in the second, and in both cases containing the SQL; afterwards
    [closed_] is true and [isOK()] is false. *)
Theorem executeQuery_wait_failure (sql : string) (type : Z) (c : Connection)
    (w : libpq) (at_us tv_usec ret waited : Z) :
  let '(r, c', w') := executeQuery sql type c w in
  select_ at_us tv_usec ret waited ∈ calls_since w w' →
  ret < 1 →
  r = Throw {| what := wait_error ret (errno w') sql |} ∧
  wait_error ret (errno w') sql =
    query_error (if ret =? 0 then "timeout "
                 else "select: " +:+ strerror (errno w')) sql ∧
  contains (wait_error ret (errno w') sql) sql = true ∧
  (∃ l0, calls_since w w' =
           l0 ++ select_ at_us tv_usec ret waited
              :: (if closed_ c then [] else [PQfinish_])) ∧
  closed_ c' = true ∧
  isOK c' w' = false.
Proof.
  pose proof (executeQuery_spec sql type c w) as H.
  destruct (executeQuery sql type c w) as [[r c'] w'].
  cbv zeta in *. intros Hin Hret.
  destruct (submitted sql type c w).
  - destruct H as (l & Sl & H).
    destruct (calls_since_submit _ _ _ _ _ _ Sl) as (e0 & El & He0).
    rewrite El in *.
    apply elem_of_cons in Hin as [Hin|Hin];
      [destruct He0 as [-> | ->]; done|].
    assert (NQ : ¬ quiet_waits l).
    { intros Q. unfold quiet_waits in Q. rewrite Forall_forall in Q.
      specialize (Q _ Hin). cbn in Q. lia. }
    destruct H as [(held & _ & _ & Q & _) | [(_ & _ & Q & _) | (e & -> & F)]];
      [done | done |].
    destruct F as (l0 & a & tv & ret' & wt & -> & Q0 & _ & _ & Hr & -> & Hc).
    assert (E : select_ at_us tv_usec ret waited = select_ a tv ret' wt).
    { apply elem_of_app in Hin as [Hin|Hin].
      - unfold quiet_waits in Q0. rewrite Forall_forall in Q0.
        specialize (Q0 _ Hin). cbn in Q0. lia.
      - apply elem_of_cons in Hin as [Hin|Hin]; [done|].
        destruct (closed_ c); [by apply elem_of_nil in Hin|].
        by apply list_elem_of_singleton in Hin. }
    injection E as <- <- <- <-.
    split; [done|]. split; [done|]. split; [apply query_error_contains|].
    split; [by exists (e0 :: l0)|]. split; [done|].
    unfold isOK. by rewrite Hc.
  - destruct H as (_ & _ & ->).
    destruct (submit_steps sql type c w) as (e0 & (A0 & _) & He0).
    unfold calls_since in Hin. rewrite A0, drop_app_length in Hin.
    apply list_elem_of_singleton in Hin. by destruct He0 as [-> | ->].
Qed.

Lemma executeQuery_wait_failure_witness :
  (executeQuery "SELECT 1" 0 fresh silent_server).1.1
    = Throw {| what := wait_error 0 0 "SELECT 1" |} ∧
  isOK (executeQuery "SELECT 1" 0 fresh silent_server).1.2
       (executeQuery "SELECT 1" 0 fresh silent_server).2 = false.
Proof.
  pose proof (executeQuery_wait_failure "SELECT 1" 0 fresh silent_server
                5 3999000 0 3999000) as H.
  destruct (executeQuery "SELECT 1" 0 fresh silent_server) as [[r c'] w'] eqn:E.
  vm_compute in E. injection E as <- <- <-.
  cbv zeta in H.
  assert (Hin : select_ 5 3999000 0 3999000 ∈
    calls_since silent_server
    {| connectdb_handle := true; conn_status := CONNECTION_OK;
       error_message := EmptyString; socket := 5; encoding := "UTF8";
       send_tape := []; consume_tape := []; busy_tape := [];
       result_tape := []; select_tape := []; time_tape := [];
       now := 3999005; errno := 0;
       calls := [PQsendQuery_ "SELECT 1"; PQconsumeInput_ 1;
                 select_ 5 3999000 0 3999000; PQfinish_] |}).
  { vm_compute. do 2 constructor. constructor. }
  specialize (H Hin ltac:(lia)). clear Hin.
  destruct H as (H1 & _ & _ & _ & _ & H6).
  split; [exact H1 | exact H6].
Defined.

(** ** [executeQuery]: the timeout *)

Lemma waits_app (l1 l2 : list call) : waits (l1 ++ l2) = waits l1 + waits l2.
Proof.
  induction l1 as [|e l1 IH]; [done|].
  cbn [app waits]. rewrite IH. destruct e; lia.
Qed.

(** The timeout [T], in milliseconds, and the time [t0] at which the timer
    was started are fixed throughout. *)
Section Timeout.

Variables (T t0 : Z).

Lemma elapses_refl (w : libpq) : elapses T t0 w w [].
Proof.
  split; [by rewrite app_nil_r|]. intros I. split; [done|].
  split; [constructor | cbn; lia].
Qed.

Lemma elapses_trans (w1 w2 w3 : libpq) (l1 l2 : list call) :
  elapses T t0 w1 w2 l1 → elapses T t0 w2 w3 l2 →
  elapses T t0 w1 w3 (l1 ++ l2).
Proof.
  intros (A1 & H1) (A2 & H2). split; [by rewrite A2, A1, app_assoc|].
  intros I1. destruct (H1 I1) as (I2 & B1 & W1).
  destruct (H2 I2) as (I3 & B2 & W2).
  split; [done|]. split; [by apply Forall_app|]. rewrite waits_app. lia.
Qed.

(** A call that takes no time and is not a [select]. *)
Lemma elapses_timeless (w w' : libpq) (l : list call) :
  calls w' = calls w ++ l → now w' = now w → time_tape w' = time_tape w →
  Forall (λ e, match e with select_ _ _ _ _ => False | _ => True end) l →
  elapses T t0 w w' l.
Proof.
  intros A N K F. split; [done|]. unfold in_time, slack. rewrite N, K.
  intros I. split; [done|].
  assert (budgeted T t0 l ∧ waits l = 0) as [B ->]; [|split; [done | lia]].
  clear A. induction F as [|e l He F IH]; [by split; [constructor|]|].
  destruct IH as [B W]. split; [constructor; [by destruct e | done]|].
  by destruct e.
Qed.

Lemma PQconsumeInput_elapses (conn : PGconn_ptr) (w : libpq) :
  elapses T t0 w (PQconsumeInput conn w).2
    [PQconsumeInput_ (PQconsumeInput conn w).1].
Proof.
  apply elapses_timeless; try (by repeat constructor);
    unfold PQconsumeInput; destruct conn; try done; by destruct (consume_tape w).
Qed.

Lemma PQisBusy_elapses (conn : PGconn_ptr) (w : libpq) :
  elapses T t0 w (PQisBusy conn w).2 [].
Proof.
  apply elapses_timeless; try (by repeat constructor);
    unfold PQisBusy; destruct conn; rewrite ?app_nil_r; try done;
    destruct (busy_tape w); cbn; by rewrite ?app_nil_r.
Qed.

Lemma PQgetResult_elapses (conn : PGconn_ptr) (w : libpq) :
  elapses T t0 w (PQgetResult conn w).2 [PQgetResult_ (PQgetResult conn w).1].
Proof.
  apply elapses_timeless; try (by repeat constructor);
    unfold PQgetResult; destruct conn; try done; by destruct (result_tape w).
Qed.

Lemma release_elapses (result : option PGresult) (w : libpq) :
  elapses T t0 w match result with Some r => PQclear r w | None => w end
          (PQclear_ <$> option_list result).
Proof.
  apply elapses_timeless; destruct result; cbn; rewrite ?app_nil_r;
    try done; by repeat constructor.
Qed.

Lemma close_elapses (c : Connection) (w : libpq) :
  elapses T t0 w (close c w).2 (if closed_ c then [] else [PQfinish_]).
Proof.
  apply elapses_timeless; unfold close; destruct (closed_ c); cbn;
    rewrite ?app_nil_r; try done; by repeat constructor.
Qed.

Lemma submit_elapses (sql : string) (type : Z) (c : Connection)
    (w : libpq) :
  ∃ e, elapses T t0 w (submit sql type c w).2 [e].
Proof.
  unfold submit, PQsendQueryParams, PQsendQuery.
  destruct (type =? 1), (conn_ c), (send_tape w); cbn; eexists;
    apply elapses_timeless; cbn; try done; by repeat constructor.
Qed.

End Timeout.

Lemma total_nonneg (t : list N) : 0 ≤ total t.
Proof. induction t as [|d t IH]; cbn [total]; lia. Qed.

Lemma wall_clock_elapsed_time (t : timer) (w : libpq) :
  let w1 := (wall_clock_elapsed t w).2 in
  calls w1 = calls w ∧
  (wall_clock_elapsed t w).1 = now w1 - wall_clock_start_ t ∧
  ∃ d, 0 ≤ d ∧ now w1 = now w + d ∧
       total (time_tape w) = d + total (time_tape w1).
Proof.
  unfold wall_clock_elapsed. destruct (time_tape w) as [|d tape]; cbn.
  - repeat split. exists 0. lia.
  - repeat split. exists (Z.of_N d). lia.
Qed.

Lemma select_time (nfds tv_usec : Z) (w : libpq) :
  let w2 := (select nfds tv_usec w).2 in
  ∃ waited,
    calls w2 = calls w ++ [select_ (now w) tv_usec (select nfds tv_usec w).1 waited] ∧
    now w2 = now w + waited ∧
    time_tape w2 = time_tape w ∧
    0 ≤ waited ≤ Z.max 0 tv_usec.
Proof.
  unfold select. destruct (select_tape w) as [|ev tape]; cbn [pop].
  - destruct (tv_usec <? 0) eqn:E; eexists; cbn; repeat split; lia.
  - destruct (tv_usec <? 0) eqn:E; [eexists; cbn; repeat split; lia|].
    destruct ev as [d| |d e]; try destruct (Z.of_N d <=? tv_usec) eqn:E';
      eexists; cbn; repeat split; lia.
Qed.

(** While the invariant holds, the [int] arithmetic of the budget is
    exact. *)
Lemma budget_exact (T elapsed : Z) :
  0 ≤ T ≤ 2147483 → 0 ≤ elapsed ≤ T * 1000 + horizon →
  to_int (to_int (Z.quot (T * 1000 - elapsed) 1000) * 1000) = budget T elapsed.
Proof.
  intros HT He. unfold budget, horizon in *.
  change (2 ^ 31) with 2147483648 in He.
  assert (- 2147483648 ≤ 1000 * Z.quot (T * 1000 - elapsed) 1000 ≤ 2147483000)
    by (Z.to_euclidean_division_equations; lia).
  rewrite (to_int_id (Z.quot _ _)) by (unfold int_min, int_max; lia).
  rewrite to_int_id by (unfold int_min, int_max; lia). lia.
Qed.

Lemma budget_le (T elapsed : Z) :
  Z.max 0 (budget T elapsed) ≤ Z.max 0 (T * 1000 - elapsed).
Proof. unfold budget. Z.to_euclidean_division_equations. lia. Qed.

(** Reading the clock and waiting with the budget [executeQuery] computes
    from the reading. *)
Lemma wait_elapses (T : Z) (t : timer) (nfds : Z) (w : libpq) :
  0 ≤ T ≤ 2147483 →
  let elapsed := (wall_clock_elapsed t w).1 in
  let w1 := (wall_clock_elapsed t w).2 in
  let tv_usec := to_int (to_int (Z.quot (T * 1000 - elapsed) 1000) * 1000) in
  ∃ waited,
    elapses T (wall_clock_start_ t) w (select nfds tv_usec w1).2
      [select_ (now w1) tv_usec (select nfds tv_usec w1).1 waited].
Proof.
  intros HT elapsed w1 tv_usec.
  destruct (wall_clock_elapsed_time t w) as (A1 & E1 & d & Hd & N1 & D1).
  fold w1 elapsed in A1, E1, N1, D1.
  destruct (select_time nfds tv_usec w1) as (waited & A2 & N2 & K2 & Hw).
  exists waited. split; [by rewrite A2, A1|].
  unfold in_time, slack. intros (I1 & I2 & I3).
  pose proof (total_nonneg (time_tape w1)) as P1.
  rewrite N2, K2, N1.
  assert (Eb : tv_usec = budget T elapsed).
  { subst tv_usec. apply budget_exact; [done|]. rewrite E1, N1. lia. }
  pose proof (budget_le T elapsed) as Hb. rewrite E1, N1 in Hb.
  rewrite Eb in Hw. rewrite E1, N1 in Eb, Hw.
  split; [lia|]. split.
  - constructor; [|constructor]. split; [done | lia].
  - cbn [waits]. lia.
Qed.

Lemma poll_time (fuel : nat) (sql : string) (sock : Z) (t : timer)
    (c : Connection) (w : libpq) (exit : poll_exit) (c' : Connection)
    (w' : libpq) :
  0 ≤ statement_timeout_ c ≤ 2147483 →
  poll fuel sql sock t c w = Some (exit, c', w') →
  ∃ l, elapses (statement_timeout_ c) (wall_clock_start_ t) w w' l.
Proof.
  intros HT. set (T := statement_timeout_ c) in *.
  set (t0 := wall_clock_start_ t).
  revert w. induction fuel as [|fuel IH]; intros w H; [done|].
  cbn [poll] in H.
  pose proof (PQconsumeInput_elapses T t0 (conn_ c) w) as P1.
  destruct (PQconsumeInput (conn_ c) w) as [s w1]. cbn [fst snd] in P1.
  destruct (s =? 0); [simplify_eq; by eexists|].
  pose proof (PQisBusy_elapses T t0 (conn_ c) w1) as P2.
  destruct (PQisBusy (conn_ c) w1) as [busy w2]. cbn [fst snd] in P2.
  pose proof (elapses_trans _ _ _ _ _ _ _ P1 P2) as P12.
  assert (Tail : ∀ pre w4,
    elapses T t0 w w4 pre →
    (let '(busy, w) := PQisBusy (conn_ c) w4 in
     if busy : bool then poll fuel sql sock t c w
     else Some (poll_done s, c, w)) = Some (exit, c', w') →
    ∃ l, elapses T t0 w w' l).
  { intros pre w4 Ppre HT'.
    pose proof (PQisBusy_elapses T t0 (conn_ c) w4) as P6.
    destruct (PQisBusy (conn_ c) w4) as [busy2 w6]. cbn [fst snd] in P6.
    pose proof (elapses_trans _ _ _ _ _ _ _ Ppre P6) as P.
    destruct busy2.
    - apply IH in HT' as (l & Pl). eexists. by eapply elapses_trans.
    - simplify_eq. by eexists. }
  destruct busy; [|by eapply Tail].
  pose proof (wait_elapses T t (sock + 1) w2 HT) as P3. cbv zeta in P3.
  destruct (wall_clock_elapsed t w2) as [elapsed w3]. cbn [fst snd] in P3.
  fold T in H.
  match type of H with context [select _ ?tv w3] =>
    set (tv0 := tv) in *; clearbody tv0 end.
  destruct P3 as [waited P3].
  destruct (select (sock + 1) tv0 w3) as [ret w4]. cbn [fst snd] in P3.
  pose proof (elapses_trans _ _ _ _ _ _ _ P12 P3) as P14.
  destruct (ret <? 1).
  - pose proof (close_elapses T t0 c w4) as P5.
    destruct (close c w4) as [c5 w5]. cbn [fst snd] in *. simplify_eq.
    eexists. by eapply elapses_trans.
  - by eapply Tail.
Qed.

Lemma query_loop_time (fuel : nat) (sql : string) (sock : Z) (t : timer)
    (ok : bool) (result : option PGresult) (c : Connection) (w : libpq)
    (exit : loop_exit) (c' : Connection) (w' : libpq) :
  0 ≤ statement_timeout_ c ≤ 2147483 →
  query_loop fuel sql sock t ok result c w = Some (exit, c', w') →
  ∃ l, elapses (statement_timeout_ c) (wall_clock_start_ t) w w' l.
Proof.
  intros HT. revert ok result w.
  induction fuel as [|fuel IH]; intros ok result w H; [done|].
  cbn [query_loop] in H.
  destruct (poll _ sql sock t c w) as [[[pexit c1] w1]|] eqn:Hp; [|done].
  pose proof (poll_spec _ _ _ _ _ _ _ _ _ Hp) as (lp & _ & _ & _ & Hc).
  apply poll_time in Hp as (l1 & P1); [|done].
  destruct pexit as [s|e]; [|simplify_eq; by eexists].
  destruct Hc as (-> & _).
  destruct (s =? 0); [simplify_eq; by eexists|].
  pose proof (PQgetResult_elapses (statement_timeout_ c) (wall_clock_start_ t)
                (conn_ c) w1) as P2.
  destruct (PQgetResult (conn_ c) w1) as [[tmp|] w2]; cbn [fst snd] in P2.
  - pose proof (release_elapses (statement_timeout_ c) (wall_clock_start_ t)
                  result w2) as P3.
    apply IH in H as (l & Pl). eexists.
    eapply elapses_trans; [exact P1|].
    eapply elapses_trans; [exact P2|]. by eapply elapses_trans.
  - simplify_eq. eexists. by eapply elapses_trans.
Qed.

(** C8.  In an [executeQuery] on a connection with a timeout of [T]
    milliseconds, every readiness wait is given as budget the whole
    milliseconds of [T] minus the time elapsed on the timer when the wait
    begins, and blocks no longer than that budget; and the time spent
    blocked, summed over all the waits of the call however many they are,
    is at most [T] milliseconds.  (Time in microseconds; [horizon] keeps
    the [int] arithmetic of the budget from overflowing.) *)
Theorem executeQuery_wait_budget (sql : string) (type : Z) (c : Connection)
    (w : libpq) :
  0 ≤ statement_timeout_ c ≤ 2147483 →
  total (time_tape w) ≤ horizon →
  let '(r, c', w') := executeQuery sql type c w in
  let l := calls_since w w' in
  budgeted (statement_timeout_ c) (now w) l ∧
  waits l ≤ statement_timeout_ c * 1000.
Proof.
  intros HT Hh.
  assert (∃ l, elapses (statement_timeout_ c) (now w) w
                 (executeQuery sql type c w).2 l) as (l & A & H).
  { unfold executeQuery. fold (submit sql type c w).
    destruct (submit_elapses (statement_timeout_ c) (now w) sql type c w)
      as (e0 & P0).
    destruct (submit sql type c w) as [success w0]. cbn [fst snd] in P0.
    destruct ((if PQsocket (conn_ c) w0 <? 0 then 0 else success) =? 0);
      [by eexists|].
    destruct (query_loop_fuel (S (length (result_tape w0))) sql
                (PQsocket (conn_ c) w0) (timer_new w) false None c w0)
      as [[[exit c1] w1] Hq]; [lia|].
    rewrite Hq. cbn [default].
    apply query_loop_time in Hq as (l1 & P1); [|done].
    change (wall_clock_start_ (timer_new w)) with (now w) in P1.
    destruct exit as [ok result|e]; [|eexists; by eapply elapses_trans].
    destruct ok; cbn [negb snd]; [eexists; by eapply elapses_trans|].
    pose proof (release_elapses (statement_timeout_ c) (now w) result w1) as P2.
    eexists. eapply elapses_trans; [exact P0|]. by eapply elapses_trans. }
  destruct (executeQuery sql type c w) as [[r c'] w']. cbn [snd] in *.
  cbv zeta. unfold calls_since. rewrite A, drop_app_length.
  destruct H as (I & B & W).
  { unfold in_time. pose proof (total_nonneg (time_tape w)). lia. }
  split; [done|]. unfold slack in W. lia.
Qed.

Lemma executeQuery_wait_budget_witness :
  waits (calls_since two_results
           (executeQuery "SELECT 1" 0 fresh two_results).2) ≤ 4000 * 1000 ∧
  calls_since two_results (executeQuery "SELECT 1" 0 fresh two_results).2 !! 2%nat
    = Some (select_ 5 3999000 1 10).
Proof.
  split; [|reflexivity].
  assert (H1 : 0 ≤ statement_timeout_ fresh ≤ 2147483) by (cbn; lia).
  assert (H2 : total (time_tape two_results) ≤ horizon)
    by (vm_compute; discriminate).
  pose proof (executeQuery_wait_budget "SELECT 1" 0 fresh two_results H1 H2) as H.
  destruct (executeQuery "SELECT 1" 0 fresh two_results) as [[r c'] w'].
  exact (proj2 H).
Defined.

(** * Further properties *)

(** ** What [executeQuery] does to the handle *)

Lemma object_step_refl (c : Connection) (w w' : libpq) :
  finishes (calls w') = finishes (calls w) → object_step c w c w'.
Proof.
  intros F. unfold object_step. rewrite F.
  split; [done|]. split; [done|]. split; [done|]. destruct (closed_ c); lia.
Qed.

Lemma object_step_trans (c1 c2 c3 : Connection) (w1 w2 w3 : libpq) :
  object_step c1 w1 c2 w2 → object_step c2 w2 c3 w3 → object_step c1 w1 c3 w3.
Proof.
  intros (Hp1 & Ht1 & Hm1 & Hf1) (Hp2 & Ht2 & Hm2 & Hf2). unfold object_step.
  rewrite Hp2, Hp1, Ht2, Ht1, Hf2, Hf1.
  split; [done|]. split; [done|]. split; [tauto|].
  destruct (closed_ c1), (closed_ c2) eqn:E2, (closed_ c3) eqn:E3; try lia.
  all: first [by specialize (Hm2 eq_refl) | by specialize (Hm1 eq_refl)].
Qed.

Lemma object_step_close (c : Connection) (w : libpq) :
  object_step c w (close c w).1 (close c w).2.
Proof.
  unfold close, object_step. destruct (closed_ c) eqn:E; cbn [negb fst snd].
  - rewrite E. split; [done|]. split; [done|]. split; [done|]. lia.
  - cbn [set_closed conn_ statement_timeout_ closed_ PQfinish log calls].
    rewrite finishes_app. by repeat split.
Qed.

(** A step of the foreign world that logs [l], in which no [PQfinish]
    occurs, leaves the ownership as it is. *)
Lemma object_step_calls (c : Connection) (w w' : libpq) (l : list call) :
  calls w' = calls w ++ l → finishes l = O → object_step c w c w'.
Proof.
  intros A F. apply object_step_refl. rewrite A, finishes_app, F. lia.
Qed.

Lemma select_negative (nfds tv_usec : Z) (w : libpq) :
  tv_usec < 0 →
  (select nfds tv_usec w).1 = -1 ∧ errno (select nfds tv_usec w).2 = EINVAL.
Proof.
  intros H. unfold select. apply Z.ltb_lt in H.
  destruct (select_tape w); cbn [pop]; by rewrite H.
Qed.

Lemma poll_call_query_call (l : list call) :
  Forall poll_call l → Forall query_call l.
Proof. intros H. eapply Forall_impl; [exact H|]. by intros [ ]. Qed.

Lemma poll_facts (fuel : nat) (sql : string) (sock : Z) (t : timer)
    (c : Connection) (w : libpq) (exit : poll_exit) (c' : Connection)
    (w' : libpq) :
  poll fuel sql sock t c w = Some (exit, c', w') →
  ∃ l, calls w' = calls w ++ l ∧ Forall poll_call l ∧
       object_step c w c' w' ∧
       cursorId c' = cursorId c ∧ pending_ c' = pending_ c ∧
       match exit with
       | poll_done _ => True
       | poll_throw e => failed_wait sql l e w'
       end.
Proof.
  revert w. induction fuel as [|fuel IH]; intros w H; [done|].
  cbn [poll] in H.
  pose proof (PQconsumeInput_polls (conn_ c) w) as (P1 & _).
  destruct (PQconsumeInput (conn_ c) w) as [s w1]. cbn [fst snd] in P1.
  destruct (s =? 0) eqn:Es.
  { simplify_eq. exists [PQconsumeInput_ s]. split; [done|].
    split; [by repeat constructor|].
    split; [by eapply object_step_calls|]. done. }
  apply Z.eqb_neq in Es.
  pose proof (PQisBusy_polls (conn_ c) w1) as (P2 & _).
  destruct (PQisBusy (conn_ c) w1) as [busy w2]. cbn [fst snd] in P2.
  rewrite app_nil_r in P2.
  (* the end of an iteration: the loop condition *)
  assert (Tail : ∀ pre w4,
    calls w4 = calls w ++ pre → Forall poll_call pre → finishes pre = O →
    ¬ input_lost pre →
    (let '(busy, w) := PQisBusy (conn_ c) w4 in
     if busy : bool then poll fuel sql sock t c w
     else Some (poll_done s, c, w)) = Some (exit, c', w') →
    ∃ l, calls w' = calls w ++ l ∧ Forall poll_call l ∧
         object_step c w c' w' ∧
         cursorId c' = cursorId c ∧ pending_ c' = pending_ c ∧
         match exit with
         | poll_done _ => True
         | poll_throw e => failed_wait sql l e w'
         end).
  { intros pre w4 Apre Fpre Npre Ipre HT.
    pose proof (PQisBusy_polls (conn_ c) w4) as (P6 & _).
    destruct (PQisBusy (conn_ c) w4) as [busy2 w6]. cbn [fst snd] in P6.
    rewrite app_nil_r in P6.
    destruct busy2.
    - apply IH in HT as (l & Al & Fl & Ol & Cl & Pl & Hl).
      exists (pre ++ l). split; [by rewrite Al, P6, Apre, app_assoc|].
      split; [by apply Forall_app|].
      split.
      { eapply object_step_trans; [|exact Ol].
        eapply object_step_calls; [by rewrite P6, Apre | done]. }
      split; [done|]. split; [done|].
      destruct exit as [s'|e]; [done|].
      destruct Hl as (Il & a & tv & ret & wt & Hin & Hr & He & Hneg).
      split; [rewrite input_lost_app; tauto|].
      exists a, tv, ret, wt. split; [apply elem_of_app; tauto | done].
    - simplify_eq. exists pre. split; [by rewrite P6|]. split; [done|].
      split; [eapply object_step_calls; [by rewrite P6, Apre | done]|]. done. }
  assert (Ic : ¬ input_lost [PQconsumeInput_ s]).
  { intros I%list_elem_of_singleton. by simplify_eq. }
  destruct busy.
  - pose proof (wall_clock_elapsed_polls t w2) as (P3 & _).
    destruct (wall_clock_elapsed t w2) as [elapsed w3]. cbn [fst snd] in P3.
    rewrite app_nil_r in P3.
    match type of H with context [select _ ?tv w3] =>
      set (tv0 := tv) in H; clearbody tv0 end.
    destruct (select_polls (sock + 1) tv0 w3) as [waited (P4 & _)].
    pose proof (select_negative (sock + 1) tv0 w3) as N4.
    destruct (select (sock + 1) tv0 w3) as [ret w4]. cbn [fst snd] in P4, N4.
    assert (A4 : calls w4 = calls w ++ [PQconsumeInput_ s;
                                        select_ (now w3) tv0 ret waited])
      by (by rewrite P4, P3, P2, P1, <- app_assoc).
    assert (F4 : Forall poll_call [PQconsumeInput_ s;
                                   select_ (now w3) tv0 ret waited]).
    { repeat constructor. intros Hn. by apply N4. }
    destruct (ret <? 1) eqn:Er.
    + apply Z.ltb_lt in Er.
      pose proof (close_polls c w4) as (P5 & _).
      pose proof (object_step_close c w4) as O5.
      pose proof (errno_close c w4) as E5.
      assert (K5 : cursorId (close c w4).1 = cursorId c
                   ∧ pending_ (close c w4).1 = pending_ c)
        by (unfold close; by destruct (closed_ c)).
      destruct (close c w4) as [c5 w5]. cbn [fst snd] in *. simplify_eq.
      eexists. split; [by rewrite P5, A4, <- app_assoc|].
      split.
      { apply Forall_app. split; [done|]. destruct (closed_ c); by repeat constructor. }
      split.
      { eapply object_step_trans; [|exact O5].
        by eapply object_step_calls. }
      split; [tauto|]. split; [tauto|].
      split.
      { intros I. apply elem_of_app in I as [I|I].
        - apply elem_of_cons in I as [I|I]; [by simplify_eq|].
          by apply list_elem_of_singleton in I.
        - destruct (closed_ c); [by apply elem_of_nil in I|].
          by apply list_elem_of_singleton in I. }
      exists (now w3), tv0, ret, waited. rewrite E5.
      split; [apply elem_of_app; left; apply elem_of_cons; right;
              by apply list_elem_of_singleton|].
      split; [done|]. split; [done|]. intros Hn. by apply N4.
    + eapply (Tail _ w4); [exact A4 | exact F4 | done | | exact H].
      intros I. apply elem_of_cons in I as [I|I]; [by simplify_eq|].
      by apply list_elem_of_singleton in I.
  - eapply (Tail _ w2); [by rewrite P2, P1 | by repeat constructor
                         | done | done | exact H].
Qed.

Lemma poll_calls_fetch_nothing (l : list call) :
  Forall poll_call l → obtained l = [] ∧ released l = [].
Proof.
  induction 1 as [|e l He _ [IHo IHr]]; [done|].
  destruct e as [| | | | |r|r|]; try done.
Qed.

Lemma last_app_cons {A : Type} (l1 l2 : list A) (x : A) :
  last (l1 ++ x :: l2) = last (x :: l2).
Proof.
  rewrite last_app. destruct (last (x :: l2)) eqn:E; [done|].
  by apply last_None in E.
Qed.

Lemma query_loop_facts (fuel : nat) (sql : string) (sock : Z) (t : timer)
    (ok : bool) (result : option PGresult) (c : Connection) (w : libpq)
    (exit : loop_exit) (c' : Connection) (w' : libpq) :
  query_loop fuel sql sock t ok result c w = Some (exit, c', w') →
  ∃ l, calls w' = calls w ++ l ∧ Forall query_call l ∧
       object_step c w c' w' ∧
       cursorId c' = cursorId c ∧ pending_ c' = pending_ c ∧
       option_list result ++ obtained l =
         released l ++ option_list (last (option_list result ++ obtained l)) ∧
       match exit with
       | loop_done _ _ => True
       | loop_throw e => failed_wait sql l e w'
       end.
Proof.
  revert ok result w. induction fuel as [|fuel IH]; intros ok result w H; [done|].
  cbn [query_loop] in H.
  destruct (poll _ sql sock t c w) as [[[pexit c1] w1]|] eqn:Hp; [|done].
  pose proof (poll_spec _ _ _ _ _ _ _ _ _ Hp) as (lp' & (Ap' & _) & _ & _ & Hd).
  apply poll_facts in Hp as (lp & Ap & Fp & Op & Cp & Pp & Hp).
  assert (lp' = lp) as -> by (rewrite Ap in Ap'; by apply app_inv_head in Ap').
  destruct (poll_calls_fetch_nothing _ Fp) as [Eo Er].
  assert (Hheld : option_list result ++ obtained lp =
                  released lp ++ option_list (last (option_list result ++ obtained lp)))
    by (by rewrite Eo, Er, app_nil_r, last_held).
  destruct pexit as [s|e].
  2:{ simplify_eq. exists lp. split; [done|].
      split; [by apply poll_call_query_call|]. done. }
  destruct Hd as (-> & _ & _ & Is).
  destruct (s =? 0) eqn:Es.
  { simplify_eq. exists lp. split; [done|].
    split; [by apply poll_call_query_call|]. done. }
  apply Z.eqb_neq in Es.
  pose proof (PQgetResult_steps (conn_ c) w1) as (Ag & _).
  destruct (PQgetResult (conn_ c) w1) as [[tmp|] w2]; cbn [fst snd] in Ag.
  - pose proof (release_steps result w2) as (Ar & _).
    apply IH in H as (l & Al & Fl & Ol & Cl & Pl & Hl & He).
    set (pre := lp ++ [PQgetResult_ (Some tmp)]
                   ++ (PQclear_ <$> option_list result)).
    assert (Apre : calls match result with
                         | Some r => PQclear r w2
                         | None => w2
                         end = calls w ++ pre)
      by (unfold pre; by rewrite Ar, Ag, Ap, <- !app_assoc).
    assert (Fpre : finishes pre = O).
    { destruct Op as (_ & _ & _ & Fo). rewrite Ap, finishes_app in Fo.
      assert (Flp : finishes lp = O) by (destruct (closed_ c); lia).
      unfold pre. rewrite !finishes_app, Flp. by destruct result. }
    assert (Opre : obtained pre = [tmp])
      by (unfold pre; rewrite !obtained_app, Eo; by destruct result).
    assert (Rpre : released pre = option_list result)
      by (unfold pre; rewrite !released_app, Er; by destruct result).
    exists (pre ++ l). split; [by rewrite Al, Apre, app_assoc|].
    split.
    { apply Forall_app. split; [|done]. unfold pre.
      apply Forall_app. split; [by apply poll_call_query_call|].
      destruct result; by repeat constructor. }
    split.
    { eapply object_step_trans; [|exact Ol]. by eapply object_step_calls. }
    split; [done|]. split; [done|].
    split.
    { rewrite obtained_app, released_app, Opre, Rpre.
      change ([tmp] ++ obtained l) with (tmp :: obtained l).
      rewrite last_app_cons. cbn [option_list app] in Hl.
      change (option_list (Some tmp) ++ obtained l) with (tmp :: obtained l) in Hl.
      rewrite <- app_assoc, <- Hl. done. }
    destruct exit as [ok' result'|e]; [done|].
    destruct He as (Il & a & tv & ret & wt & Hin & Hr & He & Hneg).
    split.
    { rewrite input_lost_app. intros [I|I]; [|done]. unfold pre in I.
      apply elem_of_app in I as [I|I].
      - by apply Es, Is.
      - destruct result; cbn in I;
          repeat (apply elem_of_cons in I as [I|I]; [done|]);
          by apply elem_of_nil in I. }
    exists a, tv, ret, wt. split; [apply elem_of_app; tauto | done].
  - simplify_eq. exists (lp ++ [PQgetResult_ None]).
    split; [by rewrite Ag, Ap, <- app_assoc|].
    split.
    { apply Forall_app. split; [by apply poll_call_query_call|].
      by repeat constructor. }
    split.
    { eapply object_step_trans; [exact Op|]. by eapply object_step_calls. }
    split; [done|]. split; [done|].
    rewrite obtained_app, released_app.
    change (obtained [PQgetResult_ None]) with (@nil PGresult).
    change (released [PQgetResult_ None]) with (@nil PGresult).
    by rewrite !app_nil_r.
Qed.

Lemma submit_call (sql : string) (type : Z) (c : Connection) (w : libpq) :
  calls (submit sql type c w).2 =
    calls w ++ [if type =? 1 then PQsendQueryParams_ sql else PQsendQuery_ sql].
Proof.
  unfold submit, PQsendQueryParams, PQsendQuery.
  by destruct (type =? 1), (conn_ c), (send_tape w).
Qed.

Lemma executeQuery_facts (sql : string) (type : Z) (c : Connection) (w : libpq) :
  let w0 := (submit sql type c w).2 in
  let '(r, c', w') := executeQuery sql type c w in
  object_step c w c' w' ∧ cursorId c' = cursorId c ∧ pending_ c' = pending_ c ∧
  (submitted sql type c w = true →
   ∃ l, calls w' = calls w0 ++ l ∧ Forall query_call l ∧
        (quiet_waits l ∨
         ∃ e, r = Throw e ∧ failed_wait sql l e w' ∧
              obtained l = released l ++ option_list (last (obtained l)))).
Proof.
  unfold executeQuery, submitted. fold (submit sql type c w).
  pose proof (submit_call sql type c w) as A0.
  destruct (submit sql type c w) as [success w0]. cbn [fst snd] in *.
  assert (O0 : object_step c w c w0).
  { eapply object_step_calls; [exact A0|]. by destruct (type =? 1). }
  destruct (PQsocket (conn_ c) w0 <? 0) eqn:Hs; cbn [negb andb]; [done|].
  destruct (success =? 0) eqn:H0; cbn [negb]; [done|].
  destruct (query_loop_fuel (S (length (result_tape w0))) sql
              (PQsocket (conn_ c) w0) (timer_new w) false None c w0)
    as [[[exit c1] w1] Hq]; [lia|].
  rewrite Hq. cbn [default].
  pose proof (query_loop_spec _ _ _ _ _ _ _ _ _ _ _ Hq) as (l' & (Al' & _) & Hpost).
  apply query_loop_facts in Hq as (l & Al & Fl & Ol & Cl & Pl & Hheld & He).
  assert (l' = l) as -> by (rewrite Al in Al'; by apply app_inv_head in Al').
  change (option_list None ++ obtained l) with (obtained l) in Hheld.
  destruct exit as [ok result|e].
  - destruct Hpost as (-> & Ql & _).
    destruct ok; cbn [negb].
    + split; [by eapply object_step_trans|]. split; [done|]. split; [done|].
      intros _. exists l. split; [done|]. split; [done|]. by left.
    + pose proof (release_steps result w1) as (Ar & _).
      split.
      { eapply object_step_trans; [exact O0|].
        eapply object_step_trans; [exact Ol|].
        eapply object_step_calls; [exact Ar|]. by destruct result. }
      split; [done|]. split; [done|].
      intros _. exists (l ++ (PQclear_ <$> option_list result)).
      split; [by rewrite Ar, Al, app_assoc|].
      split.
      { apply Forall_app. split; [done|]. destruct result; by repeat constructor. }
      left. apply quiet_waits_app. split; [done|].
      destruct result; by repeat constructor.
  - split; [by eapply object_step_trans|]. split; [done|]. split; [done|].
    intros _. exists l. split; [done|]. split; [done|]. right. by exists e.
Qed.

(** ** Sessions: the handle is released once *)

Lemma finishes_drain_calls (rs : list PGresult) : finishes (drain_calls rs) = O.
Proof.
  induction rs as [|r rs IH]; [done|].
  rewrite drain_calls_cons. exact IH.
Qed.

Lemma calls_drained (conn : PGconn_ptr) (w : libpq) :
  calls (drained conn w) = calls w.
Proof. by destruct conn. Qed.

Lemma object_step_execute (sql : string) (c : Connection) (w : libpq) :
  object_step c w c (execute sql c w).2.
Proof.
  unfold execute.
  assert (A0 : calls (PQsendQuery (conn_ c) sql w).2 = calls w ++ [PQsendQuery_ sql])
    by (unfold PQsendQuery; by destruct (conn_ c), (send_tape w)).
  destruct (PQsendQuery (conn_ c) sql w) as [sent w0]. cbn [fst snd] in A0.
  destruct (sent =? 0); cbn [snd]; [by eapply object_step_calls|].
  rewrite execute_loop_fuel by (pose proof (queue_length (conn_ c) w0); lia).
  cbn.
  eapply (object_step_calls _ _ _ ([PQsendQuery_ sql] ++ drain_calls _)).
  - by rewrite calls_logs, calls_drained, A0, <- app_assoc.
  - by rewrite finishes_app, finishes_drain_calls.
Qed.

Lemma object_step_pending (b : bool) (c c' : Connection) (w w' : libpq) :
  object_step (set_pending b c) w c' w' → object_step c w c' w'.
Proof. done. Qed.

Lemma object_step_cleanup (c : Connection) (w : libpq) :
  object_step c w (cleanup c w).1 (cleanup c w).2.
Proof.
  apply (object_step_pending false). unfold cleanup.
  eapply object_step_trans; [|apply object_step_close].
  eapply object_step_calls.
  - by rewrite calls_logs, calls_drained.
  - apply finishes_drain_calls.
Qed.

Lemma cursorId_cleanup (c : Connection) (w : libpq) :
  cursorId (cleanup c w).1 = cursorId c.
Proof. by rewrite cleanup_eq. Qed.

Lemma PQgetResult_call (conn : PGconn_ptr) (w : libpq) :
  calls (PQgetResult conn w).2 = calls w ++ [PQgetResult_ (PQgetResult conn w).1].
Proof. by destruct (PQgetResult_steps conn w) as (A & _). Qed.

(** What a method does to the handle, to the counter and to the names. *)
Lemma invoke_step (m : method) (c : Connection) (w : libpq) :
  let '(names, c', w') := invoke m c w in
  object_step c w c' w' ∧
  match m with
  | call_new_cursor_name =>
      names = ["mapnik_" +:+ pretty (cursorId c)] ∧
      cursorId c' = to_int (cursorId c + 1) ∧ w' = w
  | _ => names = [] ∧ cursorId c' = cursorId c
  end.
Proof.
  destruct m as [sql|sql type|sql type| | | |]; cbn [invoke].
  - split; [apply object_step_execute | done].
  - pose proof (executeQuery_facts sql type c w) as H.
    destruct (executeQuery sql type c w) as [[r c'] w'].
    by destruct H as (O & C & _).
  - rewrite executeAsyncQuery_eq. cbv zeta.
    assert (O0 : object_step c w c (submit sql type c w).2).
    { eapply object_step_calls; [apply submit_call|]. by destruct (type =? 1). }
    destruct (_ =? 1).
    + split; [exact O0 | done].
    + split; [|by rewrite cursorId_cleanup].
      eapply object_step_trans; [exact O0 | apply object_step_cleanup].
  - rewrite getNextAsyncResult_eq. cbv zeta.
    assert (O1 : object_step c w c (PQgetResult (conn_ c) w).2)
      by (eapply object_step_calls; [apply PQgetResult_call | done]).
    destruct (head _) as [r|]; [|done].
    destruct (bool_decide _); [done|].
    split; [apply object_step_cleanup | by rewrite cursorId_cleanup].
  - rewrite getAsyncResult_eq. cbv zeta.
    assert (O1 : object_step c w c (PQgetResult (conn_ c) w).2)
      by (eapply object_step_calls; [apply PQgetResult_call | done]).
    destruct (head _) as [r|];
      [|split; [apply object_step_cleanup | by rewrite cursorId_cleanup]].
    destruct (bool_decide _); [done|].
    split; [apply object_step_cleanup | by rewrite cursorId_cleanup].
  - pose proof (object_step_close c w) as O.
    assert (K : cursorId (close c w).1 = cursorId c)
      by (unfold close; by destruct (closed_ c)).
    by destruct (close c w) as [c' w'].
  - split; [|done]. unfold object_step. cbn.
    split; [done|]. split; [done|]. split; [done|]. destruct (closed_ c); lia.
Qed.

Lemma session_step (ms : list method) (c : Connection) (w : libpq) :
  object_step c w (session ms c w).1.2 (session ms c w).2.
Proof.
  revert c w. induction ms as [|m ms IH]; intros c w; [by apply object_step_refl|].
  cbn [session]. pose proof (invoke_step m c w) as H.
  destruct (invoke m c w) as [[names c1] w1]. destruct H as (O1 & _).
  specialize (IH c1 w1). destruct (session ms c1 w1) as [[names' c2] w2].
  by eapply object_step_trans.
Qed.

(** X1.  From a construction that succeeded, through any methods called
    in any order, failing or not: the handle is not null, the timeout is
    still 4000, and the handle has been given to [PQfinish] once if the
    connection is closed and never if it is open. *)
Theorem session_releases_once (connection_str : string)
    (password : option string) (w0 : libpq) (c : Connection) (w1 : libpq)
    (ms : list method) :
  Connection_ctor connection_str password w0 = (Return c, w1) →
  let '(_, c', w') := session ms c w1 in
  conn_ c' = Some tt ∧
  statement_timeout_ c' = 4000 ∧
  finishes (calls w') =
    (finishes (calls w0) + (if closed_ c' then 1 else 0))%nat.
Proof.
  intros H. unfold Connection_ctor, PQconnectdb in H.
  destruct (bool_decide _) eqn:E in H.
  { by destruct (close _ _). }
  simplify_eq.
  assert (Hc : connectdb_handle w0 = true).
  { apply bool_decide_eq_false in E. destruct (connectdb_handle w0); [done|].
    cbn in E. by destruct E. }
  pose proof (session_step ms
    {| conn_ := if connectdb_handle w0 then Some () else None; cursorId := 0;
       closed_ := false; pending_ := false; statement_timeout_ := 4000 |}
    (log (PQconnectdb_ match password with
                       | Some p => if negb (is_empty p)
                                   then connection_str +:+ " password=" +:+ p
                                   else connection_str
                       | None => connection_str
                       end) w0)) as S.
  destruct (session ms _ _) as [[names c'] w']. cbn [fst snd] in S.
  destruct S as (Sp & St & _ & Sf).
  cbn [conn_ statement_timeout_ closed_ log calls] in Sp, St, Sf.
  rewrite Hc in Sp. rewrite finishes_app in Sf.
  split; [done|]. split; [done|]. rewrite Sf.
  change (finishes [PQconnectdb_ _]) with O. lia.
Qed.

Lemma session_releases_once_witness :
  let '(_, c', w') :=
    session [call_executeQuery "SELECT 1" 0; call_close; call_close]
      fresh (logs [PQconnectdb_ "host=db"] silent_server) in
  finishes (calls w') = 1%nat.
Proof.
  pose proof (session_releases_once "host=db" None silent_server fresh
                (logs [PQconnectdb_ "host=db"] silent_server)
                [call_executeQuery "SELECT 1" 0; call_close; call_close]
                eq_refl) as H.
  destruct (session _ fresh _) as [[names c'] w'] eqn:E.
  vm_compute in E. injection E as <- <- <-.
  destruct H as (_ & _ & H). exact H.
Defined.

(** X2.  A closed connection stays closed whatever is called on it: no
    method gives the handle to [PQfinish] again, [isOK()] stays false, and
    [status()] never asks the server. *)
Theorem closed_is_permanent (ms : list method) (c : Connection) (w : libpq) :
  closed_ c = true →
  let '(_, c', w') := session ms c w in
  closed_ c' = true ∧
  finishes (calls w') = finishes (calls w) ∧
  isOK c' w' = false ∧
  status c' w' = match conn_ c with
                 | Some _ => "Bad connection"
                 | None => "Uninitialized connection"
                 end.
Proof.
  intros Hc. pose proof (session_step ms c w) as S.
  destruct (session ms c w) as [[names c'] w']. cbn [fst snd] in S.
  destruct S as (Sp & _ & Sm & Sf). rewrite Hc in Sf. specialize (Sm Hc).
  unfold status, isOK. rewrite Sm, Sp.
  repeat split; try done. lia.
Qed.

Lemma closed_is_permanent_witness :
  let '(_, c', w') :=
    session [call_getAsyncResult; call_executeQuery "SELECT 1" 1; call_close]
      (set_closed true fresh) two_results in
  closed_ c' = true ∧ finishes (calls w') = O.
Proof.
  pose proof (closed_is_permanent
                [call_getAsyncResult; call_executeQuery "SELECT 1" 1; call_close]
                (set_closed true fresh) two_results eq_refl) as H.
  destruct (session _ _ two_results) as [[names c'] w'].
  destruct H as (H1 & H2 & _). split; [exact H1 | exact H2].
Defined.

(** ** Cursor names in a session *)

Lemma cursor_names_counter (n : nat) (c1 c2 : Connection) :
  cursorId c1 = cursorId c2 → (cursor_names n c1).1 = (cursor_names n c2).1.
Proof.
  revert c1 c2. induction n as [|n IH]; intros c1 c2 E; [done|].
  rewrite !cursor_names_S. cbn [fst]. rewrite E. f_equal.
  apply IH. cbn. by rewrite E.
Qed.

(** X8.  The cursor names handed out during a session are those of as
    many consecutive calls of [new_cursor_name()]: the other methods,
    also when they fail and close the connection, leave the counter
    alone. *)
Theorem cursor_names_interleaved (ms : list method) (c : Connection)
    (w : libpq) :
  (session ms c w).1.1 = (cursor_names (cursor_calls ms) c).1.
Proof.
  revert c w. induction ms as [|m ms IH]; intros c w; [done|].
  cbn [session]. pose proof (invoke_step m c w) as H.
  destruct (invoke m c w) as [[names c1] w1]. destruct H as (_ & H).
  specialize (IH c1 w1). destruct (session ms c1 w1) as [[names' c2] w2].
  cbn [fst snd] in *. rewrite IH.
  destruct m; try (destruct H as (-> & E); cbn [cursor_calls app];
                   by apply cursor_names_counter).
  destruct H as (-> & E & _). cbn [cursor_calls]. rewrite cursor_names_S.
  cbn [fst app]. f_equal. apply cursor_names_counter. by rewrite E.
Qed.

(** ** [executeQuery]: the other ways out *)

(** X3.  When the submission is refused, or the connection has no socket,
    [executeQuery] throws with the text of [status()] and the SQL after
    that one foreign call, [PQsendQueryParams] when [type] is 1 and
    [PQsendQuery] otherwise: it fetches nothing and, unlike the
    asynchronous submission, leaves the connection as it is. *)
Theorem executeQuery_rejected (sql : string) (type : Z) (c : Connection)
    (w : libpq) :
  (submit sql type c w).1 = 0 ∨ PQsocket (conn_ c) (submit sql type c w).2 < 0 →
  let '(r, c', w') := executeQuery sql type c w in
  r = Throw {| what := query_error (status c w) sql |} ∧
  contains (query_error (status c w) sql) sql = true ∧
  c' = c ∧
  calls w' = calls w ++ [if type =? 1 then PQsendQueryParams_ sql
                         else PQsendQuery_ sql] ∧
  isOK c' w' = isOK c w.
Proof.
  intros H. pose proof (executeQuery_spec sql type c w) as S.
  destruct (executeQuery sql type c w) as [[r c'] w']. cbv zeta in S.
  assert (E : submitted sql type c w = false).
  { unfold submitted. destruct H as [-> | H]; [by rewrite andb_false_r|].
    apply Z.ltb_lt in H. by rewrite H. }
  rewrite E in S. destruct S as (-> & -> & ->).
  split; [done|]. split; [apply query_error_contains|]. split; [done|].
  split; [apply submit_call|].
  destruct (submit_steps sql type c w) as (e0 & (_ & Hs & _) & _).
  unfold isOK, PQstatus. destruct (conn_ c); [by rewrite Hs | done].
Qed.

Lemma executeQuery_rejected_witness :
  (executeQuery "SELECT 1" 0 fresh quiet).1.1 =
    Throw {| what := query_error EmptyString "SELECT 1" |} ∧
  calls (executeQuery "SELECT 1" 0 fresh quiet).2 = [PQsendQuery_ "SELECT 1"].
Proof.
  pose proof (executeQuery_rejected "SELECT 1" 0 fresh quiet (or_introl eq_refl))
    as H.
  destruct (executeQuery "SELECT 1" 0 fresh quiet) as [[r c'] w'].
  destruct H as (H1 & _ & _ & H4 & _). split; [exact H1 | exact H4].
Defined.

(** The rest of a log after the submission. *)
Lemma executeQuery_calls (sql : string) (type : Z) (c : Connection)
    (w w' : libpq) (l : list call) :
  calls w' = calls (submit sql type c w).2 ++ l →
  calls_since w w' =
    (if type =? 1 then PQsendQueryParams_ sql else PQsendQuery_ sql) :: l.
Proof.
  intros A. unfold calls_since.
  by rewrite A, submit_call, <- app_assoc, drop_app_length.
Qed.

Lemma input_lost_after_submit (sql : string) (type : Z) (l : list call) :
  input_lost ((if type =? 1 then PQsendQueryParams_ sql else PQsendQuery_ sql)
                :: l) ↔ input_lost l.
Proof.
  unfold input_lost. rewrite elem_of_cons.
  split; [|tauto]. intros [E|?]; [|done]. by destruct (type =? 1).
Qed.

(** X4.  When [PQconsumeInput] reports failure during [executeQuery], the
    call throws with the text of [status()] and the SQL, having released
    every result object it fetched; it does not close the connection. *)
Theorem executeQuery_input_lost (sql : string) (type : Z) (c : Connection)
    (w : libpq) :
  let '(r, c', w') := executeQuery sql type c w in
  let l := calls_since w w' in
  input_lost l →
  r = Throw {| what := query_error (status c w) sql |} ∧
  released l = obtained l ∧
  c' = c ∧
  finishes l = O ∧
  isOK c' w' = isOK c w.
Proof.
  pose proof (executeQuery_spec sql type c w) as S.
  pose proof (executeQuery_facts sql type c w) as F.
  destruct (executeQuery sql type c w) as [[r c'] w']. cbv zeta in *.
  intros I. destruct F as (_ & _ & _ & F).
  destruct (submitted sql type c w).
  - destruct S as (l & Sl & Hpost). destruct (F eq_refl) as (l' & Al' & _ & Hq).
    pose proof Sl as (Al & Hs & _).
    assert (l' = l) as -> by (rewrite Al in Al'; by apply app_inv_head in Al').
    rewrite (executeQuery_calls _ _ _ _ _ _ Al) in *.
    apply input_lost_after_submit in I.
    assert (Eo : ∀ e0 : call,
              e0 = (if type =? 1 then PQsendQueryParams_ sql else PQsendQuery_ sql) →
              obtained (e0 :: l) = obtained l ∧ released (e0 :: l) = released l ∧
              finishes (e0 :: l) = finishes l)
      by (intros e0 ->; by destruct (type =? 1)).
    destruct (Eo _ eq_refl) as (-> & -> & ->).
    destruct Hq as [Q | (e & _ & (NI & _) & _)]; [|done].
    destruct Hpost as [(held & _ & _ & _ & (NI & _) & _)
                      | [(-> & -> & _ & _ & R & _ & Fl) | (e & _ & Fw)]];
      [done | | by apply wait_failure_not_quiet in Fw].
    split; [done|]. split; [done|]. split; [done|]. split; [done|].
    destruct (submit_steps sql type c w) as (e0 & (_ & Hs0 & _) & _).
    unfold isOK, PQstatus. destruct (conn_ c); [by rewrite Hs, Hs0 | done].
  - destruct S as (_ & _ & ->). unfold calls_since in I.
    rewrite submit_call, drop_app_length in I.
    apply list_elem_of_singleton in I. by destruct (type =? 1).
Qed.

Lemma executeQuery_input_lost_witness :
  let '(r, c', w') := executeQuery "SELECT 1" 0 fresh breaking_server in
  r = Throw {| what := query_error "server closed the connection unexpectedly"
                                   "SELECT 1" |} ∧
  released (calls_since breaking_server w') = [rows 1] ∧
  closed_ c' = false.
Proof.
  pose proof (executeQuery_input_lost "SELECT 1" 0 fresh breaking_server) as H.
  destruct (executeQuery "SELECT 1" 0 fresh breaking_server) as [[r c'] w'] eqn:E.
  vm_compute in E. injection E as <- <- <-. cbv zeta in H.
  destruct H as (H1 & H2 & H3 & _).
  { unfold input_lost. vm_compute. repeat constructor. }
  split; [exact H1|]. split; [reflexivity | reflexivity].
Defined.

(** A failed wait is the only [select] of the log that returned less
    than 1. *)
Lemma failed_select_unique (c : Connection) (sql : string) (l : list call)
    (e : datasource_exception) (c' : Connection) (w' : libpq)
    (a1 tv1 ret1 wt1 a2 tv2 ret2 wt2 : Z) :
  wait_failure c sql l e c' w' →
  select_ a1 tv1 ret1 wt1 ∈ l → ret1 < 1 →
  select_ a2 tv2 ret2 wt2 ∈ l → ret2 < 1 →
  select_ a1 tv1 ret1 wt1 = select_ a2 tv2 ret2 wt2.
Proof.
  intros (l0 & a & tv & ret & wt & -> & Q0 & _) H1 R1 H2 R2.
  assert (U : ∀ a' tv' ret' wt',
            select_ a' tv' ret' wt' ∈
              l0 ++ select_ a tv ret wt :: (if closed_ c then [] else [PQfinish_]) →
            ret' < 1 → select_ a' tv' ret' wt' = select_ a tv ret wt).
  { intros a' tv' ret' wt' Hin Hr.
    apply elem_of_app in Hin as [Hin|Hin].
    - unfold quiet_waits in Q0. rewrite Forall_forall in Q0.
      specialize (Q0 _ Hin). cbn in Q0. lia.
    - apply elem_of_cons in Hin as [Hin|Hin]; [done|].
      destruct (closed_ c); [by apply elem_of_nil in Hin|].
      by apply list_elem_of_singleton in Hin. }
  by rewrite (U _ _ _ _ H1 R1), (U _ _ _ _ H2 R2).
Qed.

(** An [executeQuery] in whose log a [select] returned less than 1 has
    left through the throw of the polling loop. *)
Lemma executeQuery_failed_wait (sql : string) (type : Z) (c : Connection)
    (w : libpq) (at_us tv_usec ret waited : Z) :
  let '(r, c', w') := executeQuery sql type c w in
  select_ at_us tv_usec ret waited ∈ calls_since w w' →
  ret < 1 →
  ∃ l e,
    calls_since w w' =
      (if type =? 1 then PQsendQueryParams_ sql else PQsendQuery_ sql) :: l ∧
    select_ at_us tv_usec ret waited ∈ l ∧
    Forall query_call l ∧
    r = Throw e ∧ wait_failure c sql l e c' w' ∧ failed_wait sql l e w' ∧
    obtained l = released l ++ option_list (last (obtained l)).
Proof.
  pose proof (executeQuery_spec sql type c w) as S.
  pose proof (executeQuery_facts sql type c w) as F.
  destruct (executeQuery sql type c w) as [[r c'] w']. cbv zeta in *.
  intros Hin Hr. destruct F as (_ & _ & _ & F).
  destruct (submitted sql type c w).
  - destruct S as (l & (Al & _) & Hpost).
    destruct (F eq_refl) as (l' & Al' & Fl & Hq).
    assert (l' = l) as -> by (rewrite Al in Al'; by apply app_inv_head in Al').
    rewrite (executeQuery_calls _ _ _ _ _ _ Al) in *.
    apply elem_of_cons in Hin as [Hin|Hin]; [by destruct (type =? 1)|].
    assert (NQ : ¬ quiet_waits l).
    { intros Q. unfold quiet_waits in Q. rewrite Forall_forall in Q.
      specialize (Q _ Hin). cbn in Q. lia. }
    destruct Hq as [Q | (e & -> & Fw & Hh)]; [done|].
    destruct Hpost as [(held & ? & _) | [(_ & _ & Q & _) | (e' & E' & Wf)]];
      [done | done |].
    simplify_eq. eexists l, _.
    split; [done|]. split; [done|]. split; [done|]. split; [done|].
    split; [exact Wf|]. split; [exact Fw | exact Hh].
  - destruct S as (_ & _ & ->). unfold calls_since in Hin.
    rewrite submit_call, drop_app_length in Hin.
    apply list_elem_of_singleton in Hin. by destruct (type =? 1).
Qed.

(** X5.  When a readiness wait fails, [executeQuery] has released every
    result object it fetched before, except the one it holds at that
    moment, the last one fetched: that one is not released before the
    throw. *)
Theorem executeQuery_wait_failure_holds_last (sql : string) (type : Z)
    (c : Connection) (w : libpq) (at_us tv_usec ret waited : Z) :
  let '(r, c', w') := executeQuery sql type c w in
  let l := calls_since w w' in
  select_ at_us tv_usec ret waited ∈ l →
  ret < 1 →
  obtained l = released l ++ option_list (last (obtained l)) ∧
  (length (released l) = length (obtained l) - 1)%nat.
Proof.
  pose proof (executeQuery_failed_wait sql type c w at_us tv_usec ret waited) as H.
  destruct (executeQuery sql type c w) as [[r c'] w']. cbv zeta in *.
  intros Hin Hr. destruct (H Hin Hr) as (l & e & -> & _ & _ & _ & _ & _ & Hh).
  assert (Eo : ∀ e0 : call,
            e0 = (if type =? 1 then PQsendQueryParams_ sql else PQsendQuery_ sql) →
            obtained (e0 :: l) = obtained l ∧ released (e0 :: l) = released l)
    by (intros e0 ->; by destruct (type =? 1)).
  destruct (Eo _ eq_refl) as (-> & ->).
  split; [done|].
  assert (L : length (obtained l) =
              (length (released l)
               + length (option_list (last (obtained l))))%nat)
    by (rewrite Hh at 1; by rewrite length_app).
  destruct (last (obtained l)) as [held|] eqn:E.
  - change (length (option_list (Some held))) with 1%nat in L. lia.
  - change (length (option_list (@None PGresult))) with O in L.
    apply last_None in E. rewrite E in L |- *. cbn [length] in *. lia.
Qed.

Lemma executeQuery_wait_failure_holds_last_witness :
  let '(r, c', w') := executeQuery "SELECT 1" 0 fresh stalling_server in
  (length (released (calls_since stalling_server w'))
   = length (obtained (calls_since stalling_server w')) - 1)%nat ∧
  obtained (calls_since stalling_server w') = [rows 1] ∧
  released (calls_since stalling_server w') = [].
Proof.
  pose proof (executeQuery_wait_failure_holds_last "SELECT 1" 0 fresh
                stalling_server 5 3999000 0 3999000) as H.
  destruct (executeQuery "SELECT 1" 0 fresh stalling_server) as [[r c'] w'] eqn:E.
  vm_compute in E. injection E as <- <- <-. cbv zeta in H.
  destruct H as (H1 & H2).
  { vm_compute. repeat constructor. }
  { lia. }
  split; [exact H2|]. split; reflexivity.
Defined.

(** X6.  A readiness wait entered with a negative timeout, which is what
    the budget is once the timeout has been overrun by a millisecond or
    more, makes [executeQuery] throw with the text of a failed [select]
    ("select: Invalid argument"), not with the text of a timeout. *)
Theorem executeQuery_negative_budget (sql : string) (type : Z)
    (c : Connection) (w : libpq) (at_us tv_usec ret waited : Z) :
  let '(r, c', w') := executeQuery sql type c w in
  select_ at_us tv_usec ret waited ∈ calls_since w w' →
  tv_usec < 0 →
  ret = -1 ∧
  r = Throw {| what := query_error "select: Invalid argument" sql |} ∧
  closed_ c' = true.
Proof.
  pose proof (executeQuery_failed_wait sql type c w at_us tv_usec ret waited) as H.
  pose proof (executeQuery_facts sql type c w) as F.
  pose proof (executeQuery_spec sql type c w) as S.
  destruct (executeQuery sql type c w) as [[r c'] w']. cbv zeta in *.
  intros Hin Hneg.
  assert (Hret : ret = -1).
  { destruct F as (_ & _ & _ & F). destruct (submitted sql type c w).
    - destruct (F eq_refl) as (l & Al & Fl & _).
      rewrite (executeQuery_calls _ _ _ _ _ _ Al) in Hin.
      apply elem_of_cons in Hin as [Hin|Hin]; [by destruct (type =? 1)|].
      rewrite Forall_forall in Fl. by apply (Fl _ Hin).
    - destruct S as (_ & _ & ->). unfold calls_since in Hin.
      rewrite submit_call, drop_app_length in Hin.
      apply list_elem_of_singleton in Hin. by destruct (type =? 1). }
  destruct (H Hin) as (l & e & _ & Hl & _ & -> & Wf & (_ & Fw) & _); [lia|].
  destruct Fw as (a2 & tv2 & ret2 & wt2 & Hin2 & Hr2 & -> & Hn2).
  assert (E : select_ at_us tv_usec ret waited = select_ a2 tv2 ret2 wt2)
    by (eapply failed_select_unique; [exact Wf | done | lia | done | done]).
  injection E as <- <- <- <-.
  destruct (Hn2 Hneg) as (_ & ->). subst ret.
  split; [done|]. split; [done|].
  by destruct Wf as (? & ? & ? & ? & ? & _ & _ & _ & _ & _ & _ & Hc).
Qed.

Lemma executeQuery_negative_budget_witness :
  (executeQuery "SELECT 1" 0 fresh late_server).1.1 =
    Throw {| what := query_error "select: Invalid argument" "SELECT 1" |}.
Proof.
  pose proof (executeQuery_negative_budget "SELECT 1" 0 fresh late_server
                4002000 (-2000) (-1) 0) as H.
  destruct (executeQuery "SELECT 1" 0 fresh late_server) as [[r c'] w'] eqn:E.
  vm_compute in E. injection E as <- <- <-. cbv zeta in H.
  destruct H as (_ & H & _).
  { vm_compute. repeat constructor. }
  { lia. }
  exact H.
Defined.

(** ** The asynchronous stream *)

Lemma next_results_S (n : nat) (c : Connection) (w : libpq) :
  next_results (S n) c w =
    let s := getNextAsyncResult c w in
    let s' := next_results n s.1.2 s.2 in
    (s.1.1 :: s'.1.1, s'.1.2, s'.2).
Proof.
  cbn [next_results]. destruct (getNextAsyncResult c w) as [[r c1] w1].
  cbn [fst snd]. by destruct (next_results n c1 w1) as [[rs c2] w2].
Qed.

(** X7.  While the server's results all have status [PGRES_TUPLES_OK],
    successive calls of [getNextAsyncResult()] return the queued result
    objects one by one in order, then a [ResultSet] of the null pointer;
    nothing is released, nothing else is called, and the object is left as
    it was, so [isPending()] is still what it was when the stream ends. *)
Theorem getNextAsyncResult_stream (c : Connection) (w : libpq) :
  Forall (λ r, PQresultStatus r = PGRES_TUPLES_OK) (queue (conn_ c) w) →
  next_results (S (length (queue (conn_ c) w))) c w =
    (((λ r, Return {| res_ := Some r |}) <$> queue (conn_ c) w)
       ++ [Return {| res_ := None |}],
     c,
     logs ((PQgetResult_ <$> (Some <$> queue (conn_ c) w)) ++ [PQgetResult_ None])
          (drained (conn_ c) w)).
Proof.
  destruct (conn_ c) as [u|] eqn:Ec.
  2:{ intros _. cbn [queue length]. rewrite next_results_S, getNextAsyncResult_eq.
      rewrite Ec. by cbn. }
  cbn [queue drained]. remember (result_tape w) as t eqn:Et.
  revert w Et. induction t as [|[r|] t IH]; intros w Et F.
  - cbn [queued length]. rewrite next_results_S, getNextAsyncResult_eq.
    rewrite Ec. cbn [queue]. rewrite <- Et. cbn [queued head].
    cbv zeta. cbn [fst snd next_results].
    rewrite (PQgetResult_empty u w (eq_sym Et)). cbn [snd drained].
    by rewrite <- Et.
  - cbn [queued length] in *. apply Forall_cons in F as (Fr & F).
    rewrite next_results_S, getNextAsyncResult_eq.
    rewrite Ec. cbn [queue]. rewrite <- Et. cbn [queued head].
    rewrite (bool_decide_eq_true_2 _ Fr).
    rewrite (PQgetResult_some u r t w (eq_sym Et)). cbv zeta. cbn [fst snd].
    rewrite (IH (logs [PQgetResult_ (Some r)] (set_result_tape t w)) eq_refl F).
    cbn [fst snd fmap list_fmap app]. f_equal. world_eq.
  - cbn [queued length]. rewrite next_results_S, getNextAsyncResult_eq.
    rewrite Ec. cbn [queue]. rewrite <- Et. cbn [queued head].
    cbv zeta. cbn [fst snd next_results].
    rewrite (PQgetResult_null u t w (eq_sym Et)). cbn [snd drained].
    by rewrite <- Et.
Qed.

Lemma getNextAsyncResult_stream_witness :
  (next_results 3 (set_pending true fresh)
     (set_result_tape [Some (rows 1); Some (rows 2)] quiet)).1.1 =
    [Return {| res_ := Some (rows 1) |}; Return {| res_ := Some (rows 2) |};
     Return {| res_ := None |}].
Proof.
  pose proof (getNextAsyncResult_stream (set_pending true fresh)
                (set_result_tape [Some (rows 1); Some (rows 2)] quiet)) as H.
  cbn [queue conn_ set_pending fresh result_tape set_result_tape queued length]
    in H.
  rewrite H; [reflexivity|]. by repeat constructor.
Defined.

(** ** The two variants of the header *)

Lemma close_agree (c : Connection) (w : libpq) :
  Part000.close (without_pending c) w =
    (without_pending (close c w).1, (close c w).2).
Proof. unfold Part000.close, close. cbn. by destruct (closed_ c). Qed.

Lemma status_agree (c : Connection) (w : libpq) :
  Part000.status (without_pending c) w = status c w.
Proof. done. Qed.

Lemma poll_agree (fuel : nat) (sql : string) (sock : Z) (t : timer)
    (c : Connection) (w : libpq) :
  match poll fuel sql sock t c w,
        Part000.poll fuel sql sock t (without_pending c) w with
  | Some (x, c1, w1), Some (x', c1', w1') =>
      poll_exits_agree sql x x' ∧ c1' = without_pending c1 ∧ w1' = w1
  | None, None => True
  | _, _ => False
  end.
Proof.
  revert w. induction fuel as [|fuel IH]; intros w; [done|].
  cbn [poll Part000.poll].
  change (Part000.conn_ (without_pending c)) with (conn_ c).
  change (Part000.statement_timeout_ (without_pending c))
    with (statement_timeout_ c).
  destruct (PQconsumeInput (conn_ c) w) as [s w1].
  destruct (s =? 0); [done|].
  destruct (PQisBusy (conn_ c) w1) as [busy w2].
  destruct busy.
  - destruct (wall_clock_elapsed t w2) as [elapsed w3].
    destruct (select _ _ w3) as [ret w4].
    destruct (ret <? 1).
    + rewrite close_agree. destruct (close c w4) as [c5 w5]. cbn [fst snd].
      split; [|done]. by eexists.
    + change (Part000.conn_ (without_pending c)) with (conn_ c).
      destruct (PQisBusy (conn_ c) w4) as [busy2 w6].
      destruct busy2; [apply IH | done].
  - change (Part000.conn_ (without_pending c)) with (conn_ c).
    destruct (PQisBusy (conn_ c) w2) as [busy2 w6].
    destruct busy2; [apply IH | done].
Qed.

Lemma query_loop_agree (fuel : nat) (sql : string) (sock : Z) (t : timer)
    (ok : bool) (result : option PGresult) (c : Connection) (w : libpq) :
  match query_loop fuel sql sock t ok result c w,
        Part000.query_loop fuel sql sock t ok result (without_pending c) w with
  | Some (x, c1, w1), Some (x', c1', w1') =>
      loop_exits_agree sql x x' ∧ c1' = without_pending c1 ∧ w1' = w1
  | None, None => True
  | _, _ => False
  end.
Proof.
  revert ok result c w.
  induction fuel as [|fuel IH]; intros ok result c w; [done|].
  cbn [query_loop Part000.query_loop].
  pose proof (poll_agree (S (length (consume_tape w))) sql sock t c w) as H.
  destruct (poll _ sql sock t c w) as [[[x c1] w1]|];
    destruct (Part000.poll _ sql sock t (without_pending c) w)
      as [[[x' c1'] w1']|]; try done.
  destruct H as (Hx & -> & ->).
  destruct x as [s|e], x' as [s'|e']; try done.
  cbn in Hx. subst s'.
  destruct (s =? 0); [done|].
  change (Part000.conn_ (without_pending c1)) with (conn_ c1).
  destruct (PQgetResult (conn_ c1) w1) as [[tmp|] w2]; [apply IH | done].
Qed.

(** X9.  The [executeQuery] of the second variant of the header makes
    the same foreign calls and leaves the same object and world as the one
    of connection.hpp, and ends the same way: both return the same
    [ResultSet], or both throw, and then the two exception texts carry the
    same diagnostic and the same SQL and differ in their fixed wording
    only.  [execute], [close] and [new_cursor_name] are the same in both. *)
Theorem variants_agree (sql : string) (type : Z) (c : Connection) (w : libpq) :
  (let '(r, c1, w1) := executeQuery sql type c w in
   let '(r', c1', w1') := Part000.executeQuery sql type (without_pending c) w in
   outcomes_agree sql r r' ∧ c1' = without_pending c1 ∧ w1' = w1) ∧
  Part000.execute sql (without_pending c) w = execute sql c w ∧
  Part000.close (without_pending c) w =
    (without_pending (close c w).1, (close c w).2) ∧
  Part000.new_cursor_name (without_pending c) =
    ((new_cursor_name c).1, without_pending (new_cursor_name c).2).
Proof.
  split; [|split; [done|split; [apply close_agree | done]]].
  unfold executeQuery, Part000.executeQuery.
  change (Part000.conn_ (without_pending c)) with (conn_ c).
  destruct (if type =? 1 then _ else _) as [success w0].
  destruct ((if PQsocket (conn_ c) w0 <? 0 then 0 else success) =? 0).
  { split; [|done]. exists (status c w0). split; [done|]. by left. }
  pose proof (query_loop_agree (S (length (result_tape w0))) sql
                (PQsocket (conn_ c) w0) (timer_new w) false None c w0) as H.
  destruct (query_loop_fuel (S (length (result_tape w0))) sql
              (PQsocket (conn_ c) w0) (timer_new w) false None c w0)
    as [[[x c1] w1] Hq]; [lia|].
  rewrite Hq in *.
  destruct (Part000.query_loop _ sql _ _ false None (without_pending c) w0)
    as [[[x' c1'] w1']|]; [|done].
  destruct H as (Hx & -> & ->). cbn [default].
  destruct x as [ok result|e], x' as [ok' result'|e']; try done.
  - destruct Hx as (<- & <-). destruct ok; cbn [negb]; [done|].
    split; [|done]. exists (status c1 w1). split; [done|]. by right.
  - destruct Hx as (diag & -> & ->). split; [|done].
    exists diag. split; [done|]. by right.
Qed.

(** ** The life of an object *)

Lemma finishes_log (e : call) (w : libpq) :
  finishes (calls (log e w)) =
    (finishes (calls w) + finishes [e])%nat.
Proof. cbn [log calls]. apply finishes_app. Qed.

Lemma part000_closes (n : nat) (c : Part000.Connection) (w : libpq) :
  let '(c', w') := Nat.iter n (λ cw, Part000.close cw.1 cw.2) (c, w) in
  Part000.closed_ c' = (if n is O then Part000.closed_ c else true) ∧
  finishes (calls w') =
    (finishes (calls w)
     + (if n is O then 0 else if Part000.closed_ c then 0 else 1))%nat.
Proof.
  induction n as [|n IH]; [cbn; split; [done|lia]|].
  rewrite Nat.iter_succ. destruct (Nat.iter n _ (c, w)) as [c1 w1]. cbn [fst snd].
  destruct IH as (Hc & Hf). unfold Part000.close.
  destruct (Part000.closed_ c1) eqn:E1; cbn [negb].
  - split; [done|]. rewrite Hf. destruct n; [by rewrite <- Hc|done].
  - cbn [Part000.set_closed Part000.closed_]. split; [done|].
    unfold PQfinish. rewrite finishes_log, Hf.
    change (finishes [PQfinish_]) with 1%nat.
    destruct n; [rewrite <- Hc; lia|]. congruence.
Qed.

(** X10.  Over the whole life of an object of connection.hpp (the
    constructor, any methods in any order, the destructor) the handle is
    given to [PQfinish] exactly once, whether construction succeeds or
    throws.  In the variant of part_000 this holds only when construction
    succeeds: a construction that throws never releases the handle. *)
Theorem lifetime_releases (connection_str : string) (password : option string)
    (ms : list method) (closes : nat) (w : libpq) :
  finishes (calls (lifetime connection_str password ms w)) =
    S (finishes (calls w)) ∧
  finishes (calls (lifetime_part000 connection_str password closes w)) =
    (finishes (calls w)
     + (if bool_decide
             (PQstatus (if connectdb_handle w then Some tt else None) w
              = CONNECTION_OK)
        then 1 else 0))%nat.
Proof.
  split.
  - unfold lifetime, Connection_ctor, PQconnectdb.
    cbn [conn_ PQstatus].
    destruct (bool_decide _) eqn:E.
    + unfold close. cbn [closed_ negb conn_ set_closed].
      unfold PQfinish. rewrite !finishes_log.
      change (finishes [PQfinish_]) with 1%nat.
      change (finishes [PQconnectdb_ _]) with O. lia.
    + match goal with |- context [session ms ?c ?w1] =>
        pose proof (session_step ms c w1) as S;
        destruct (session ms c w1) as [[names c'] w'] end.
      cbn [fst snd] in S. destruct S as (_ & _ & _ & Sf).
      cbn [closed_] in Sf. rewrite finishes_log in Sf.
      change (finishes [PQconnectdb_ _]) with O in Sf.
      unfold Connection_dtor. destruct (closed_ c'); cbn [negb snd].
      * lia.
      * unfold PQfinish. rewrite finishes_log.
        change (finishes [PQfinish_]) with 1%nat. lia.
  - unfold lifetime_part000, Part000.Connection_ctor, PQconnectdb.
    cbn [Part000.conn_].
    assert (Hs : ∀ h, PQstatus h (log (PQconnectdb_
                 match password with
                 | Some p => if negb (is_empty p)
                             then connection_str +:+ " password=" +:+ p
                             else connection_str
                 | None => connection_str
                 end) w) = PQstatus h w) by by intros [[]|].
    rewrite Hs.
    destruct (decide (PQstatus (if connectdb_handle w then Some tt else None) w
                      = CONNECTION_OK)) as [E|E].
    + rewrite (bool_decide_eq_true_2 _ E), (bool_decide_eq_false_2 _) by tauto.
      match goal with |- context [Nat.iter closes ?f (?c, ?w1)] =>
        pose proof (part000_closes closes c w1) as S;
        destruct (Nat.iter closes f (c, w1)) as [c' w'] end.
      destruct S as (Sc & Sf). cbn [Part000.closed_] in Sc, Sf.
      rewrite finishes_log in Sf.
      change (finishes [PQconnectdb_ _]) with O in Sf.
      unfold Part000.Connection_dtor. rewrite Sc.
      destruct closes; cbn [negb snd].
      * unfold PQfinish. rewrite finishes_log.
        change (finishes [PQfinish_]) with 1%nat. lia.
      * lia.
    + rewrite (bool_decide_eq_false_2 _ E), (bool_decide_eq_true_2 _ E).
      rewrite finishes_log. change (finishes [PQconnectdb_ _]) with O. lia.
Qed.

(** ** The pending flag and the synchronous methods *)

Lemma invoke_pending (m : method) (c : Connection) (w : libpq) :
  synchronous m = true → pending_ (invoke m c w).1.2 = pending_ c.
Proof.
  destruct m as [sql|sql type|sql type| | | |]; cbn [invoke synchronous];
    try done; intros _.
  - pose proof (executeQuery_facts sql type c w) as H.
    destruct (executeQuery sql type c w) as [[r c'] w']. by destruct H as (_ & _ & H & _).
  - unfold close. by destruct (closed_ c).
Qed.

(** X11.  The synchronous methods ([execute], [executeQuery], [close],
    [new_cursor_name]) never touch the pending flag, in any number and
    order and also when [executeQuery] fails and closes the connection:
    [isPending()] answers afterwards what it answered before, so it can
    be true of a closed connection. *)
Theorem synchronous_keep_pending (ms : list method) (c : Connection)
    (w : libpq) :
  forallb synchronous ms = true →
  isPending (session ms c w).1.2 = isPending c.
Proof.
  unfold isPending. revert c w.
  induction ms as [|m ms IH]; intros c w H; [done|].
  cbn [forallb] in H. apply andb_prop in H as (Hm & Hms).
  cbn [session]. pose proof (invoke_pending m c w Hm) as P.
  destruct (invoke m c w) as [[names c1] w1]. cbn [fst snd] in P.
  specialize (IH c1 w1 Hms).
  destruct (session ms c1 w1) as [[names' c2] w2]. cbn [fst snd] in *.
  congruence.
Qed.

Lemma synchronous_keep_pending_witness :
  let c' := (session [call_executeQuery "SELECT 1" 0; call_new_cursor_name]
               (set_pending true fresh) stalling_server).1.2 in
  isPending c' = true ∧ closed_ c' = true.
Proof.
  split.
  - apply (synchronous_keep_pending
             [call_executeQuery "SELECT 1" 0; call_new_cursor_name]
             (set_pending true fresh) stalling_server).
    reflexivity.
  - by vm_compute.
Defined.

(** ** Who owns the result objects *)

Lemma calls_since_app (w w' : libpq) (l : list call) :
  calls w' = calls w ++ l → calls_since w w' = l.
Proof. intros E. unfold calls_since. by rewrite E, drop_app_length. Qed.

Lemma cleanup_owned (c : Connection) (w : libpq) :
  ∃ l, calls (cleanup c w).2 = calls w ++ l ∧ obtained l = released l.
Proof.
  rewrite cleanup_eq. cbn [snd]. eexists. split.
  - by rewrite calls_logs, calls_drained.
  - rewrite obtained_app, released_app, obtained_drain_calls,
      released_drain_calls. by destruct (closed_ c).
Qed.

Lemma fetch_owned (c : Connection) (w : libpq) (failing : bool) (text : string) :
  let r_c_w :=
    match head (queue (conn_ c) w) with
    | Some r =>
        if bool_decide (PQresultStatus r = PGRES_TUPLES_OK)
        then (Return {| res_ := Some r |}, c, (PQgetResult (conn_ c) w).2)
        else (Throw {| what := text |}, (cleanup c w).1, (cleanup c w).2)
    | None =>
        if failing
        then (Throw {| what := text |}, (cleanup c w).1, (cleanup c w).2)
        else (Return {| res_ := None |}, c, (PQgetResult (conn_ c) w).2)
    end in
  ∃ l, calls r_c_w.2 = calls w ++ l ∧
       obtained l = released l ++ given r_c_w.1.1.
Proof.
  cbv zeta.
  pose proof (PQgetResult_call (conn_ c) w) as A.
  rewrite PQgetResult_head in A.
  destruct (cleanup_owned c w) as (lc & Ac & Oc).
  destruct (head (queue (conn_ c) w)) as [r|].
  - destruct (bool_decide _); cbn [fst snd given].
    + by exists [PQgetResult_ (Some r)].
    + exists lc. by rewrite app_nil_r.
  - destruct failing; cbn [fst snd given].
    + exists lc. by rewrite app_nil_r.
    + by exists [PQgetResult_ None].
Qed.

Lemma invoke_owned (m : method) (c : Connection) (w : libpq) :
  ∃ l, calls (invoke m c w).2 = calls w ++ l ∧
       (quiet_waits l → obtained l = released l ++ handed m c w).
Proof.
  destruct m as [sql|sql type|sql type| | | |]; cbn [invoke handed].
  - unfold execute.
    assert (A0 : calls (PQsendQuery (conn_ c) sql w).2 = calls w ++ [PQsendQuery_ sql])
      by (unfold PQsendQuery; by destruct (conn_ c), (send_tape w)).
    destruct (PQsendQuery (conn_ c) sql w) as [sent w0]. cbn [fst snd] in A0.
    destruct (sent =? 0); cbn [snd]; [by exists [PQsendQuery_ sql]|].
    rewrite execute_loop_fuel by (pose proof (queue_length (conn_ c) w0); lia).
    unfold default. cbn [from_option id snd].
    exists ([PQsendQuery_ sql] ++ drain_calls (queue (conn_ c) w0)). split.
    + by rewrite calls_logs, calls_drained, A0, <- app_assoc.
    + intros _. rewrite obtained_app, released_app, obtained_drain_calls,
        released_drain_calls. by rewrite app_nil_r.
  - pose proof (executeQuery_spec sql type c w) as H. cbv zeta in H.
    pose proof (submit_call sql type c w) as A0.
    destruct (executeQuery sql type c w) as [[r c'] w']. cbn [fst snd].
    destruct (submitted sql type c w).
    + destruct H as (l & (A & _) & P).
      exists ([if type =? 1 then PQsendQueryParams_ sql else PQsendQuery_ sql] ++ l).
      split; [by rewrite A, A0, <- app_assoc|].
      intros Q. apply quiet_waits_app in Q as (_ & Q).
      rewrite obtained_app, released_app.
      replace (obtained [if type =? 1 then PQsendQueryParams_ sql
                         else PQsendQuery_ sql]) with (@nil PGresult)
        by (by destruct (type =? 1)).
      replace (released [if type =? 1 then PQsendQueryParams_ sql
                         else PQsendQuery_ sql]) with (@nil PGresult)
        by (by destruct (type =? 1)).
      destruct P as [(held & -> & _ & _ & _ & _ & E & _)
                    |[(-> & _ & _ & _ & E & _)|(e & -> & F)]].
      * exact E.
      * cbn [given app]. by rewrite app_nil_r.
      * by apply wait_failure_not_quiet in F.
    + destruct H as (-> & _ & ->). eexists. split; [exact A0|].
      intros _. by destruct (type =? 1).
  - rewrite executeAsyncQuery_eq. cbv zeta.
    pose proof (submit_call sql type c w) as A0.
    destruct (cleanup_owned c (submit sql type c w).2) as (lc & Ac & Oc).
    destruct ((submit sql type c w).1 =? 1); cbn [fst snd].
    + eexists. split; [exact A0|]. intros _. by destruct (type =? 1).
    + exists ([if type =? 1 then PQsendQueryParams_ sql else PQsendQuery_ sql] ++ lc).
      split; [by rewrite Ac, A0, <- app_assoc|]. intros _.
      rewrite obtained_app, released_app, Oc, app_nil_r.
      by destruct (type =? 1).
  - rewrite getNextAsyncResult_eq. cbv zeta.
    destruct (fetch_owned c w false
                ("Postgis Plugin: " +:+ status c (PQgetResult (conn_ c) w).2 +:+
                 (nl +:+ "in getNextAsyncResult"))) as (l & A & E).
    cbv zeta in A, E.
    destruct (head (queue (conn_ c) w)) as [r|];
      [destruct (bool_decide _)|]; exists l; by split.
  - rewrite getAsyncResult_eq. cbv zeta.
    destruct (fetch_owned c w true
                ("Postgis Plugin: " +:+ status c (PQgetResult (conn_ c) w).2 +:+
                 (nl +:+ "in getAsyncResult"))) as (l & A & E).
    cbv zeta in A, E.
    destruct (head (queue (conn_ c) w)) as [r|];
      [destruct (bool_decide _)|]; exists l; by split.
  - unfold close. destruct (closed_ c); cbn [negb snd].
    + exists []. by rewrite app_nil_r.
    + by exists [PQfinish_].
  - destruct (new_cursor_name c) as [s c']. exists []. by rewrite app_nil_r.
Qed.

Lemma session_owned (ms : list method) (c : Connection) (w : libpq) :
  ∃ l, calls (session ms c w).2 = calls w ++ l ∧
       (quiet_waits l →
        obtained l ≡ₚ released l ++ session_handed ms c w).
Proof.
  revert c w. induction ms as [|m ms IH]; intros c w.
  { exists []. by rewrite app_nil_r. }
  cbn [session session_handed].
  destruct (invoke_owned m c w) as (l1 & A1 & E1).
  destruct (invoke m c w) as [[names c1] w1]. cbn [fst snd] in *.
  destruct (IH c1 w1) as (l2 & A2 & E2).
  destruct (session ms c1 w1) as [[names' c2] w2]. cbn [fst snd] in *.
  exists (l1 ++ l2). split; [by rewrite A2, A1, <- app_assoc|].
  intros Q. apply quiet_waits_app in Q as (Q1 & Q2).
  rewrite obtained_app, released_app, (E1 Q1), (E2 Q2).
  rewrite <- !(assoc (++)). f_equiv. rewrite !(assoc (++)). f_equiv.
  apply Permutation_app_comm.
Qed.

(** X12.  Through any methods called in any order, as long as no
    readiness wait fails: the result objects obtained from [PQgetResult]
    are, up to their order, those given to [PQclear] and those handed to
    the caller inside a [ResultSet].  None is lost and none is released
    and handed out as well. *)
Theorem results_owned (ms : list method) (c : Connection) (w : libpq) :
  let l := calls_since w (session ms c w).2 in
  quiet_waits l →
  obtained l ≡ₚ released l ++ session_handed ms c w.
Proof.
  cbv zeta. destruct (session_owned ms c w) as (l & A & E).
  by rewrite (calls_since_app _ _ _ A).
Qed.

Lemma results_owned_witness :
  let w := set_result_tape [Some (rows 1); Some (command 2); Some (rows 3)]
             (set_send_tape [1; 1] quiet) in
  let ms := [call_executeAsyncQuery "SELECT 1" 0; call_getAsyncResult;
             call_getNextAsyncResult; call_execute "COMMIT"] in
  let l := calls_since w (session ms fresh w).2 in
  obtained l ≡ₚ released l ++ session_handed ms fresh w.
Proof.
  cbv zeta.
  apply (results_owned
           [call_executeAsyncQuery "SELECT 1" 0; call_getAsyncResult;
            call_getNextAsyncResult; call_execute "COMMIT"]
           fresh
           (set_result_tape [Some (rows 1); Some (command 2); Some (rows 3)]
              (set_send_tape [1; 1] quiet))).
  vm_compute. repeat constructor.
Defined.
